(** * wr-audit-log: the capture helpers, the metadata merge and the logger facade

    A shallow embedding of the TypeScript sources

      - [mergeMetadata]: [src/unnamed/part_001] (with the key guard) and
        [src/unnamed/part_000] (without it),
      - [extractPrimaryKey]: [src/unnamed/part_001] (reads the configured
        key) and [src/src/utils/primary-key.ts] (searches for an id field),
      - [createUpdateAuditLogs]: [src/src/capture/update.ts],
      - [sanitizeError] and the class [AuditLogger] (its constructor with
        [normalizeConfig], [shouldAudit], [logInsert], [logUpdate],
        [logDelete]): [src/src/utils/logging.ts],

    followed by the properties the specification states about them and by
    further properties of the code.

    Conventions of the model.

      - A JavaScript string is a [string]: a sequence of 8-bit code units.
      - A [number] is an integer ([VNumber n] with [n : Z]); its string form
        is modelled for the safe integers, where it is the decimal digits.
        Fractions, NaN and the infinities are outside the model.
      - Objects that can be shared or cyclic (JSON columns) live in a [heap]
        and are referred to by address; a row ([Record<string, unknown>]) is
        given by its own enumerable properties in enumeration order, and its
        prototype is [Object.prototype]: reading a name the row does not have
        gives what is inherited under it.
      - How deep the host lets calls nest is a parameter of the host; a
        traversal that goes deeper throws the host's [RangeError].
      - [NoResult] marks what is outside the model: the accessor [__proto__]
        as a key field, calls of functions held by the data, numbers outside
        the safe integers, addresses that are not allocated. *)

From Stdlib Require Import List String Ascii ZArith NArith Bool Arith Lia.
From Stdlib Require Import DecimalString DecimalPos DecimalZ.
Import ListNotations.

Local Open Scope string_scope.
Local Open Scope list_scope.

(** String concatenation, written as JavaScript's [+] on strings. *)
Infix "+++" := String.append (right associativity, at level 60).

(* ================================================================= *)
(** * JavaScript values and built-ins *)

Module Js.

(** ** Outcomes of a call *)

Inductive error : Type :=
| Error (message : string)
| TypeError (message : string)
| RangeError (message : string).

(** A call returns or throws.  [NoResult] is the model's own third case: the
    call leaves the model (see the conventions above) or produces a value
    the TypeScript signature excludes. *)
Inductive outcome (A : Type) : Type :=
| Returns (a : A)
| Throws (e : error)
| NoResult.

Arguments Returns {A} a.
Arguments Throws {A} e.
Arguments NoResult {A}.

Definition bind {A B : Type} (m : outcome A) (k : A -> outcome B) : outcome B :=
  match m with
  | Returns a => k a
  | Throws e => Throws e
  | NoResult => NoResult
  end.

Notation "x <- m ;; k" := (bind m (fun x => k))
  (at level 61, m at next level, right associativity).
Notation "' pat <- m ;; k" := (bind m (fun x => match x with pat => k end))
  (at level 61, pat pattern, m at next level, right associativity).

(** ** Values *)

Definition addr := nat.

Inductive value : Type :=
| VUndefined
| VNull
| VBool (b : bool)
| VNumber (n : Z)
| VBigInt (n : Z)
| VString (s : string)
| VDate (t : option Z)        (* time value in ms; [None] for an invalid date *)
| VRef (a : addr)             (* an object or an array, by identity *)
| VNative (name : string).    (* a built-in function, by its name *)

(** Own enumerable string-keyed properties, in enumeration order. *)
Definition obj := list (string * value).

Inductive hobj : Type :=
| OObject (fields : obj)
| OArray (items : list value).

Definition heap := list hobj.

(** What the host decides.  About dates: [String(d)] depends on its time
    zone; [d.toISOString()] is given for valid dates.  About the stack: how
    many calls of [Array.prototype.join], and how many of
    SerializeJSONProperty, it lets nest before it throws its [RangeError];
    the second is at least three, which is a row holding an object holding a
    value. *)
Class Host : Type := {
  dateToString : option Z -> string;
  dateToISOString : Z -> string;
  toStringDepth : nat;
  stringifyDepth : nat;
  stringifyDepth_min : (3 <=? stringifyDepth)%nat = true
}.

(** [v == null] *)
Definition isNullish (v : value) : bool :=
  match v with
  | VUndefined | VNull => true
  | _ => false
  end.

(** [v === undefined] *)
Definition isUndefined (v : value) : bool :=
  match v with
  | VUndefined => true
  | _ => false
  end.

(** ** Strings *)

Definition dquote : string := String (ascii_of_nat 34) EmptyString.

(** The decimal digits of an integer, with a minus sign when negative:
    [String(n)] for a big integer, and for a number that is a safe
    integer. *)
Definition Z_to_string (n : Z) : string := NilEmpty.string_of_int (Z.to_int n).

(** [Number.isSafeInteger(n)] on an integer *)
Definition isSafeInteger (n : Z) : bool := (Z.abs n <=? 9007199254740991)%Z.

(** [String(n)] for a number: beyond the safe integers (rounding, and the
    exponent form from 10^21 on) it is not modelled. *)
Definition numberToString (n : Z) : option string :=
  if isSafeInteger n then Some (Z_to_string n) else None.

(** [String(f)] for a built-in function, as V8 prints it. *)
Definition functionText (name : string) : string :=
  "function " +++ name +++ "() { [native code] }".

Definition nat_to_string (n : nat) : string := Z_to_string (Z.of_nat n).

(** [xs.join(sep)] on strings *)
Fixpoint join (sep : string) (xs : list string) : string :=
  match xs with
  | [] => EmptyString
  | [x] => x
  | x :: rest => x +++ sep +++ join sep rest
  end.

Definition lowerChar (c : ascii) : ascii :=
  let n := nat_of_ascii c in
  if ((65 <=? n) && (n <=? 90))%nat then ascii_of_nat (n + 32)
  else if ((192 <=? n) && (n <=? 222) && negb (n =? 215))%nat then ascii_of_nat (n + 32)
  else c.

(** [s.toLowerCase()] *)
Fixpoint toLowerCase (s : string) : string :=
  match s with
  | EmptyString => EmptyString
  | String c s' => String (lowerChar c) (toLowerCase s')
  end.

(** [s.endsWith(suffix)] *)
Definition endsWith (s suffix : string) : bool :=
  let n := String.length s in
  let m := String.length suffix in
  (m <=? n)%nat && String.eqb (substring (n - m) m s) suffix.

(** Insertion of a string into a list sorted by code units, for [keys.sort()]. *)
Fixpoint insertSorted (s : string) (xs : list string) : list string :=
  match xs with
  | [] => [s]
  | x :: rest => if String.leb s x then s :: xs else x :: insertSorted s rest
  end.

Definition sortStrings (xs : list string) : list string :=
  fold_right insertSorted [] xs.

(** ** Objects *)

Fixpoint lookup (o : obj) (k : string) : option value :=
  match o with
  | [] => None
  | (k', v) :: o' => if String.eqb k' k then Some v else lookup o' k
  end.

(** The functions that every object inherits from [Object.prototype], with
    the name each prints under. *)
Definition inherited (k : string) : option string :=
  if String.eqb k "constructor" then Some "Object"
  else if existsb (String.eqb k)
            ["hasOwnProperty"; "isPrototypeOf"; "propertyIsEnumerable";
             "toLocaleString"; "toString"; "valueOf";
             "__defineGetter__"; "__defineSetter__";
             "__lookupGetter__"; "__lookupSetter__"]
  then Some k
  else None.

(** [o[k]] on an object whose prototype is [Object.prototype]: the object's
    own property, else the function inherited under that name, else
    [undefined].  The one other inherited name is the accessor [__proto__],
    whose value is the prototype itself: the code that reads a field of that
    name is given [NoResult] (see [resolveKeys]). *)
Definition get (o : obj) (k : string) : value :=
  match lookup o k with
  | Some v => v
  | None =>
      match inherited k with
      | Some name => VNative name
      | None => VUndefined
      end
  end.

(** [k in o] for the names the code asks about ([id], [<table>_id], [uuid],
    [pk]), none of which is inherited: an own property. *)
Definition has (o : obj) (k : string) : bool :=
  match lookup o k with
  | Some _ => true
  | None => false
  end.

(** [Object.keys(o)] *)
Definition keys (o : obj) : list string := map fst o.

(** An array index is a canonical numeric string (printing the number it
    denotes gives the string back) whose value is below 2^32 - 1; such
    property names are enumerated first, in numeric order. *)
Definition arrayIndex (k : string) : option N :=
  match NilZero.uint_of_string k with
  | Some d =>
      let n := N.of_uint d in
      if String.eqb (NilZero.string_of_uint (N.to_uint n)) k && (n <? 4294967295)%N
      then Some n
      else None
  | None => None
  end.

Fixpoint replaceValue (k : string) (v : value) (o : obj) : obj :=
  match o with
  | [] => []
  | (k', v') :: o' =>
      if String.eqb k' k then (k', v) :: o' else (k', v') :: replaceValue k v o'
  end.

Fixpoint insertIndex (n : N) (k : string) (v : value) (o : obj) : obj :=
  match o with
  | [] => [(k, v)]
  | (k', v') :: o' =>
      match arrayIndex k' with
      | Some m => if (m <? n)%N then (k', v') :: insertIndex n k v o' else (k, v) :: o
      | None => (k, v) :: o
      end
  end.

(** [o[k] = v] on an object without accessors: an existing property keeps its
    place; a new array index goes among the indices, any other new name at
    the end. *)
Definition set (k : string) (v : value) (o : obj) : obj :=
  if has o k then replaceValue k v o
  else match arrayIndex k with
       | Some n => insertIndex n k v o
       | None => o ++ [(k, v)]
       end.

(** [Array.prototype.includes] on addresses, and [WeakSet.prototype.has] for
    a set kept as a list. *)
Definition memAddr (a : addr) (s : list addr) : bool := existsb (Nat.eqb a) s.

(** ** Well-formed heaps *)

(** A value is closed when the address it holds, if any, is allocated. *)
Definition closedValue (h : heap) (v : value) : bool :=
  match v with
  | VRef a => (a <? List.length h)%nat
  | _ => true
  end.

Definition closedObj (h : heap) (o : obj) : bool :=
  forallb (fun kv => closedValue h (snd kv)) o.

Definition closedHObj (h : heap) (x : hobj) : bool :=
  match x with
  | OObject fs => closedObj h fs
  | OArray items => forallb (closedValue h) items
  end.

(** No object of the heap refers outside it. *)
Definition closedHeap (h : heap) : bool := forallb (closedHObj h) h.

(** The number of allocated addresses that are not in [seen]: what bounds
    the depth of a traversal that never enters an object twice. *)
Definition unseen (h : heap) (seen : list addr) : nat :=
  List.length (filter (fun a => negb (memAddr a seen)) (seq 0 (List.length h))).

(** A value that is neither an object nor an array. *)
Definition isScalar (v : value) : bool :=
  match v with
  | VRef _ => false
  | _ => true
  end.

(** Every path from [v] through the heap has at most [n] objects on it; a
    value on a cycle has no such bound. *)
Fixpoint depthAtMost (h : heap) (n : nat) (v : value) : bool :=
  match v with
  | VRef a =>
      match n with
      | O => false
      | S n' =>
          match nth_error h a with
          | Some (OObject fs) => forallb (fun kv => depthAtMost h n' (snd kv)) fs
          | Some (OArray items) => forallb (depthAtMost h n') items
          | None => false
          end
      end
  | _ => true
  end.

(** Values as a stored row holds them: no function, and numbers within the
    safe integers. *)
Definition dataValue (v : value) : bool :=
  match v with
  | VNumber n => isSafeInteger n
  | VNative _ => false
  | _ => true
  end.

Definition dataObj (o : obj) : bool := forallb (fun kv => dataValue (snd kv)) o.

(** A value whose string form is modelled when it is a number. *)
Definition printed (v : value) : Prop :=
  forall n, v = VNumber n -> isSafeInteger n = true.

Definition dataHObj (x : hobj) : bool :=
  match x with
  | OObject fs => dataObj fs
  | OArray items => forallb dataValue items
  end.

Definition dataHeap (h : heap) : bool := forallb dataHObj h.

(** No object of the heap has a property of its own named [toString]. *)
Definition printableHeap (h : heap) : bool :=
  forallb (fun x => match x with
                    | OObject fs => negb (has fs "toString")
                    | OArray _ => true
                    end) h.

(** A host for the worked examples, none of which holds a date: every date
    prints as the epoch.  It lets a hundred calls nest. *)
Definition exampleHost : Host :=
  {| dateToString := fun _ => "Thu Jan 01 1970 00:00:00 GMT+0000 (Coordinated Universal Time)";
     dateToISOString := fun _ => "1970-01-01T00:00:00.000Z";
     toStringDepth := 100;
     stringifyDepth := 100;
     stringifyDepth_min := eq_refl |}.

(** The host's [RangeError] when calls nest too deep. *)
Definition stackOverflow {A : Type} : outcome A :=
  Throws (RangeError "Maximum call stack size exceeded").

(** [String(n)] *)
Definition printNumber (n : Z) : outcome string :=
  match numberToString n with
  | Some s => Returns s
  | None => NoResult
  end.

(** OrdinaryToPrimitive with hint string, on an object whose prototype is
    [Object.prototype].  Without a [toString] of its own the object prints
    through the inherited one.  An own [toString] that is no function is
    passed over, and so is [valueOf], own or inherited (which returns the
    object): the conversion throws.  Calls of functions held by the object
    are outside the model. *)
Definition objectToString (fs : obj) : outcome string :=
  match lookup fs "toString" with
  | None => Returns "[object Object]"
  | Some (VNative _) => NoResult
  | Some _ =>
      match lookup fs "valueOf" with
      | Some (VNative _) => NoResult
      | _ => Throws (TypeError "Cannot convert object to primitive value")
      end
  end.

Fixpoint mapM {A B : Type} (f : A -> outcome B) (xs : list A) : outcome (list B) :=
  match xs with
  | [] => Returns []
  | x :: rest =>
      y <- f x ;;
      ys <- mapM f rest ;;
      Returns (y :: ys)
  end.

(** ** [String(v)] *)

Section Builtins.
Context {host : Host}.

(** [stack] holds the arrays whose [join] is in progress: the host's [join]
    renders an array met again inside itself as the empty string.  [fuel] is
    how many more calls of [join] may nest. *)
Fixpoint ToStringFuel (h : heap) (fuel : nat) (stack : list addr) (v : value)
  : outcome string :=
  match v with
  | VUndefined => Returns "undefined"
  | VNull => Returns "null"
  | VBool true => Returns "true"
  | VBool false => Returns "false"
  | VNumber n => printNumber n
  | VBigInt n => Returns (Z_to_string n)
  | VString s => Returns s
  | VDate t => Returns (dateToString t)
  | VNative name => Returns (functionText name)
  | VRef a =>
      match nth_error h a with
      | None => NoResult
      | Some (OObject fs) => objectToString fs
      | Some (OArray items) =>
          if memAddr a stack then Returns EmptyString
          else
            match fuel with
            | O => stackOverflow
            | S fuel' =>
                parts <- mapM (fun e =>
                                 if isNullish e then Returns EmptyString
                                 else ToStringFuel h fuel' (a :: stack) e) items ;;
                Returns (join "," parts)
            end
      end
  end.

Definition ToString (h : heap) (v : value) : outcome string :=
  ToStringFuel h toStringDepth [] v.

(** ** [JSON.stringify(value, replacer)] *)

Definition hexDigit (n : nat) : ascii :=
  if (n <? 10)%nat then ascii_of_nat (48 + n) else ascii_of_nat (87 + n).

Definition quoteChar (c : ascii) : string :=
  let n := nat_of_ascii c in
  if (n =? 8)%nat then "\b"
  else if (n =? 9)%nat then "\t"
  else if (n =? 10)%nat then "\n"
  else if (n =? 12)%nat then "\f"
  else if (n =? 13)%nat then "\r"
  else if (n =? 34)%nat then "\" +++ dquote
  else if (n =? 92)%nat then "\\"
  else if (n <? 32)%nat then
    "\u00" +++ String (hexDigit (n / 16)) (String (hexDigit (n mod 16)) EmptyString)
  else String c EmptyString.

Fixpoint quoteChars (s : string) : string :=
  match s with
  | EmptyString => EmptyString
  | String c s' => quoteChar c +++ quoteChars s'
  end.

Definition QuoteJSONString (s : string) : string := dquote +++ quoteChars s +++ dquote.

(** Step 2 of SerializeJSONProperty: the [toJSON] of the value runs before
    the replacer.  [Date.prototype.toJSON] gives the ISO string, and [null]
    for an invalid date; an object has one only as a property of its own,
    whose call is outside the model; a property [toJSON] that is no function
    is passed over. *)
Definition toJSON (h : heap) (v : value) : outcome value :=
  match v with
  | VDate (Some t) => Returns (VString (dateToISOString t))
  | VDate None => Returns VNull
  | VRef a =>
      match nth_error h a with
      | Some (OObject fs) =>
          match lookup fs "toJSON" with
          | Some (VNative _) => NoResult
          | _ => Returns v
          end
      | _ => Returns v
      end
  | _ => Returns v
  end.

Section Stringify.
Variable St : Type.
(** The replacer function with the state it closes over: called with the key
    and the value of every property, the root included. *)
Variable replacer : St -> string -> value -> outcome (value * St).

Fixpoint serMembers (ser : St -> string -> value -> outcome (St * option string))
    (st : St) (fs : obj) : outcome (St * list string) :=
  match fs with
  | [] => Returns (st, [])
  | (k, v) :: rest =>
      ' (st1, r) <- ser st k v ;;
      ' (st2, ms) <- serMembers ser st1 rest ;;
      Returns (st2, match r with
                    | Some s => (QuoteJSONString k +++ ":" +++ s) :: ms
                    | None => ms
                    end)
  end.

Fixpoint serElements (ser : St -> string -> value -> outcome (St * option string))
    (st : St) (index : nat) (items : list value) : outcome (St * list string) :=
  match items with
  | [] => Returns (st, [])
  | v :: rest =>
      ' (st1, r) <- ser st (nat_to_string index) v ;;
      ' (st2, ms) <- serElements ser st1 (S index) rest ;;
      Returns (st2, match r with
                    | Some s => s :: ms
                    | None => "null" :: ms
                    end)
  end.

(** SerializeJSONProperty, with the value already read from its holder.  The
    result is [None] where JavaScript yields [undefined].  [stack] is the
    specification's stack of objects being serialized, [fuel] how many more
    calls may nest. *)
Fixpoint SerializeJSONProperty (h : heap) (fuel : nat) (stack : list addr)
    (st : St) (key : string) (v : value) : outcome (St * option string) :=
  match fuel with
  | O => stackOverflow
  | S fuel' =>
      v0 <- toJSON h v ;;
      ' (v', st1) <- replacer st key v0 ;;
      match v' with
      | VUndefined => Returns (st1, None)
      | VNull => Returns (st1, Some "null")
      | VBool true => Returns (st1, Some "true")
      | VBool false => Returns (st1, Some "false")
      | VNumber n => s <- printNumber n ;; Returns (st1, Some s)
      | VBigInt _ => Throws (TypeError "Do not know how to serialize a BigInt")
      | VString s => Returns (st1, Some (QuoteJSONString s))
      | VDate _ => Returns (st1, Some "{}")
      | VNative _ => Returns (st1, None)
      | VRef a =>
          if memAddr a stack then
            Throws (TypeError "Converting circular structure to JSON")
          else
            match nth_error h a with
            | None => NoResult
            | Some (OObject fs) =>
                ' (st2, ms) <- serMembers (SerializeJSONProperty h fuel' (a :: stack)) st1 fs ;;
                Returns (st2, Some ("{" +++ join "," ms +++ "}"))
            | Some (OArray items) =>
                ' (st2, ms) <- serElements (SerializeJSONProperty h fuel' (a :: stack)) st1 0 items ;;
                Returns (st2, Some ("[" +++ join "," ms +++ "]"))
            end
      end
  end.

(** [JSON.stringify(v, replacer)] for a value of the heap [h]. *)
Definition JSON_stringify (h : heap) (st : St) (v : value) : outcome (option string) :=
  ' (_, r) <- SerializeJSONProperty h stringifyDepth [] st EmptyString v ;;
  Returns r.

End Stringify.
End Builtins.

End Js.

(* ================================================================= *)
(** * Shared types: [AuditLog] and the normalized configuration *)

Module Types.
Import Js.

(** [AuditLog]; [values] and [metadata] are optional. *)
Record AuditLog : Type := mkAuditLog {
  action : string;
  tableName : string;
  recordId : string;
  values : option obj;
  metadata : option obj
}.

Inductive UpdateValuesMode : Type := full | changed.

(** [tables]: the wildcard ["*"] or the audited table names. *)
Inductive Tables : Type :=
| AllTables
| TableNames (names : list string).

(** The fields of [NormalizedConfig] that the code below reads. *)
Record NormalizedConfig : Type := mkConfig {
  tables : Tables;
  fields : list (string * list string);
  excludeFields : list string;
  auditTable : string;
  updateValuesMode : UpdateValuesMode
}.

(** [xs.includes(s)] on strings *)
Definition includes (xs : list string) (s : string) : bool :=
  existsb (String.eqb s) xs.

(** [m[k]] for an object used as a table from names to [A]. *)
Fixpoint assoc {A : Type} (m : list (string * A)) (k : string) : option A :=
  match m with
  | [] => None
  | (k', a) :: m' => if String.eqb k' k then Some a else assoc m' k
  end.

End Types.

(* ================================================================= *)
(** * [mergeMetadata] *)

(** [src/unnamed/part_001]: the result is built on [Object.create(null)] and
    the three forbidden keys are skipped. *)
Module Metadata.
Import Js.

Definition isForbidden (key : string) : bool :=
  String.eqb key "__proto__" || String.eqb key "constructor" || String.eqb key "prototype".

(** The inner loop, over [Object.entries(source)]. *)
Fixpoint mergeEntries (merged : obj) (entries : obj) : obj :=
  match entries with
  | [] => merged
  | (key, value) :: rest =>
      if isForbidden key then mergeEntries merged rest
      else if isUndefined value then mergeEntries merged rest
      else mergeEntries (set key value merged) rest
  end.

(** The outer loop; a source is [None] when it is [undefined] or [null]. *)
Fixpoint mergeSources (merged : obj) (sources : list (option obj)) : obj :=
  match sources with
  | [] => merged
  | None :: rest => mergeSources merged rest
  | Some source :: rest => mergeSources (mergeEntries merged source) rest
  end.

(** The result is [None] for [null]. *)
Definition mergeMetadata (sources : list (option obj)) : option obj :=
  let merged := mergeSources [] sources in
  if (0 <? List.length (keys merged))%nat then Some merged else None.

(** *** Notions used to state the merge laws *)

(** An entry that the loops assign. *)
Definition isEffective (kv : string * value) : bool :=
  negb (isForbidden (fst kv)) && negb (isUndefined (snd kv)).

(** What is left of a source after the forbidden keys and the undefined
    values are removed. *)
Definition effectiveEntries (source : option obj) : obj :=
  match source with
  | Some o => filter isEffective o
  | None => []
  end.

(** A source without its entries whose value is [undefined]. *)
Definition dropUndefined (source : option obj) : option obj :=
  option_map (filter (fun kv => negb (isUndefined (snd kv)))) source.

(** The assignments [merged[key] = value], one after the other. *)
Definition assignAll (acc : obj) (l : obj) : obj :=
  fold_left (fun m kv => set (fst kv) (snd kv) m) l acc.

(** The last line of [mergeMetadata]. *)
Definition finish (merged : obj) : option obj :=
  if (0 <? List.length (keys merged))%nat then Some merged else None.

End Metadata.

(** [src/unnamed/part_000]: the result starts as the literal [{}] and no key
    is skipped.  The sources hold data: no functions. *)
Module MetadataUnguarded.
Import Js.

(** [merged], with what decides where an assignment to [__proto__] goes:
    whether the prototype of [merged] has become [null]. *)
Record target : Type := { protoIsNull : bool; own : obj }.

(** The literal [{}] *)
Definition emptyObject : target := {| protoIsNull := false; own := [] |}.

(** [merged[key] = value].  As long as [merged] has a prototype, the name
    [__proto__] is the accessor inherited from [Object.prototype], directly
    or through the object that was made the prototype (which is taken to
    have no property of that name itself): assigning to it creates no own
    property, and makes the value the prototype when it is an object or
    [null].  Once the prototype is [null] the name is a property like any
    other. *)
Definition assign (key : string) (value : value) (merged : target) : target :=
  if String.eqb key "__proto__" && negb (protoIsNull merged) then
    {| protoIsNull := match value with
                      | VNull => true
                      | _ => false
                      end;
       own := own merged |}
  else {| protoIsNull := protoIsNull merged; own := set key value (own merged) |}.

Fixpoint mergeEntries (merged : target) (entries : obj) : target :=
  match entries with
  | [] => merged
  | (key, value) :: rest =>
      if isUndefined value then mergeEntries merged rest
      else mergeEntries (assign key value merged) rest
  end.

Fixpoint mergeSources (merged : target) (sources : list (option obj)) : target :=
  match sources with
  | [] => merged
  | None :: rest => mergeSources merged rest
  | Some source :: rest => mergeSources (mergeEntries merged source) rest
  end.

Definition mergeMetadata (sources : list (option obj)) : option obj :=
  let merged := own (mergeSources emptyObject sources) in
  if (0 <? List.length (keys merged))%nat then Some merged else None.

End MetadataUnguarded.

(* ================================================================= *)
(** * [extractPrimaryKey] with the table-config map ([src/unnamed/part_001]) *)

Module PrimaryKey.
Import Js Types.

(** [primaryKey: string | string[]] *)
Inductive primaryKeySpec : Type :=
| OneKey (key : string)
| KeyList (keys : list string).

(** An entry of the table-config map; [primaryKey] is [None] when the entry
    carries none. *)
Record tableConfig : Type := { primaryKey : option primaryKeySpec }.

Definition tableConfigMap := list (string * tableConfig).

Section WithHost.
Context {host : Host}.

(** The replacer inside [safeStringifyForPK]; [seen] is its [WeakSet]. *)
Definition replacer (seen : list addr) (key : string) (value : value)
  : outcome (Js.value * list addr) :=
  match value with
  | VBigInt n => Returns (VString (Z_to_string n), seen)
  | VDate (Some t) => Returns (VString (dateToISOString t), seen)
  | VDate None => Throws (RangeError "Invalid time value")
  | VRef a =>
      if memAddr a seen then Returns (VString "[Circular]", seen)
      else Returns (value, a :: seen)
  | _ => Returns (value, seen)
  end.

(** [record] is an object of its own: it is allocated after the objects its
    values refer to.  [JSON.stringify] yields [undefined] only when the
    replacer drops the root, which the signature ([string]) leaves out. *)
Definition safeStringifyForPK (h : heap) (record : obj) : outcome string :=
  let root := List.length h in
  match JSON_stringify (list addr) replacer (h ++ [OObject record]) [] (VRef root) with
  | Returns (Some s) => Returns s
  | Returns None => NoResult
  | Throws _ =>
      let keys := sortStrings (keys record) in
      Returns ("composite_key_" +++ join "_" keys +++ "_" +++ nat_to_string (List.length keys))
  | NoResult => NoResult
  end.

(** The [for] loop of [extractConfiguredPrimaryKey]; [None] is the early
    [return null].  [resolved] starts as the literal [{}], on which every
    field name but one assigns an own property.  That one is [__proto__]: it
    reads and assigns through the accessor of [Object.prototype], which is
    outside the model. *)
Fixpoint resolveKeys (record : obj) (keys : list string) (resolved : obj)
  : outcome (option obj) :=
  match keys with
  | [] => Returns (Some resolved)
  | field :: rest =>
      if String.eqb field "__proto__" then NoResult
      else
        let value := get record field in
        if isNullish value then Returns None
        else resolveKeys record rest (set field value resolved)
  end.

(** [Array.isArray(key) ? key : [key]] *)
Definition keysOf (key : primaryKeySpec) : list string :=
  match key with
  | OneKey k => [k]
  | KeyList ks => ks
  end.

(** The result is [None] for [null]. *)
Definition extractConfiguredPrimaryKey (h : heap) (record : obj) (key : primaryKeySpec)
  : outcome (option string) :=
  let keys := keysOf key in
  resolved <- resolveKeys record keys [] ;;
  match resolved with
  | None => Returns None
  | Some resolved =>
      match keys with
      | [key0] =>
          s <- ToString h (get resolved key0) ;;
          Returns (Some s)
      | _ =>
          s <- safeStringifyForPK h resolved ;;
          Returns (Some s)
      end
  end.

(** [!configuredKey]: an absent key and the empty string are falsy, an array
    never is. *)
Definition isMissing (configuredKey : option primaryKeySpec) : bool :=
  match configuredKey with
  | None => true
  | Some (OneKey k) => String.eqb k EmptyString
  | Some (KeyList _) => false
  end.

Definition extractPrimaryKey (h : heap) (record : obj) (tableName : string)
    (tableConfigMap : tableConfigMap) : outcome string :=
  let configuredKey :=
    match assoc tableConfigMap tableName with
    | Some entry => primaryKey entry
    | None => None
    end in
  if isMissing configuredKey then
    Throws (Error ("tables." +++ tableName +++ ".primaryKey is required"))
  else
    match configuredKey with
    | Some key =>
        configured <- extractConfiguredPrimaryKey h record key ;;
        match configured with
        | None =>
            Throws (Error ("record missing configured primaryKey field(s) for table: "
                           +++ tableName))
        | Some id => Returns id
        end
    | None => NoResult          (* not reached: an absent key is missing *)
    end.

Definition extractPrimaryKeys (h : heap) (records : list obj) (tableName : string)
    (tableConfigMap : tableConfigMap) : outcome (list string) :=
  mapM (fun record => extractPrimaryKey h record tableName tableConfigMap) records.

(** *** Notions used to state the properties of the extractor *)

(** The configured key of a table, when the map holds a usable one. *)
Definition configuredKey (m : tableConfigMap) (tableName : string)
  : option primaryKeySpec :=
  match assoc m tableName with
  | Some entry => if isMissing (primaryKey entry) then None else primaryKey entry
  | None => None
  end.

(** The text [safeStringifyForPK] returns from its [catch]. *)
Definition fallbackKey (record : obj) : string :=
  let keys := sortStrings (keys record) in
  "composite_key_" +++ join "_" keys +++ "_" +++ nat_to_string (List.length keys).

(** The serializer under the replacer of [safeStringifyForPK]. *)
Definition serPK := SerializeJSONProperty (list addr) replacer.

(** The JSON text of a value that is not an object, under that replacer;
    [None] where the property is left out. *)
Definition scalarJSON (v : value) : option string :=
  match v with
  | VUndefined => None
  | VNull => Some "null"
  | VBool true => Some "true"
  | VBool false => Some "false"
  | VNumber n => Some (Z_to_string n)
  | VBigInt n => Some (QuoteJSONString (Z_to_string n))
  | VString s => Some (QuoteJSONString s)
  | VDate (Some t) => Some (QuoteJSONString (dateToISOString t))
  | VDate None => Some "null"
  | VRef _ => None
  | VNative _ => None
  end.

(** The members [key:text] of an object whose values are not objects. *)
Definition scalarMembers (o : obj) : list string :=
  flat_map (fun kv => match scalarJSON (snd kv) with
                      | Some s => [QuoteJSONString (fst kv) +++ ":" +++ s]
                      | None => []
                      end) o.

End WithHost.
End PrimaryKey.

(* ================================================================= *)
(** * [extractPrimaryKey] by field names ([src/src/utils/primary-key.ts]) *)

Module PrimaryKeyHeuristic.
Import Js Types.

Section WithHost.
Context {host : Host}.

(** The same function body as in the other revision. *)
Definition safeStringifyForPK := PrimaryKey.safeStringifyForPK.

Definition extractPrimaryKey (h : heap) (record : obj) (tableName : string)
  : outcome string :=
  let commonPkFields := ["id"; tableName +++ "_id"; "uuid"; "pk"] in
  match find (fun field => has record field && negb (isNullish (get record field)))
             commonPkFields with
  | Some field => ToString h (get record field)
  | None =>
      let idField :=
        find (fun key => endsWith (toLowerCase key) "id" && negb (isNullish (get record key)))
             (keys record) in
      match idField with
      | Some idField =>
          if String.eqb idField EmptyString then safeStringifyForPK h record
          else ToString h (get record idField)
      | None => safeStringifyForPK h record
      end
  end.

Definition extractPrimaryKeys (h : heap) (records : list obj) (tableName : string)
  : outcome (list string) :=
  mapM (fun record => extractPrimaryKey h record tableName) records.

End WithHost.
End PrimaryKeyHeuristic.

(* ================================================================= *)
(** * [utils/serializer.ts], which is not among the sources *)

Module Serializer.
Import Js Types.

(** Modelled from the spec: [filterFields] of [utils/serializer.ts] is missing
    from the sources.  Section 4.3: it returns a new mapping containing
    exactly those columns of the row that appear in [fields[table]] when that
    is defined, else all columns, and that are not in [excludeFields]; the
    keys follow the configured order when present, otherwise the row's. *)
Definition filterFields (row : obj) (table : string) (config : NormalizedConfig) : obj :=
  let excluded := includes (excludeFields config) in
  match assoc (fields config) table with
  | Some columns =>
      flat_map (fun column =>
                  match lookup row column with
                  | Some v => if excluded column then [] else [(column, v)]
                  | None => []
                  end) columns
  | None => filter (fun kv => negb (excluded (fst kv))) row
  end.

Section Diff.
(** The structural equality of section 4.3 (scalars by value, dates by
    timestamp, nested structures by deep equality, big integers by numeric
    equality), left open here. *)
Variable sameValue : value -> value -> bool.

(** A column of [after] differs when [before] lacks it or holds a value that
    is not structurally equal. *)
Definition differs (before : obj) (kv : string * value) : bool :=
  match lookup before (fst kv) with
  | Some old => negb (sameValue old (snd kv))
  | None => true
  end.

(** Modelled from the spec: [getChangedValues] of [utils/serializer.ts] is
    missing from the sources.  Section 4.3: it returns the mapping of keys
    present in [after] whose value differs from [before] by structural
    equality; a key present only in [after] is considered changed; the
    mapping is empty if nothing changed. *)
Definition getChangedValues (before after : obj) : option obj :=
  Some (filter (differs before) after).

(** A column of the filtered after-row differs when the filtered before-row
    lacks it or holds a value that is not structurally equal. *)
Definition columnDiffers (before : obj) (column : string) (v : value) : Prop :=
  forall old, lookup before column = Some old -> sameValue old v = false.

End Diff.
(** A structural equality for worked examples: values without nested
    structure by value, dates by timestamp, objects by identity. *)
Definition sameScalar (a b : value) : bool :=
  match a, b with
  | VUndefined, VUndefined => true
  | VNull, VNull => true
  | VBool x, VBool y => Bool.eqb x y
  | VNumber x, VNumber y => Z.eqb x y
  | VBigInt x, VBigInt y => Z.eqb x y
  | VString x, VString y => String.eqb x y
  | VDate (Some x), VDate (Some y) => Z.eqb x y
  | VRef x, VRef y => Nat.eqb x y
  | _, _ => false
  end.

End Serializer.

(* ================================================================= *)
(** * [createUpdateAuditLogs] ([src/src/capture/update.ts]) *)

Module Update.
Import Js Types.

Section WithHelpers.
Context {host : Host}.
(** The two imports from [utils/serializer.ts].  [getChangedValues] may yield
    no object, which the guard [changedValues && ...] allows for. *)
Variable filterFields : obj -> string -> NormalizedConfig -> obj.
Variable getChangedValues : obj -> obj -> option obj.

(** The import from [utils/primary-key.ts], called with two arguments. *)
Local Abbreviation extractPrimaryKey := PrimaryKeyHeuristic.extractPrimaryKey.

(** A [Map<string, Record<string, unknown>>] *)
Definition RowMap := list (string * obj).

Fixpoint mapSet (k : string) (row : obj) (m : RowMap) : RowMap :=
  match m with
  | [] => [(k, row)]
  | (k', row') :: m' =>
      if String.eqb k' k then (k', row) :: m' else (k', row') :: mapSet k row m'
  end.

Definition mapGet (m : RowMap) (k : string) : option obj := assoc m k.

Definition updateLog (tableName recordId : string) (values : obj) : AuditLog :=
  {| action := "UPDATE"; tableName := tableName; recordId := recordId;
     values := Some values; metadata := None |}.

(** The loop of the first branch; an element of [afterRecords] is [None] when
    it is [null] or [undefined]. *)
Fixpoint fullRows (h : heap) (tableName : string) (config : NormalizedConfig)
    (afterRecords : list (option obj)) (logs : list AuditLog) : outcome (list AuditLog) :=
  match afterRecords with
  | [] => Returns logs
  | None :: rest => fullRows h tableName config rest logs
  | Some after :: rest =>
      let values := filterFields after tableName config in
      recordId <- extractPrimaryKey h after tableName ;;
      fullRows h tableName config rest (logs ++ [updateLog tableName recordId values])
  end.

(** The loop that fills [beforeById]. *)
Fixpoint indexBefore (h : heap) (tableName : string)
    (beforeRecords : list (option obj)) (beforeById : RowMap) : outcome RowMap :=
  match beforeRecords with
  | [] => Returns beforeById
  | None :: rest => indexBefore h tableName rest beforeById
  | Some before :: rest =>
      recordId <- extractPrimaryKey h before tableName ;;
      indexBefore h tableName rest (mapSet recordId before beforeById)
  end.

(** The loop that matches before and after rows by primary key. *)
Fixpoint changedRows (h : heap) (tableName : string) (config : NormalizedConfig)
    (beforeById : RowMap) (afterRecords : list (option obj)) (logs : list AuditLog)
  : outcome (list AuditLog) :=
  match afterRecords with
  | [] => Returns logs
  | None :: rest => changedRows h tableName config beforeById rest logs
  | Some after :: rest =>
      key <- extractPrimaryKey h after tableName ;;
      match mapGet beforeById key with
      | None =>
          let values := filterFields after tableName config in
          recordId <- extractPrimaryKey h after tableName ;;
          changedRows h tableName config beforeById rest
                      (logs ++ [updateLog tableName recordId values])
      | Some before =>
          let beforeValues := filterFields before tableName config in
          let afterValues := filterFields after tableName config in
          match getChangedValues beforeValues afterValues with
          | Some changedValues =>
              if (0 <? List.length (keys changedValues))%nat then
                recordId <- extractPrimaryKey h after tableName ;;
                changedRows h tableName config beforeById rest
                            (logs ++ [updateLog tableName recordId changedValues])
              else changedRows h tableName config beforeById rest logs
          | None => changedRows h tableName config beforeById rest logs
          end
      end
  end.

Definition isFull (mode : UpdateValuesMode) : bool :=
  match mode with
  | full => true
  | changed => false
  end.

Definition createUpdateAuditLogs (h : heap) (tableName : string)
    (beforeRecords afterRecords : list (option obj)) (config : NormalizedConfig)
  : outcome (list AuditLog) :=
  if isFull (updateValuesMode config) || (List.length beforeRecords =? 0)%nat then
    fullRows h tableName config afterRecords []
  else
    beforeById <- indexBefore h tableName beforeRecords [] ;;
    changedRows h tableName config beforeById afterRecords [].

(** *** Notions used to state the properties of the transform *)

(** The rows of a [Record<string, unknown>[]] that are present. *)
Definition presentRows (rows : list (option obj)) : list obj :=
  flat_map (fun r => match r with Some row => [row] | None => [] end) rows.

(** Every row that is present has a primary key: the extractor returns on
    it. *)
Definition keyed (h : heap) (tableName : string) (rows : list (option obj)) : Prop :=
  forall row, In (Some row) rows ->
              exists id, extractPrimaryKey h row tableName = Returns id.

(** The record written for a row in full mode: an UPDATE of the table under
    the primary key of the row, with the filtered row as values and without
    metadata. *)
Definition fullRecord (h : heap) (tableName : string) (config : NormalizedConfig)
    (after : obj) (log : AuditLog) : Prop :=
  exists id, extractPrimaryKey h after tableName = Returns id
             /\ action log = "UPDATE"
             /\ Types.tableName log = tableName
             /\ recordId log = id
             /\ values log = Some (filterFields after tableName config)
             /\ metadata log = None.

(** What the matching loop appends for one present row. *)
Definition changedStep (h : heap) (tableName : string) (config : NormalizedConfig)
    (beforeById : RowMap) (after : obj) : outcome (list AuditLog) :=
  id <- extractPrimaryKey h after tableName ;;
  match mapGet beforeById id with
  | None => Returns [updateLog tableName id (filterFields after tableName config)]
  | Some before =>
      match getChangedValues (filterFields before tableName config)
                             (filterFields after tableName config) with
      | Some changedValues =>
          if (0 <? List.length (keys changedValues))%nat
          then Returns [updateLog tableName id changedValues]
          else Returns []
      | None => Returns []
      end
  end.

(** The record identifier of [log] is the primary key of one of [rows]. *)
Definition fromRow (h : heap) (tableName : string) (rows : list (option obj))
    (log : AuditLog) : Prop :=
  exists row, In (Some row) rows /\ extractPrimaryKey h row tableName = Returns (recordId log).

End WithHelpers.
End Update.

(* ================================================================= *)
(** * [sanitizeError] ([src/src/utils/logging.ts]) *)

Module Logging.
Import Js.

(** The argument of [sanitizeError], of type [unknown]: an instance of
    [Error] with its [name], [message] and whatever its [code] property
    holds ([VUndefined] when it has none), or any other value. *)
Inductive unknown : Type :=
| ErrorInstance (name message : string) (code : value)
| Other (v : value).

(** The result, [Record<string, unknown> | string]. *)
Definition sanitizeError (error : unknown) : obj + string :=
  match error with
  | ErrorInstance name message maybeCode =>
      let code :=
        match maybeCode with
        | VString _ => maybeCode
        | _ => VUndefined
        end in
      inl [("name", VString name); ("message", VString message); ("code", code)]
  | Other (VString s) => inr s
  | Other _ => inr "Unknown error"
  end.

End Logging.

(* ================================================================= *)
(** * The class [AuditLogger] ([src/src/utils/logging.ts], second part) *)

Module Logger.
Import Js Types.

Section WithCollaborators.
Context {host : Host}.
(** The collaborators the class imports (the writer, the context manager and
    the INSERT and DELETE transforms) are not among the sources; the class is
    modelled over any of them. *)
Variable AuditWriter : Type.
Variable AuditContextManager : Type.
Variable AuditContext : Type.
Variable writeAuditLogs :
  AuditWriter -> list AuditLog -> option AuditContext -> outcome AuditWriter.
Variable getContext : AuditContextManager -> option AuditContext.
Variable createInsertAuditLogs createDeleteAuditLogs :
  heap -> string -> list (option obj) -> NormalizedConfig -> outcome (list AuditLog).
Variable filterFields : obj -> string -> NormalizedConfig -> obj.
Variable getChangedValues : obj -> obj -> option obj.

(** The private fields of the class. *)
Record AuditLogger : Type := mkLogger {
  config : NormalizedConfig;
  contextManager : AuditContextManager;
  writer : AuditWriter
}.

Definition shouldAudit (this : AuditLogger) (tableName : string) : bool :=
  if String.eqb tableName (auditTable (config this)) then false
  else
    match tables (config this) with
    | AllTables => true
    | TableNames names => includes names tableName
    end.

(** An argument of type [Record<string, unknown> | Record<string, unknown>[]] *)
Inductive recordsArg : Type :=
| OneRecord (record : obj)
| RecordArray (records : list (option obj)).

(** [Array.isArray(x) ? x : [x]] *)
Definition toArray (x : recordsArg) : list (option obj) :=
  match x with
  | OneRecord record => [Some record]
  | RecordArray records => records
  end.

Definition withWriter (this : AuditLogger) (w : AuditWriter) : AuditLogger :=
  {| config := config this; contextManager := contextManager this; writer := w |}.

(** Each method returns the logger as the call leaves it. *)
Definition logInsert (this : AuditLogger) (h : heap) (tableName : string)
    (insertedRecords : recordsArg) : outcome AuditLogger :=
  if negb (shouldAudit this tableName) then Returns this
  else
    let records := toArray insertedRecords in
    logs <- createInsertAuditLogs h tableName records (config this) ;;
    w <- writeAuditLogs (writer this) logs (getContext (contextManager this)) ;;
    Returns (withWriter this w).

Definition logUpdate (this : AuditLogger) (h : heap) (tableName : string)
    (beforeRecords afterRecords : recordsArg) : outcome AuditLogger :=
  if negb (shouldAudit this tableName) then Returns this
  else
    let before := toArray beforeRecords in
    let after := toArray afterRecords in
    logs <- Update.createUpdateAuditLogs filterFields getChangedValues
              h tableName before after (config this) ;;
    w <- writeAuditLogs (writer this) logs (getContext (contextManager this)) ;;
    Returns (withWriter this w).

Definition logDelete (this : AuditLogger) (h : heap) (tableName : string)
    (deletedRecords : recordsArg) : outcome AuditLogger :=
  if negb (shouldAudit this tableName) then Returns this
  else
    let records := toArray deletedRecords in
    logs <- createDeleteAuditLogs h tableName records (config this) ;;
    w <- writeAuditLogs (writer this) logs (getContext (contextManager this)) ;;
    Returns (withWriter this w).

End WithCollaborators.
Arguments config {AuditWriter AuditContextManager} _.
Arguments writer {AuditWriter AuditContextManager} _.
Arguments contextManager {AuditWriter AuditContextManager} _.
Arguments shouldAudit {AuditWriter AuditContextManager} this tableName.
Arguments logInsert {AuditWriter AuditContextManager AuditContext}.
Arguments logUpdate {host AuditWriter AuditContextManager AuditContext}.
Arguments logDelete {AuditWriter AuditContextManager AuditContext}.

End Logger.

(* ================================================================= *)
(** * The constructor of [AuditLogger] and [normalizeConfig]
    ([src/src/utils/logging.ts], second part) *)

Module Setup.
Import Js.

(** [AuditConfig], as [normalizeConfig] reads it: every field but [tables]
    may be absent. *)
Module Given.
Record AuditConfig : Type := {
  tables : Types.Tables;
  fields : option (list (string * list string));
  excludeFields : option (list string);
  auditTable : option string;
  strictMode : option bool;
  getUserId : option (unit -> value);
  getMetadata : option (unit -> obj)
}.
End Given.

(** [NormalizedConfig] as this revision builds it. *)
Record NormalizedConfig : Type := {
  tables : Types.Tables;
  fields : list (string * list string);
  excludeFields : list string;
  auditTable : string;
  strictMode : bool;
  getUserId : unit -> value;
  getMetadata : unit -> obj
}.

(** [x || d] and [x ?? d] for an optional object, array, function or
    boolean: a value that is present is kept. *)
Definition orElse {A : Type} (x : option A) (d : A) : A :=
  match x with
  | Some a => a
  | None => d
  end.

Definition normalizeConfig (config : Given.AuditConfig) : NormalizedConfig :=
  {| tables := Given.tables config;
     fields := orElse (Given.fields config) [];
     excludeFields := orElse (Given.excludeFields config)
                             ["password"; "token"; "secret"; "apiKey"];
     auditTable :=
       match Given.auditTable config with
       | Some name => if String.eqb name EmptyString then "audit_logs" else name
       | None => "audit_logs"
       end;
     strictMode := orElse (Given.strictMode config) false;
     getUserId := orElse (Given.getUserId config) (fun _ => VUndefined);
     getMetadata := orElse (Given.getMetadata config) (fun _ => []) |}.

(** The normalized configuration as [shouldAudit] and the transforms read
    it.  This revision of [normalizeConfig] sets no [updateValuesMode], so
    that [config.updateValuesMode === "full"] is false on what it returns:
    its mode is [changed].  The mode is given apart, for the revisions of
    [NormalizedConfig] that carry one. *)
Definition asRead (mode : Types.UpdateValuesMode) (config : NormalizedConfig)
  : Types.NormalizedConfig :=
  {| Types.tables := tables config;
     Types.fields := fields config;
     Types.excludeFields := excludeFields config;
     Types.auditTable := auditTable config;
     Types.updateValuesMode := mode |}.

Section Constructor.
Variable Database AuditWriter AuditContextManager : Type.
(** [new AuditWriter(db, config)] and [new AuditContextManager()] *)
Variable newAuditWriter : Database -> NormalizedConfig -> AuditWriter.
Variable newAuditContextManager : AuditContextManager.

(** [new AuditLogger(db, config)] *)
Definition newAuditLogger (mode : Types.UpdateValuesMode) (db : Database)
    (config : Given.AuditConfig) : Logger.AuditLogger AuditWriter AuditContextManager :=
  let normalized := normalizeConfig config in
  Logger.mkLogger _ _ (asRead mode normalized) newAuditContextManager
                  (newAuditWriter db normalized).

End Constructor.

(** *** Notions used to state the properties of the constructor *)

(** A configuration that states every field of a normalized one. *)
Definition stated (config : NormalizedConfig) : Given.AuditConfig :=
  {| Given.tables := tables config;
     Given.fields := Some (fields config);
     Given.excludeFields := Some (excludeFields config);
     Given.auditTable := Some (auditTable config);
     Given.strictMode := Some (strictMode config);
     Given.getUserId := Some (getUserId config);
     Given.getMetadata := Some (getMetadata config) |}.

End Setup.

(* ================================================================= *)
(** * Notions used to state further properties *)

(** Reading JSON text back. *)
Module JsonText.
Import Js.

Definition hexValue (c : ascii) : nat :=
  let n := nat_of_ascii c in
  if (n <? 58)%nat then n - 48 else n - 87.

(** Reads one character written by [quoteChar] off the front of a text;
    [None] at the closing quote and at the end. *)
Definition unquoteChar (s : string) : option (ascii * string) :=
  match s with
  | String c rest =>
      if (nat_of_ascii c =? 92)%nat then
        match rest with
        | String e rest' =>
            let n := nat_of_ascii e in
            if (n =? 98)%nat then Some (ascii_of_nat 8, rest')
            else if (n =? 116)%nat then Some (ascii_of_nat 9, rest')
            else if (n =? 110)%nat then Some (ascii_of_nat 10, rest')
            else if (n =? 102)%nat then Some (ascii_of_nat 12, rest')
            else if (n =? 114)%nat then Some (ascii_of_nat 13, rest')
            else if (n =? 117)%nat then
              match rest' with
              | String _ (String _ (String h1 (String h2 rest''))) =>
                  Some (ascii_of_nat (16 * hexValue h1 + hexValue h2), rest'')
              | _ => None
              end
            else Some (e, rest')
        | EmptyString => None
        end
      else if (nat_of_ascii c =? 34)%nat then None
      else Some (c, rest)
  | EmptyString => None
  end.

(** What follows the value of a member in an object text: a comma or the
    closing brace. *)
Definition afterValue (r : string) : bool :=
  match r with
  | String c _ => (nat_of_ascii c =? 44)%nat || (nat_of_ascii c =? 125)%nat
  | EmptyString => false
  end.

(** The texts JSON has for values that are not objects. *)
Inductive token : string -> Prop :=
| TNull : token "null"
| TTrue : token "true"
| TFalse : token "false"
| TNumber (n : Z) : token (Z_to_string n)
| TString (s : string) : token (QuoteJSONString s).

(** A member of an object text: the quoted name, a colon, the value. *)
Definition memberText (p : string * string) : string :=
  QuoteJSONString (fst p) +++ ":" +++ snd p.

(** What follows the first member of an object text. *)
Definition membersTail (ps : list (string * string)) : string :=
  match ps with
  | [] => "}"
  | _ :: _ => "," +++ join "," (map memberText ps) +++ "}"
  end.

End JsonText.

Module KeyNotions.
Import Js.

(** A key value that is a string, a number (a safe integer) or a boolean. *)
Definition isPlain (v : value) : bool :=
  match v with
  | VString _ | VBool _ => true
  | VNumber n => isSafeInteger n
  | _ => false
  end.

(** A column value that is a string, a number, a boolean or [null]. *)
Definition isPlainOrNull (v : value) : bool :=
  match v with
  | VNull => true
  | _ => isPlain v
  end.

(** A row of such values. *)
Definition plainRow (row : obj) : bool :=
  forallb (fun kv => isPlainOrNull (snd kv)) row.

(** A field name under which a row reads nothing but a column of its own:
    no member of [Object.prototype] has that name. *)
Definition columnName (k : string) : bool :=
  negb (String.eqb k "__proto__")
  && match inherited k with
     | Some _ => false
     | None => true
     end.

(** A field name the two-argument extractor accepts as a key: [pk], or a
    name that ends in [id] whatever the case of its letters. *)
Definition idLike (key : string) : bool :=
  String.eqb key "pk" || endsWith (toLowerCase key) "id".

(** A row in which no field with a value has an id-like name. *)
Definition keyless (row : obj) : bool :=
  forallb (fun key => negb (idLike key) || isNullish (get row key)) (keys row).

Section WithHost.
Context {host : Host}.

(** The fields of an object with the JSON texts of their values, without the
    fields that the serializer leaves out. *)
Definition textsOf (o : obj) : list (string * string) :=
  flat_map (fun kv => match PrimaryKey.scalarJSON (snd kv) with
                      | Some s => [(fst kv, s)]
                      | None => []
                      end) o.

End WithHost.
End KeyNotions.

(** Records in which no object occurs twice. *)
Module Unshared.
Import Js.

Section WithHost.
Context {host : Host}.

(** The replacer of [safeStringifyForPK] without its [WeakSet]: only its
    branches for big integers and dates. *)
Definition plainReplacer (st : unit) (key : string) (value : value)
  : outcome (Js.value * unit) :=
  match value with
  | VBigInt n => Returns (VString (Z_to_string n), tt)
  | VDate (Some t) => Returns (VString (dateToISOString t), tt)
  | VDate None => Throws (RangeError "Invalid time value")
  | _ => Returns (value, tt)
  end.

End WithHost.

(** Goes through the values one after the other, from the objects met so far
    to the objects met after the last one. *)
Fixpoint visitAll (visit1 : list addr -> value -> option (list addr))
    (seen : list addr) (vs : list value) : option (list addr) :=
  match vs with
  | [] => Some seen
  | v :: rest =>
      match visit1 seen v with
      | Some seen' => visitAll visit1 seen' rest
      | None => None
      end
  end.

(** Goes through a value in the order of the serializer and gives the
    objects met; [None] when an object or array is met a second time (or is
    not allocated, or the budget is used up). *)
Fixpoint visit (h : heap) (fuel : nat) (seen : list addr) (v : value)
  : option (list addr) :=
  match v with
  | VRef a =>
      if memAddr a seen then None
      else
        match fuel with
        | O => None
        | S fuel' =>
            match nth_error h a with
            | Some (OObject fs) => visitAll (visit h fuel') (a :: seen) (map snd fs)
            | Some (OArray items) => visitAll (visit h fuel') (a :: seen) items
            | None => None
            end
        end
  | _ => Some seen
  end.

(** No object or array occurs twice in the record: neither on a cycle nor
    as a value shared by two fields. *)
Definition unshared (h : heap) (record : obj) : bool :=
  let heap' := h ++ [OObject record] in
  match visit heap' (List.length heap') [] (VRef (List.length h)) with
  | Some _ => true
  | None => false
  end.

End Unshared.

Module UpdateNotions.
Import Js Types Update.

(** An UPDATE record of the table that carries values and no metadata. *)
Definition isUpdateOf (tableName : string) (log : AuditLog) : Prop :=
  action log = "UPDATE" /\ Types.tableName log = tableName
  /\ values log <> None /\ metadata log = None.

Section WithHost.
Context {host : Host}.

(** [log] was made from [row]: it carries the primary key of the row, and
    its values are among the columns that [filterFields] leaves of the row. *)
Definition madeFrom (filterFields : obj -> string -> NormalizedConfig -> obj)
    (h : heap) (tableName : string) (config : NormalizedConfig)
    (row : obj) (log : AuditLog) : Prop :=
  PrimaryKeyHeuristic.extractPrimaryKey h row tableName = Returns (recordId log)
  /\ exists v, values log = Some v /\ incl v (filterFields row tableName config).

End WithHost.
End UpdateNotions.

Module MetadataNotions.
Import Js Metadata.

(** The value of the last entry for [key] that the loops assign, going
    through the sources in order. *)
Definition lastAssigned (sources : list (option obj)) (key : string) : option value :=
  lookup (rev (flat_map effectiveEntries sources)) key.

(** A source without its entries under the three forbidden keys. *)
Definition dropForbidden (source : option obj) : option obj :=
  option_map (filter (fun kv => negb (isForbidden (fst kv)))) source.

(** A source without its entries named [__proto__]. *)
Definition dropProto (source : option obj) : option obj :=
  option_map (filter (fun kv => negb (String.eqb (fst kv) "__proto__"))) source.

(** The value of the last entry for [key] whose value is not [undefined],
    going through the sources in order. *)
Definition lastDefined (sources : list (option obj)) (key : string) : option value :=
  lookup (rev (flat_map (fun source =>
                           match source with
                           | Some o => filter (fun kv => negb (isUndefined (snd kv))) o
                           | None => []
                           end) sources)) key.

(** A value that is neither an object nor [null]: assigned to the accessor
    [__proto__], it changes nothing. *)
Definition isPrimitive (v : value) : bool :=
  match v with
  | VUndefined | VBool _ | VNumber _ | VBigInt _ | VString _ => true
  | VNull | VDate _ | VRef _ | VNative _ => false
  end.

(** The names of a list in the order of their first occurrence. *)
Definition firstOccurrences (names : list string) : list string :=
  fold_left (fun acc name => if Types.includes acc name then acc else acc ++ [name]) names [].

End MetadataNotions.

(* ================================================================= *)
(** * Worked data *)

Module Examples.
Import Js Types.

(** A string between double quotes. *)
Definition q (s : string) : string := dquote +++ s +++ dquote.

(** Scenario 6 of the specification. *)
Definition ledgerConfig : PrimaryKey.tableConfigMap :=
  [("ledger", {| PrimaryKey.primaryKey := Some (PrimaryKey.KeyList ["orgId"; "entryId"]) |})].

Definition ledgerRow : obj :=
  [("orgId", VBigInt 9007199254740991); ("entryId", VString "e1")].

(** One object, referred to twice by a row; nothing refers back. *)
Definition sharedHeap : heap := [OObject [("x", VNumber 1)]].
Definition sharedRow : obj := [("a", VRef 0); ("b", VRef 0)].
Definition sharedOnce : obj := [("a", VRef 0)].

Definition usersConfig : PrimaryKey.tableConfigMap :=
  [("users", {| PrimaryKey.primaryKey := Some (PrimaryKey.OneKey "id") |})].

Definition config0 (mode : UpdateValuesMode) : NormalizedConfig :=
  {| tables := TableNames ["users"];
     fields := [];
     excludeFields := ["password"; "token"; "secret"; "apiKey"];
     auditTable := "audit_logs";
     updateValuesMode := mode |}.

Definition userBefore : obj :=
  [("id", VNumber 1); ("email", VString "o@x"); ("name", VString "Original");
   ("password", VString "p1")].

Definition userAfter : obj :=
  [("id", VNumber 1); ("email", VString "o@x"); ("name", VString "Updated");
   ("password", VString "p2")].

Definition userNew : obj :=
  [("id", VNumber 2); ("email", VString "n@x"); ("name", VString "New")].

Definition emptyIdRow : obj := [("id", VString EmptyString); ("email", VString "a@x")].

(** A table whose configured key field has the name of a member of
    [Object.prototype], and a row without a column of that name. *)
Definition buildersConfig : PrimaryKey.tableConfigMap :=
  [("builders", {| PrimaryKey.primaryKey := Some (PrimaryKey.OneKey "constructor") |})].

Definition builderRow : obj := [("name", VString "b1")].

(** A row that lost a column in the update. *)
Definition noteBefore : obj := [("id", VNumber 1); ("note", VString "x")].
Definition noteAfter : obj := [("id", VNumber 1)].

(** A host that lets three calls nest, and a row that holds an object in an
    object. *)
Definition shallowHost : Host :=
  {| dateToString := fun _ => "Thu Jan 01 1970 00:00:00 GMT+0000 (Coordinated Universal Time)";
     dateToISOString := fun _ => "1970-01-01T00:00:00.000Z";
     toStringDepth := 3;
     stringifyDepth := 3;
     stringifyDepth_min := eq_refl |}.

Definition nestedHeap : heap := [OObject [("y", VNumber 1)]; OObject [("x", VRef 0)]].
Definition nestedRow : obj := [("a", VRef 1); ("b", VNumber 2)].

(** A logger over collaborators without state; the audit table is the
    default one. *)
Definition exampleLogger : Logger.AuditLogger unit unit :=
  Logger.mkLogger unit unit (config0 changed) tt tt.

End Examples.

(** Data for the further properties. *)
Module Cases.
Import Js Types Examples.

(** A table with a key of two fields, and two rows that agree on them. *)
Definition ordersConfig : PrimaryKey.tableConfigMap :=
  [("orders", {| PrimaryKey.primaryKey := Some (PrimaryKey.KeyList ["tenant"; "number"]) |})].

Definition order : obj :=
  [("tenant", VString "acme"); ("number", VNumber 7); ("note", VString "first")].

Definition orderAgain : obj :=
  [("number", VNumber 7); ("tenant", VString "acme")].

(** A table whose key is a list of one field, and one whose key is the
    empty list. *)
Definition itemsConfig : PrimaryKey.tableConfigMap :=
  [("items", {| PrimaryKey.primaryKey := Some (PrimaryKey.KeyList ["sku"]) |})].

Definition tagsConfig : PrimaryKey.tableConfigMap :=
  [("tags", {| PrimaryKey.primaryKey := Some (PrimaryKey.KeyList []) |})].

Definition item : obj := [("sku", VString "A-1"); ("price", VNumber 3)].

(** A row whose only id-like field is no identifier. *)
Definition invoice : obj := [("customer", VString "c1"); ("paid", VBool true)].

(** A table without id-like columns, and a row of it before and after a
    change. *)
Definition stockBefore : obj := [("name", VString "bolt"); ("quantity", VNumber 1)].
Definition stockAfter : obj := [("name", VString "bolt"); ("quantity", VNumber 2)].

(** The record of the UPDATE scenario in changed mode. *)
Definition nameUpdated : AuditLog :=
  {| action := "UPDATE"; tableName := "users"; recordId := "1";
     values := Some [("name", VString "Updated")]; metadata := None |}.

(** A configuration that names its audit table and nothing else. *)
Definition givenConfig : Setup.Given.AuditConfig :=
  {| Setup.Given.tables := AllTables;
     Setup.Given.fields := None;
     Setup.Given.excludeFields := None;
     Setup.Given.auditTable := Some "audit_trail";
     Setup.Given.strictMode := None;
     Setup.Given.getUserId := None;
     Setup.Given.getMetadata := None |}.

End Cases.

(* ================================================================= *)
(** * Proof automation *)

(** Shows that each row of a given list has a primary key, by evaluation. *)
Ltac keyed_rows :=
  let row := fresh "row" in
  let Hin := fresh "Hin" in
  intros row Hin;
  repeat (destruct Hin as [Hin|Hin]; [injection Hin as <-; eexists; reflexivity|]);
  destruct Hin.

(** Decides the comparisons [a <? b] of a goal. *)
Ltac split_ltb :=
  repeat match goal with
         | |- context [(?a <? ?b)%N] => destruct (N.ltb_spec a b)
         end.

(* ================================================================= *)
(** * Properties *)

Import Js Types Examples.


Section ObjectFacts.

Lemma lookup_replaceValue k v o k' :
  lookup (replaceValue k v o) k' =
    if String.eqb k k' then (match lookup o k with Some _ => Some v | None => None end)
    else lookup o k'.
Proof.
  induction o as [|[k0 v0] o IH]; simpl.
  - destruct (String.eqb k k'); reflexivity.
  - destruct (String.eqb k0 k) eqn:E0.
    + apply String.eqb_eq in E0; subst k0. simpl.
      destruct (String.eqb k k'); reflexivity.
    + simpl. destruct (String.eqb k0 k') eqn:E1.
      * apply String.eqb_eq in E1; subst k0.
        rewrite String.eqb_sym, E0. reflexivity.
      * exact IH.
Qed.

Lemma lookup_insertIndex n k v o k' :
  lookup o k = None ->
  lookup (insertIndex n k v o) k' = if String.eqb k k' then Some v else lookup o k'.
Proof.
  induction o as [|[k0 v0] o IH]; simpl; intros Hk.
  - reflexivity.
  - destruct (String.eqb k0 k) eqn:E0; [discriminate|].
    destruct (arrayIndex k0) as [m|].
    + destruct (m <? n)%N; simpl.
      * destruct (String.eqb k0 k') eqn:E1.
        -- apply String.eqb_eq in E1; subst k0. rewrite String.eqb_sym, E0. reflexivity.
        -- apply IH, Hk.
      * destruct (String.eqb k k'); reflexivity.
    + simpl. destruct (String.eqb k k'); reflexivity.
Qed.

Lemma lookup_app (o1 o2 : obj) k :
  lookup (o1 ++ o2) k = match lookup o1 k with Some v => Some v | None => lookup o2 k end.
Proof.
  induction o1 as [|[k0 v0] o1 IH]; simpl; [reflexivity|].
  destruct (String.eqb k0 k); [reflexivity|exact IH].
Qed.

(** Reading a property after an assignment. *)
Lemma lookup_set k v o k' :
  lookup (set k v o) k' = if String.eqb k k' then Some v else lookup o k'.
Proof.
  unfold set, has. destruct (lookup o k) eqn:Hk.
  - rewrite lookup_replaceValue, Hk. reflexivity.
  - destruct (arrayIndex k).
    + apply lookup_insertIndex, Hk.
    + rewrite lookup_app. simpl.
      destruct (String.eqb k k') eqn:E.
      * apply String.eqb_eq in E; subst k'. rewrite Hk. reflexivity.
      * destruct (lookup o k'); reflexivity.
Qed.

Lemma lookup_In (o : obj) k v : lookup o k = Some v -> In (k, v) o.
Proof.
  induction o as [|[k0 v0] o IH]; simpl; [discriminate|].
  destruct (String.eqb k0 k) eqn:E.
  - apply String.eqb_eq in E; subst. intros [= ->]. now left.
  - intros H. right. apply IH, H.
Qed.

Lemma lookup_None_keys (o : obj) k : lookup o k = None <-> ~ In k (keys o).
Proof.
  induction o as [|[k0 v0] o IH]; simpl.
  - split; [intros _ []|reflexivity].
  - destruct (String.eqb k0 k) eqn:E.
    + apply String.eqb_eq in E; subst. split; [discriminate|]. intros H; exfalso; apply H; now left.
    + apply String.eqb_neq in E. rewrite IH. split.
      * intros H [H1|H1]; [now apply E|now apply H].
      * intros H H1. apply H. now right.
Qed.

Lemma lookup_Some_keys (o : obj) k v : lookup o k = Some v -> In k (keys o).
Proof.
  intros H. apply lookup_In in H. unfold keys. now apply (in_map fst) in H.
Qed.

Lemma In_lookup_NoDup (o : obj) k v :
  NoDup (keys o) -> In (k, v) o -> lookup o k = Some v.
Proof.
  induction o as [|[k0 v0] o IH]; simpl; [intros _ []|].
  intros Hnd [H|H]; inversion Hnd as [|? ? Hni Hnd']; subst.
  - injection H as -> ->. now rewrite String.eqb_refl.
  - destruct (String.eqb k0 k) eqn:E.
    + apply String.eqb_eq in E; subst. exfalso. apply Hni.
      now apply (in_map fst) in H.
    + now apply IH.
Qed.

Lemma set_not_nil k v o : set k v o <> [].
Proof.
  intros H. assert (L : lookup (set k v o) k = Some v).
  { rewrite lookup_set, String.eqb_refl. reflexivity. }
  rewrite H in L. discriminate.
Qed.

Lemma keys_replaceValue k v o : keys (replaceValue k v o) = keys o.
Proof.
  induction o as [|[k0 v0] o IH]; simpl; [reflexivity|].
  destruct (String.eqb k0 k); simpl; [reflexivity|now rewrite IH].
Qed.

Lemma In_keys_insertIndex n k v o k' :
  In k' (keys (insertIndex n k v o)) <-> k' = k \/ In k' (keys o).
Proof.
  induction o as [|[k0 v0] o IH]; simpl.
  - intuition.
  - destruct (arrayIndex k0) as [m|]; [destruct (m <? n)%N|]; simpl; rewrite ?IH; intuition.
Qed.

Lemma NoDup_keys_insertIndex n k v o :
  ~ In k (keys o) -> NoDup (keys o) -> NoDup (keys (insertIndex n k v o)).
Proof.
  induction o as [|[k0 v0] o IH]; simpl; intros Hni Hnd.
  - constructor; [intros []|constructor].
  - inversion Hnd as [|? ? Hn0 Hnd']; subst.
    assert (Hcons : NoDup (k :: k0 :: keys o)).
    { constructor; [exact Hni|exact Hnd]. }
    destruct (arrayIndex k0) as [m|]; [destruct (m <? n)%N|]; simpl; try exact Hcons.
    constructor.
    + rewrite In_keys_insertIndex. intros [->|H]; [apply Hni; now left|now apply Hn0].
    + apply IH; [intros H; apply Hni; now right|exact Hnd'].
Qed.

(** Assignment keeps property names distinct. *)
Lemma NoDup_keys_set k v o : NoDup (keys o) -> NoDup (keys (set k v o)).
Proof.
  intros Hnd. unfold set, has. destruct (lookup o k) eqn:Hk.
  - now rewrite keys_replaceValue.
  - apply lookup_None_keys in Hk. destruct (arrayIndex k).
    + now apply NoDup_keys_insertIndex.
    + unfold keys. rewrite map_app. simpl. apply NoDup_app; fold (keys o).
      * exact Hnd.
      * constructor; [intros []|constructor].
      * intros x Hx [<-|[]]. now apply Hk.
Qed.

End ObjectFacts.

Section MetadataFacts.
Import Metadata.

Lemma mergeEntries_assignAll es : forall acc,
  mergeEntries acc es = assignAll acc (filter isEffective es).
Proof.
  induction es as [|[k v] es IH]; intros acc; simpl; [reflexivity|].
  unfold isEffective at 1; simpl.
  destruct (isForbidden k); simpl; [apply IH|].
  destruct (isUndefined v); simpl; apply IH.
Qed.

Lemma assignAll_app acc l1 l2 : assignAll acc (l1 ++ l2) = assignAll (assignAll acc l1) l2.
Proof. apply fold_left_app. Qed.

Lemma mergeSources_assignAll sources : forall acc,
  mergeSources acc sources = assignAll acc (flat_map effectiveEntries sources).
Proof.
  induction sources as [|[s|] sources IH]; intros acc; simpl.
  - reflexivity.
  - rewrite IH, mergeEntries_assignAll, assignAll_app. reflexivity.
  - apply IH.
Qed.

Lemma lookup_assignAll l : forall acc k,
  lookup (assignAll acc l) k =
    match lookup (rev l) k with Some v => Some v | None => lookup acc k end.
Proof.
  induction l as [|[k0 v0] l IH]; intros acc k; simpl; [reflexivity|].
  change (fold_left _ l ?a) with (assignAll a l).
  rewrite IH, lookup_app. destruct (lookup (rev l) k); [reflexivity|].
  simpl. rewrite lookup_set. destruct (String.eqb k0 k); reflexivity.
Qed.

Lemma assignAll_nil l : forall acc, assignAll acc l = [] <-> acc = [] /\ l = [].
Proof.
  induction l as [|[k0 v0] l IH]; intros acc; simpl.
  - intuition.
  - change (fold_left _ l ?a) with (assignAll a l). rewrite IH. split.
    + intros [H _]. now apply set_not_nil in H.
    + intros [_ H]. discriminate.
Qed.

Lemma NoDup_keys_assignAll l : forall acc,
  NoDup (keys acc) -> NoDup (keys (assignAll acc l)).
Proof.
  induction l as [|[k0 v0] l IH]; intros acc H; simpl; [exact H|].
  apply IH, NoDup_keys_set, H.
Qed.

Lemma lookup_rev_NoDup (o : obj) k : NoDup (keys o) -> lookup (rev o) k = lookup o k.
Proof.
  intros Hnd.
  assert (Hnd' : NoDup (keys (rev o))).
  { unfold keys. rewrite map_rev. apply NoDup_rev, Hnd. }
  destruct (lookup o k) eqn:E.
  - apply In_lookup_NoDup; [exact Hnd'|]. apply in_rev. rewrite rev_involutive.
    now apply lookup_In.
  - apply lookup_None_keys. apply lookup_None_keys in E. intros H. apply E.
    unfold keys in *. rewrite map_rev in H. now apply in_rev in H.
Qed.

Lemma finish_Some merged r : finish merged = Some r -> r = merged /\ merged <> [].
Proof.
  unfold finish. destruct merged; simpl; [discriminate|]. intros [= <-]. split; [reflexivity|discriminate].
Qed.

Lemma finish_None merged : finish merged = None <-> merged = [].
Proof.
  unfold finish. destruct merged; simpl; split; try reflexivity; discriminate.
Qed.

Lemma mergeMetadata_finish sources :
  mergeMetadata sources = finish (assignAll [] (flat_map effectiveEntries sources)).
Proof. unfold mergeMetadata, finish. rewrite mergeSources_assignAll. reflexivity. Qed.

Lemma In_replaceValue k v o kv : In kv (replaceValue k v o) -> kv = (k, v) \/ In kv o.
Proof.
  induction o as [|[k0 v0] o IH]; simpl; [intros []|].
  destruct (String.eqb k0 k) eqn:E; simpl.
  - apply String.eqb_eq in E; subst. intuition.
  - intuition.
Qed.

Lemma In_insertIndex n k v o kv : In kv (insertIndex n k v o) -> kv = (k, v) \/ In kv o.
Proof.
  induction o as [|[k0 v0] o IH]; simpl; [intuition|].
  destruct (arrayIndex k0) as [m|]; [destruct (m <? n)%N|]; simpl; intuition.
Qed.

Lemma In_set k v o kv : In kv (set k v o) -> kv = (k, v) \/ In kv o.
Proof.
  unfold set. destruct (has o k).
  - apply In_replaceValue.
  - destruct (arrayIndex k).
    + apply In_insertIndex.
    + rewrite in_app_iff. simpl. intuition.
Qed.

Lemma In_assignAll l : forall acc kv, In kv (assignAll acc l) -> In kv acc \/ In kv l.
Proof.
  induction l as [|[k0 v0] l IH]; intros acc kv; simpl; [intuition|].
  intros H. apply IH in H. destruct H as [H|H]; [|intuition].
  apply In_set in H. simpl in H. intuition.
Qed.

Lemma filter_id {A} (f : A -> bool) l : (forall x, In x l -> f x = true) -> filter f l = l.
Proof.
  induction l as [|x l IH]; simpl; intros H; [reflexivity|].
  rewrite (H x (or_introl eq_refl)), IH; [reflexivity|]. intros y Hy. apply H. now right.
Qed.

(** What a merge contributes when it is passed on as a source. *)
Lemma effectiveEntries_finish l :
  (forall kv, In kv l -> isEffective kv = true) ->
  effectiveEntries (finish (assignAll [] l)) = assignAll [] l.
Proof.
  intros H.
  assert (Hall : filter isEffective (assignAll [] l) = assignAll [] l).
  { apply filter_id. intros kv Hkv. apply In_assignAll in Hkv.
    destruct Hkv as [[]|Hkv]. now apply H. }
  unfold finish. destruct (assignAll [] l) eqn:E; [reflexivity|exact Hall].
Qed.

Lemma effective_all sources kv :
  In kv (flat_map effectiveEntries sources) -> isEffective kv = true.
Proof.
  rewrite in_flat_map. intros [[s|] [_ H]]; simpl in H; [|destruct H].
  now apply filter_In in H.
Qed.

Lemma flat_map_nil {A B} (f : A -> list B) l :
  flat_map f l = [] <-> forall x, In x l -> f x = [].
Proof.
  induction l as [|x l IH]; simpl.
  - intuition.
  - split.
    + intros H. apply app_eq_nil in H. destruct H as [H1 H2].
      intros y [<-|Hy]; [exact H1|]. now apply IH.
    + intros H. rewrite (H x (or_introl eq_refl)). simpl. apply IH. intros y Hy. apply H. now right.
Qed.

Lemma NoDup_keys_filter (f : string * value -> bool) (o : obj) :
  NoDup (keys o) -> NoDup (keys (filter f o)).
Proof.
  induction o as [|[k v] o IH]; simpl; intros H; [constructor|].
  inversion H as [|? ? Hni Hnd]; subst.
  destruct (f (k, v)); simpl; [|now apply IH].
  constructor; [|now apply IH]. intros Hin. apply Hni.
  unfold keys in *. apply in_map_iff in Hin. destruct Hin as [[k' v'] [<- Hin]].
  apply filter_In in Hin. destruct Hin as [Hin _]. now apply (in_map fst) in Hin.
Qed.

Lemma effectiveEntries_dropUndefined s :
  effectiveEntries (dropUndefined s) = effectiveEntries s.
Proof.
  destruct s as [o|]; simpl; [|reflexivity].
  induction o as [|[k v] o IH]; simpl; [reflexivity|].
  unfold isEffective at 2. simpl. destruct (isUndefined v) eqn:E; simpl.
  - rewrite andb_false_r. exact IH.
  - unfold isEffective at 1. simpl. rewrite E.
    destruct (isForbidden k); simpl; [exact IH|]. now rewrite IH.
Qed.

Lemma arrayIndex_inj k k' n :
  arrayIndex k = Some n -> arrayIndex k' = Some n -> k = k'.
Proof.
  unfold arrayIndex.
  destruct (NilZero.uint_of_string k) as [d|]; [|discriminate].
  destruct (NilZero.uint_of_string k') as [d'|]; [|discriminate].
  cbv zeta.
  destruct (String.eqb _ k) eqn:E; simpl; [|discriminate].
  destruct (N.ltb _ _); [|discriminate]. intros [= <-].
  destruct (String.eqb _ k') eqn:E'; simpl; [|discriminate].
  destruct (N.ltb _ _); [|discriminate]. intros [= H].
  apply String.eqb_eq in E, E'. rewrite H in E'. congruence.
Qed.

Lemma has_lookup o k : has o k = true <-> lookup o k <> None.
Proof. unfold has. destruct (lookup o k); split; congruence. Qed.

Lemma replaceValue_comm k v k2 v2 o :
  k <> k2 ->
  replaceValue k2 v2 (replaceValue k v o) = replaceValue k v (replaceValue k2 v2 o).
Proof.
  intros Hne. induction o as [|[k0 v0] o IH]; simpl; [reflexivity|].
  destruct (String.eqb k0 k) eqn:E; destruct (String.eqb k0 k2) eqn:E2; simpl;
    rewrite ?E, ?E2; try reflexivity.
  - apply String.eqb_eq in E, E2. congruence.
  - now rewrite IH.
Qed.

Lemma replaceValue_twice k v v0 o :
  replaceValue k v (replaceValue k v0 o) = replaceValue k v o.
Proof.
  induction o as [|[k0 w] o IH]; simpl; [reflexivity|].
  destruct (String.eqb k0 k) eqn:E; simpl; rewrite E; [reflexivity|now rewrite IH].
Qed.

Lemma replaceValue_app k v o x :
  lookup o k <> None -> replaceValue k v (o ++ [x]) = replaceValue k v o ++ [x].
Proof.
  induction o as [|[k0 v0] o IH]; simpl; [congruence|].
  destruct (String.eqb k0 k); [reflexivity|]. intros H. now rewrite IH.
Qed.

Lemma replaceValue_insertIndex k v n k2 v2 o :
  k <> k2 ->
  replaceValue k v (insertIndex n k2 v2 o) = insertIndex n k2 v2 (replaceValue k v o).
Proof.
  intros Hne. apply not_eq_sym, String.eqb_neq in Hne.
  induction o as [|[k0 v0] o IH]; simpl.
  - now rewrite Hne.
  - destruct (String.eqb k0 k) eqn:E; simpl.
    + destruct (arrayIndex k0) as [m|]; [destruct (m <? n)%N|]; simpl; now rewrite ?Hne, ?E.
    + destruct (arrayIndex k0) as [m|]; [destruct (m <? n)%N|]; simpl; rewrite ?Hne, ?E;
        try reflexivity. now rewrite IH.
Qed.

Lemma replaceValue_inserted k v v0 n o :
  lookup o k = None ->
  replaceValue k v (insertIndex n k v0 o) = insertIndex n k v o.
Proof.
  induction o as [|[k0 w] o IH]; simpl; intros Hk.
  - now rewrite String.eqb_refl.
  - destruct (String.eqb k0 k) eqn:E; [discriminate|].
    destruct (arrayIndex k0) as [m|]; [destruct (m <? n)%N|]; simpl;
      rewrite ?E, ?String.eqb_refl; try reflexivity. now rewrite IH.
Qed.

Lemma replaceValue_appended k v v0 o :
  lookup o k = None -> replaceValue k v (o ++ [(k, v0)]) = o ++ [(k, v)].
Proof.
  induction o as [|[k0 w] o IH]; simpl; intros Hk.
  - now rewrite String.eqb_refl.
  - destruct (String.eqb k0 k); [discriminate|]. now rewrite IH.
Qed.

(** Assigning twice to a name is assigning the second value. *)
Lemma set_twice k v v0 o : set k v (set k v0 o) = set k v o.
Proof.
  assert (Hh : has (set k v0 o) k = true).
  { unfold has. now rewrite lookup_set, String.eqb_refl. }
  unfold set at 1. rewrite Hh. unfold set. unfold has. destruct (lookup o k) eqn:Hk.
  - apply replaceValue_twice.
  - destruct (arrayIndex k).
    + now apply replaceValue_inserted.
    + now apply replaceValue_appended.
Qed.

Lemma insertIndex_app n k v o x :
  arrayIndex (fst x) = None ->
  insertIndex n k v (o ++ [x]) = insertIndex n k v o ++ [x].
Proof.
  intros Hx. induction o as [|[k0 v0] o IH]; simpl.
  - destruct x as [kx vx]. simpl in Hx. now rewrite Hx.
  - destruct (arrayIndex k0) as [m|]; [destruct (m <? n)%N|]; simpl; try reflexivity.
    now rewrite IH.
Qed.

Lemma insertIndex_comm n k v n2 k2 v2 o :
  arrayIndex k = Some n -> arrayIndex k2 = Some n2 -> n <> n2 ->
  insertIndex n2 k2 v2 (insertIndex n k v o) = insertIndex n k v (insertIndex n2 k2 v2 o).
Proof.
  intros Hk Hk2 Hne. induction o as [|[k0 v0] o IH].
  - simpl. rewrite Hk, Hk2. split_ltb; try reflexivity; lia.
  - simpl. destruct (arrayIndex k0) as [m|] eqn:E0.
    + destruct (N.ltb_spec m n); destruct (N.ltb_spec m n2); simpl;
        rewrite ?Hk, ?Hk2, ?E0; split_ltb; try lia; try reflexivity.
      now rewrite IH.
    + simpl. rewrite Hk, Hk2. split_ltb; simpl; rewrite ?E0; try reflexivity; lia.
Qed.

(** An assignment to an array index commutes with an assignment to any other
    name. *)
Lemma set_index_comm k n v k2 v2 o :
  arrayIndex k = Some n -> k <> k2 ->
  set k2 v2 (set k v o) = set k v (set k2 v2 o).
Proof.
  intros Hk Hne.
  assert (Hh1 : has (set k v o) k2 = has o k2).
  { unfold has. rewrite lookup_set. apply String.eqb_neq in Hne. now rewrite Hne. }
  assert (Hh2 : has (set k2 v2 o) k = has o k).
  { unfold has. rewrite lookup_set. apply not_eq_sym, String.eqb_neq in Hne. now rewrite Hne. }
  unfold set at 1 3. rewrite Hh1, Hh2. unfold set. rewrite Hk.
  destruct (has o k) eqn:Ek; destruct (has o k2) eqn:Ek2.
  - now apply replaceValue_comm.
  - destruct (arrayIndex k2) as [n2|] eqn:Hk2.
    + symmetry. now apply replaceValue_insertIndex.
    + symmetry. apply replaceValue_app. now apply has_lookup.
  - apply replaceValue_insertIndex. auto.
  - destruct (arrayIndex k2) as [n2|] eqn:Hk2.
    + apply insertIndex_comm; auto. intros ->. apply Hne.
      eapply arrayIndex_inj; eauto.
    + symmetry. now apply insertIndex_app.
Qed.

(** An assignment to a name the object has commutes with an assignment to
    any other name. *)
Lemma set_present_comm k v k2 v2 o :
  has o k = true -> k <> k2 ->
  set k2 v2 (set k v o) = set k v (set k2 v2 o).
Proof.
  intros Ek Hne.
  assert (Hh1 : has (set k v o) k2 = has o k2).
  { unfold has. rewrite lookup_set. apply String.eqb_neq in Hne. now rewrite Hne. }
  assert (Hh2 : has (set k2 v2 o) k = true).
  { unfold has in *. rewrite lookup_set. apply not_eq_sym, String.eqb_neq in Hne.
    now rewrite Hne. }
  unfold set at 1 3. rewrite Hh1, Hh2. unfold set. rewrite Ek.
  destruct (has o k2) eqn:Ek2.
  - now apply replaceValue_comm.
  - destruct (arrayIndex k2) as [n2|] eqn:Hk2.
    + symmetry. now apply replaceValue_insertIndex.
    + symmetry. apply replaceValue_app. now apply has_lookup.
Qed.

(** When the name is an index or already present, its assignment can be
    moved behind a run of assignments to other names. *)
Lemma assignAll_set_comm k v l : forall o,
  (arrayIndex k <> None \/ has o k = true) ->
  ~ In k (keys l) ->
  assignAll (set k v o) l = set k v (assignAll o l).
Proof.
  induction l as [|[k2 v2] l IH]; intros o Hk Hni; simpl; [reflexivity|].
  change (fold_left _ l ?a) with (assignAll a l).
  assert (Hne : k <> k2) by (intros ->; apply Hni; now left).
  assert (Hni' : ~ In k (keys l)) by (intros H; apply Hni; now right).
  assert (Hc : set k2 v2 (set k v o) = set k v (set k2 v2 o)).
  { destruct (has o k) eqn:Ek.
    - now apply set_present_comm.
    - destruct Hk as [Hk|Hk]; [|discriminate].
      destruct (arrayIndex k) as [n|] eqn:En; [|congruence].
      eapply set_index_comm; eauto. }
  simpl. rewrite Hc. apply IH; [|exact Hni'].
  destruct Hk as [Hk|Hk]; [now left|right].
  unfold has in *. rewrite lookup_set.
  destruct (String.eqb k2 k); [reflexivity|exact Hk].
Qed.

Lemma assignAll_insertIndex k n v M : forall acc,
  arrayIndex k = Some n -> ~ In k (keys M) ->
  assignAll acc (insertIndex n k v M) = set k v (assignAll acc M).
Proof.
  intros acc Hk. revert acc.
  induction M as [|[k0 v0] M IH]; intros acc Hni; [reflexivity|].
  assert (Hcomm : assignAll (set k v acc) ((k0, v0) :: M)
                  = set k v (assignAll acc ((k0, v0) :: M))).
  { apply assignAll_set_comm; [left; congruence|exact Hni]. }
  cbn [insertIndex].
  destruct (arrayIndex k0) as [m|]; [destruct (m <? n)%N|]; try exact Hcomm.
  cbn [assignAll fold_left fst snd].
  change (fold_left _ ?l ?a) with (assignAll a l).
  apply IH. intros H. apply Hni. now right.
Qed.

Lemma assignAll_replaceValue k v M : forall acc,
  NoDup (keys M) -> has M k = true ->
  assignAll acc (replaceValue k v M) = set k v (assignAll acc M).
Proof.
  induction M as [|[k0 v0] M IH]; intros acc Hnd Hk; [discriminate|].
  inversion Hnd as [|? ? Hni Hnd']; subst.
  unfold has in Hk. cbn [replaceValue lookup] in *.
  destruct (String.eqb k0 k) eqn:E.
  - apply String.eqb_eq in E. subst k0.
    cbn [assignAll fold_left fst snd].
    change (fold_left _ ?l ?a) with (assignAll a l).
    rewrite <- (set_twice k v v0 acc).
    apply assignAll_set_comm; [|exact Hni].
    right. unfold has. now rewrite lookup_set, String.eqb_refl.
  - cbn [assignAll fold_left fst snd].
    change (fold_left _ ?l ?a) with (assignAll a l).
    apply IH; [exact Hnd'|exact Hk].
Qed.

Lemma assignAll_set k v M acc :
  NoDup (keys M) ->
  assignAll acc (set k v M) = set k v (assignAll acc M).
Proof.
  intros Hnd. unfold set at 1. destruct (has M k) eqn:Ek.
  - now apply assignAll_replaceValue.
  - destruct (arrayIndex k) as [n|] eqn:En.
    + apply assignAll_insertIndex; [exact En|].
      apply lookup_None_keys. unfold has in Ek. now destruct (lookup M k).
    + now rewrite assignAll_app.
Qed.

(** Assigning the entries of an object built by assignments rebuilds it:
    passing a merge on as a source is passing on its sources. *)
Lemma assignAll_rebuild l : forall acc,
  assignAll acc (assignAll [] l) = assignAll acc l.
Proof.
  induction l as [|[k v] l IH] using rev_ind; intros acc; [reflexivity|].
  rewrite !assignAll_app. cbn [assignAll fold_left fst snd].
  change (fold_left _ ?l ?a) with (assignAll a l).
  rewrite assignAll_set by (apply NoDup_keys_assignAll; constructor).
  now rewrite IH.
Qed.

Lemma mergeMetadata_nested_eq xs ys zs :
  mergeMetadata (xs ++ mergeMetadata ys :: zs) = mergeMetadata (xs ++ ys ++ zs).
Proof.
  rewrite (mergeMetadata_finish (xs ++ _ :: zs)), (mergeMetadata_finish (xs ++ ys ++ zs)).
  f_equal. rewrite !flat_map_app. cbn [flat_map]. rewrite !assignAll_app.
  rewrite mergeMetadata_finish, effectiveEntries_finish by apply effective_all.
  now rewrite assignAll_rebuild.
Qed.

(** C6.  Whatever the sources are, the object returned by [mergeMetadata]
    has none of the keys [__proto__], [constructor] and [prototype]. *)
Theorem mergeMetadata_drops_forbidden_keys :
  forall sources merged,
    mergeMetadata sources = Some merged ->
    ~ In "__proto__" (keys merged)
    /\ ~ In "constructor" (keys merged)
    /\ ~ In "prototype" (keys merged).
Proof.
  intros sources merged Hm.
  rewrite mergeMetadata_finish in Hm. apply finish_Some in Hm. destruct Hm as [-> _].
  assert (H : forall key, isForbidden key = true ->
                ~ In key (keys (assignAll [] (flat_map effectiveEntries sources)))).
  { intros key Hf Hin. unfold keys in Hin. apply in_map_iff in Hin.
    destruct Hin as [[k v] [Hk Hin]]. simpl in Hk; subst k.
    apply In_assignAll in Hin. destruct Hin as [[]|Hin].
    apply effective_all in Hin. unfold isEffective in Hin. simpl in Hin.
    rewrite Hf in Hin. discriminate. }
  repeat split; apply H; reflexivity.
Qed.

(** C7.  [mergeMetadata] is associative: a merge passed on as a source, at
    any position, gives the same result as the flat merge, so the two ways
    of nesting three sources agree.  It is
    right-biased: the value a key has in a source wins over all earlier
    sources when no later source defines that key.  Entries whose value is
    [undefined] are ignored and never appear in the result.  The result is
    [null] exactly when no source has an entry left after the forbidden keys
    and the undefined values are removed. *)
Theorem mergeMetadata_laws :
  (* associative *)
  (forall xs ys zs,
      mergeMetadata (xs ++ mergeMetadata ys :: zs) = mergeMetadata (xs ++ ys ++ zs))
  /\ (forall a b c,
        mergeMetadata [mergeMetadata [a; b]; c] = mergeMetadata [a; mergeMetadata [b; c]])
  (* right-biased *)
  /\ (forall xs source ys key v,
        NoDup (keys source) ->
        In (key, v) source ->
        isForbidden key = false ->
        v <> VUndefined ->
        (forall later v', In (Some later) ys -> In (key, v') later -> v' = VUndefined) ->
        exists merged,
          mergeMetadata (xs ++ Some source :: ys) = Some merged
          /\ lookup merged key = Some v)
  (* undefined entries are ignored *)
  /\ (forall sources,
        mergeMetadata (map dropUndefined sources) = mergeMetadata sources)
  /\ (forall sources merged key,
        mergeMetadata sources = Some merged -> lookup merged key <> Some VUndefined)
  (* null exactly when nothing effective is left *)
  /\ (forall sources,
        mergeMetadata sources = None <->
        (forall source, In source sources -> effectiveEntries source = [])).
Proof.
  split; [exact mergeMetadata_nested_eq|]. split; [|repeat split].
  - intros a b c.
    transitivity (mergeMetadata [a; b; c]).
    + exact (mergeMetadata_nested_eq [] [a; b] [c]).
    + symmetry. exact (mergeMetadata_nested_eq [a] [b; c] []).
  - intros xs source ys key v Hnd Hin Hf Hv Hlater.
    assert (L : lookup (assignAll [] (flat_map effectiveEntries (xs ++ Some source :: ys))) key
                = Some v).
    { rewrite flat_map_app. simpl. rewrite lookup_assignAll, !rev_app_distr, !lookup_app.
      assert (L1 : lookup (rev (flat_map effectiveEntries ys)) key = None).
      { apply lookup_None_keys. intros H. unfold keys in H. rewrite map_rev in H.
        apply in_rev in H. apply in_map_iff in H. destruct H as [[k' v'] [Hk H]].
        simpl in Hk; subst k'. apply in_flat_map in H. destruct H as [[later|] [Hl H]];
          simpl in H; [|destruct H].
        apply filter_In in H. destruct H as [H He].
        rewrite (Hlater later v' Hl H) in He. unfold isEffective in He. simpl in He.
        rewrite andb_false_r in He. discriminate. }
      rewrite L1.
      assert (L2 : lookup (rev (filter isEffective source)) key = Some v).
      { rewrite lookup_rev_NoDup by now apply NoDup_keys_filter.
        apply In_lookup_NoDup; [now apply NoDup_keys_filter|].
        apply filter_In. split; [exact Hin|]. unfold isEffective. simpl. rewrite Hf.
        destruct v; try reflexivity. now contradiction Hv. }
      rewrite L2. reflexivity. }
    rewrite mergeMetadata_finish. unfold finish.
    destruct (assignAll [] (flat_map effectiveEntries (xs ++ Some source :: ys))) eqn:E;
      [discriminate|]. simpl. eexists. split; [reflexivity|exact L].
  - intros sources. rewrite !mergeMetadata_finish. f_equal. f_equal.
    rewrite flat_map_concat_map, map_map, <- flat_map_concat_map.
    induction sources as [|s sources IH]; simpl; [reflexivity|].
    now rewrite effectiveEntries_dropUndefined, IH.
  - intros sources merged key Hm Hl. rewrite mergeMetadata_finish in Hm.
    apply finish_Some in Hm. destruct Hm as [-> _]. apply lookup_In in Hl.
    apply In_assignAll in Hl. destruct Hl as [[]|Hl]. apply effective_all in Hl.
    unfold isEffective in Hl. simpl in Hl. rewrite andb_false_r in Hl. discriminate.
  - intros Hm source Hin. rewrite mergeMetadata_finish in Hm. apply finish_None in Hm.
    apply assignAll_nil in Hm. destruct Hm as [_ Hm].
    now apply (proj1 (flat_map_nil _ _) Hm).
  - intros H. rewrite mergeMetadata_finish. apply finish_None. apply assignAll_nil.
    split; [reflexivity|]. now apply flat_map_nil.
Qed.

End MetadataFacts.

Section PrimaryKeyFacts.
Context {host : Host}.
Import PrimaryKey.

Lemma resolveKeys_agree r r' ks : forall acc,
  (forall k, In k ks -> get r k = get r' k) ->
  resolveKeys r ks acc = resolveKeys r' ks acc.
Proof.
  induction ks as [|k ks IH]; intros acc H; simpl; [reflexivity|].
  destruct (String.eqb k "__proto__"); [reflexivity|].
  rewrite <- (H k (or_introl eq_refl)).
  destruct (isNullish (get r k)); [reflexivity|].
  apply IH. intros k' Hk'. apply H. now right.
Qed.

(** The loop returns [null] only at a field without a value. *)
Lemma resolveKeys_None r ks : forall acc,
  resolveKeys r ks acc = Returns None -> exists k, In k ks /\ isNullish (get r k) = true.
Proof.
  induction ks as [|k ks IH]; intros acc; simpl; [discriminate|].
  destruct (String.eqb k "__proto__"); [discriminate|].
  destruct (isNullish (get r k)) eqn:E.
  - intros _. exists k. auto.
  - intros H. destruct (IH _ H) as [k' [Hin Hn]]. exists k'. auto.
Qed.

(** The loop itself throws nothing. *)
Lemma resolveKeys_no_throw r ks e : forall acc, resolveKeys r ks acc <> Throws e.
Proof.
  induction ks as [|k ks IH]; intros acc; simpl; [discriminate|].
  destruct (String.eqb k "__proto__"); [discriminate|].
  destruct (isNullish (get r k)); [discriminate|apply IH].
Qed.

(** It returns [null] at the first field without a value, when no field is
    named [__proto__]. *)
Lemma resolveKeys_nullish r ks : forall acc,
  ~ In "__proto__" ks ->
  (exists k, In k ks /\ isNullish (get r k) = true) ->
  resolveKeys r ks acc = Returns None.
Proof.
  induction ks as [|k ks IH]; intros acc Hp [k' [Hin Hn]]; simpl; [destruct Hin|].
  destruct (String.eqb k "__proto__") eqn:Ep.
  - apply String.eqb_eq in Ep. exfalso. apply Hp. now left.
  - destruct (isNullish (get r k)) eqn:E; [reflexivity|].
    apply IH; [intros H; apply Hp; now right|].
    destruct Hin as [<-|Hin]; [congruence|]. exists k'. auto.
Qed.

(** When it returns an object, every field has a value and none is named
    [__proto__]. *)
Lemma resolveKeys_Some r ks : forall acc res,
  resolveKeys r ks acc = Returns (Some res) ->
  forall k, In k ks -> k <> "__proto__" /\ isNullish (get r k) = false.
Proof.
  induction ks as [|k ks IH]; intros acc res; simpl; [intros _ k []|].
  destruct (String.eqb k "__proto__") eqn:Ep; [discriminate|].
  destruct (isNullish (get r k)) eqn:E; [discriminate|].
  intros H k' [<-|Hin].
  - split; [now apply String.eqb_neq|exact E].
  - exact (IH _ _ H k' Hin).
Qed.

(** The loop returns, with an object or with [null], when no field is named
    [__proto__]. *)
Lemma resolveKeys_returns r ks : forall acc,
  ~ In "__proto__" ks -> exists res, resolveKeys r ks acc = Returns res.
Proof.
  induction ks as [|k ks IH]; intros acc Hp; simpl; [eauto|].
  destruct (String.eqb k "__proto__") eqn:Ep.
  - apply String.eqb_eq in Ep. exfalso. apply Hp. now left.
  - destruct (isNullish (get r k)); [eauto|].
    apply IH. intros H. apply Hp. now right.
Qed.

Lemma extractConfiguredPrimaryKey_agree h r r' key :
  (forall k, In k (keysOf key) -> get r k = get r' k) ->
  extractConfiguredPrimaryKey h r key = extractConfiguredPrimaryKey h r' key.
Proof.
  intros H. unfold extractConfiguredPrimaryKey.
  rewrite (resolveKeys_agree r r' (keysOf key) [] H). reflexivity.
Qed.

Lemma extractPrimaryKey_configured h r t m :
  extractPrimaryKey h r t m =
    match configuredKey m t with
    | None => Throws (Error ("tables." +++ t +++ ".primaryKey is required"))
    | Some key =>
        configured <- extractConfiguredPrimaryKey h r key ;;
        match configured with
        | None => Throws (Error ("record missing configured primaryKey field(s) for table: " +++ t))
        | Some id => Returns id
        end
    end.
Proof.
  unfold extractPrimaryKey, configuredKey.
  destruct (assoc m t) as [entry|]; [|reflexivity].
  destruct (primaryKey entry) as [key|]; [|reflexivity].
  destruct (isMissing (Some key)); reflexivity.
Qed.

Lemma get_singleton k v : get (set k v []) k = v.
Proof. unfold get. rewrite lookup_set, String.eqb_refl. reflexivity. Qed.

Lemma ToString_native h name : ToString h (VNative name) = Returns (functionText name).
Proof. unfold ToString. destruct toStringDepth; reflexivity. Qed.

Lemma mapM_throws {A B} (f : A -> outcome B) xs e :
  mapM f xs = Throws e -> exists x, In x xs /\ f x = Throws e.
Proof.
  induction xs as [|x xs IH]; simpl; [discriminate|].
  destruct (f x) as [y|e'|] eqn:E; simpl; try discriminate.
  - destruct (mapM f xs) as [ys|e'|]; simpl; try discriminate.
    intros [= ->]. destruct (IH eq_refl) as [x' [Hin Hx']]. eauto.
  - intros [= ->]. eauto.
Qed.

(** What [String(v)] throws is a [TypeError] or a [RangeError]. *)
Lemma ToStringFuel_throws h : forall fuel stack v e,
  ToStringFuel h fuel stack v = Throws e ->
  exists message, e = TypeError message \/ e = RangeError message.
Proof.
  assert (Hobj : forall fs e, objectToString fs = Throws e ->
                   exists message, e = TypeError message \/ e = RangeError message).
  { intros fs e. unfold objectToString.
    destruct (lookup fs "toString") as [[]|]; try discriminate;
      destruct (lookup fs "valueOf") as [[]|]; try discriminate; intros [= <-]; eauto. }
  assert (Hnum : forall n e, printNumber n <> Throws e).
  { intros n e. unfold printNumber. destruct (numberToString n); discriminate. }
  induction fuel as [|fuel IH]; intros stack v e;
    (destruct v as [| |[]|n|n|s|t|a|f]; simpl; try discriminate;
     [intros H; now apply Hnum in H|]);
    (destruct (nth_error h a) as [[fs|items]|]; [apply Hobj| |discriminate]);
    (destruct (memAddr a stack); [discriminate|]).
  - intros [= <-]. eauto.
  - destruct (mapM _ items) as [parts|e'|] eqn:E; simpl; try discriminate.
    intros [= ->]. apply mapM_throws in E. destruct E as [x [_ Hx]].
    destruct (isNullish x); [discriminate|]. eapply IH, Hx.
Qed.

Lemma safeStringifyForPK_no_throw h record e : safeStringifyForPK h record <> Throws e.
Proof.
  unfold safeStringifyForPK. destruct (JSON_stringify _ _ _ _ _) as [[s|]|e'|]; discriminate.
Qed.

(** A configured field without a value makes the extractor throw. *)
Lemma extractPrimaryKey_nullish h record t m key field :
  configuredKey m t = Some key ->
  ~ In "__proto__" (keysOf key) ->
  In field (keysOf key) ->
  isNullish (get record field) = true ->
  extractPrimaryKey h record t m =
    Throws (Error ("record missing configured primaryKey field(s) for table: " +++ t)).
Proof.
  intros Hc Hp Hin Hn. rewrite extractPrimaryKey_configured, Hc.
  unfold extractConfiguredPrimaryKey.
  rewrite (resolveKeys_nullish record (keysOf key) [] Hp); [reflexivity|eauto].
Qed.

(** A key of one field gives the string form of what the row has under that
    name. *)
Lemma extractPrimaryKey_one_field h record t m key field :
  configuredKey m t = Some key ->
  keysOf key = [field] ->
  field <> "__proto__" ->
  isNullish (get record field) = false ->
  extractPrimaryKey h record t m = ToString h (get record field).
Proof.
  intros Hc Hk Hp Hn. rewrite extractPrimaryKey_configured, Hc.
  unfold extractConfiguredPrimaryKey. rewrite Hk. cbn [resolveKeys].
  apply String.eqb_neq in Hp. rewrite Hp, Hn. cbn [bind].
  rewrite get_singleton. destruct (ToString h (get record field)); reflexivity.
Qed.


End PrimaryKeyFacts.


Section LoggingFacts.
Import Logging.

(** C9.  [sanitizeError] returns [{name, message, code}] for an [Error], with
    [code] set only when it is a string; it returns a string unchanged; and
    it returns ["Unknown error"] for every other value. *)
Theorem sanitizeError_shape :
  (forall name message code,
      sanitizeError (ErrorInstance name message (VString code)) =
        inl [("name", VString name); ("message", VString message); ("code", VString code)])
  /\ (forall name message code,
        (forall s, code <> VString s) ->
        sanitizeError (ErrorInstance name message code) =
          inl [("name", VString name); ("message", VString message); ("code", VUndefined)])
  /\ (forall s, sanitizeError (Other (VString s)) = inr s)
  /\ (forall v, (forall s, v <> VString s) -> sanitizeError (Other v) = inr "Unknown error").
Proof.
  repeat split.
  - intros name message code Hc. destruct code; try reflexivity. now contradiction (Hc s).
  - intros v Hv. destruct v; try reflexivity. now contradiction (Hv s).
Qed.

End LoggingFacts.

Section LoggerFacts.
Context {host : Host}.
Import Logger.

Lemma includes_In xs s : includes xs s = true <-> In s xs.
Proof.
  unfold includes. rewrite existsb_exists. split.
  - intros [x [Hin He]]. apply String.eqb_eq in He. now subst.
  - intros H. exists s. split; [exact H|apply String.eqb_refl].
Qed.

(** C8.  [shouldAudit] is false for the audit table, true under the wildcard,
    and otherwise membership in the configured tables.  When it is false,
    [logInsert], [logUpdate] and [logDelete] return with the logger as it
    was: whatever the transforms and the writer would do, they are not
    called, and the writer is unchanged. *)
Theorem shouldAudit_gates_manual_logging :
  forall (AuditWriter AuditContextManager AuditContext : Type)
         (writeAuditLogs : AuditWriter -> list AuditLog -> option AuditContext -> outcome AuditWriter)
         (getContext : AuditContextManager -> option AuditContext)
         (createInsertAuditLogs createDeleteAuditLogs :
            heap -> string -> list (option obj) -> NormalizedConfig -> outcome (list AuditLog))
         (filterFields : obj -> string -> NormalizedConfig -> obj)
         (getChangedValues : obj -> obj -> option obj)
         (this : AuditLogger AuditWriter AuditContextManager)
         (tableName : string),
    (tableName = auditTable (config this) -> shouldAudit this tableName = false)
    /\ (tableName <> auditTable (config this) ->
        tables (config this) = AllTables ->
        shouldAudit this tableName = true)
    /\ (tableName <> auditTable (config this) ->
        forall names, tables (config this) = TableNames names ->
        (shouldAudit this tableName = true <-> In tableName names))
    /\ (shouldAudit this tableName = false ->
        forall h records before after,
          logInsert writeAuditLogs getContext createInsertAuditLogs
                    this h tableName records = Returns this
          /\ logUpdate writeAuditLogs getContext filterFields getChangedValues
                       this h tableName before after = Returns this
          /\ logDelete writeAuditLogs getContext createDeleteAuditLogs
                       this h tableName records = Returns this).
Proof.
  intros. split; [|split; [|split]].
  - intros ->. unfold shouldAudit. now rewrite String.eqb_refl.
  - intros Hne Ht. apply String.eqb_neq in Hne. unfold shouldAudit. now rewrite Hne, Ht.
  - intros Hne names Ht. apply String.eqb_neq in Hne. unfold shouldAudit.
    rewrite Hne, Ht. apply includes_In.
  - intros Hno h records before after.
    unfold logInsert, logUpdate, logDelete. rewrite Hno. simpl. repeat split.
Qed.

End LoggerFacts.

Section Traversal.
Context {host : Host}.
Import PrimaryKey.

Lemma memAddr_In a s : memAddr a s = true <-> In a s.
Proof.
  unfold memAddr. rewrite existsb_exists. split.
  - intros [x [Hin He]]. apply Nat.eqb_eq in He. now subst.
  - intros H. exists a. split; [exact H|apply Nat.eqb_refl].
Qed.

Lemma filter_length_le {A} (f g : A -> bool) l :
  (forall x, In x l -> g x = true -> f x = true) ->
  List.length (filter g l) <= List.length (filter f l).
Proof.
  induction l as [|x l IH]; simpl; intros H; [lia|].
  assert (IH' : List.length (filter g l) <= List.length (filter f l)).
  { apply IH. intros y Hy. apply H. now right. }
  destruct (g x) eqn:Eg.
  - rewrite (H x (or_introl eq_refl) Eg). simpl. lia.
  - destruct (f x); simpl; lia.
Qed.

Lemma filter_length_lt {A} (f g : A -> bool) l a :
  (forall x, In x l -> g x = true -> f x = true) ->
  In a l -> f a = true -> g a = false ->
  List.length (filter g l) < List.length (filter f l).
Proof.
  induction l as [|x l IH]; simpl; intros H Hin Hf Hg; [destruct Hin|].
  assert (Hle : List.length (filter g l) <= List.length (filter f l)).
  { apply filter_length_le. intros y Hy. apply H. now right. }
  destruct Hin as [->|Hin].
  - rewrite Hf, Hg. simpl. lia.
  - assert (IH' : List.length (filter g l) < List.length (filter f l)).
    { apply IH; auto. }
    destruct (g x) eqn:Eg.
    + rewrite (H x (or_introl eq_refl) Eg). simpl. lia.
    + destruct (f x); simpl; lia.
Qed.

Lemma unseen_nil h : unseen h [] = List.length h.
Proof.
  unfold unseen. simpl. rewrite filter_id; [apply length_seq|reflexivity].
Qed.

Lemma unseen_mono h s s' :
  (forall a, In a s -> In a s') -> unseen h s' <= unseen h s.
Proof.
  intros H. apply filter_length_le. intros x _ Hx.
  destruct (memAddr x s) eqn:E; [|reflexivity].
  apply memAddr_In, H, memAddr_In in E. rewrite E in Hx. discriminate.
Qed.

Lemma unseen_cons h a s :
  a < List.length h -> ~ In a s -> unseen h (a :: s) < unseen h s.
Proof.
  intros Ha Hn. apply (filter_length_lt _ _ _ a).
  - intros x _ Hx. destruct (memAddr x s) eqn:E; [|reflexivity].
    simpl in Hx. rewrite E, orb_true_r in Hx. discriminate.
  - apply in_seq. lia.
  - destruct (memAddr a s) eqn:E; [|reflexivity]. now apply memAddr_In in E.
  - simpl. now rewrite Nat.eqb_refl.
Qed.

Lemma closedHeap_lookup h a x :
  closedHeap h = true -> nth_error h a = Some x -> closedHObj h x = true.
Proof.
  intros Hh Hn. unfold closedHeap in Hh. rewrite forallb_forall in Hh.
  apply Hh. eapply nth_error_In, Hn.
Qed.

Lemma closedValue_ref h a :
  closedValue h (VRef a) = true -> exists x, nth_error h a = Some x.
Proof.
  simpl. intros H. apply Nat.ltb_lt in H.
  destruct (nth_error h a) eqn:E; [eauto|]. apply nth_error_None in E. lia.
Qed.

Lemma closedObj_get h o k : closedObj h o = true -> closedValue h (get o k) = true.
Proof.
  intros H. unfold get. destruct (lookup o k) eqn:E; [|destruct (inherited k); reflexivity].
  apply lookup_In in E. unfold closedObj in H. rewrite forallb_forall in H.
  apply (H _ E).
Qed.

Lemma dataHeap_lookup h a x :
  dataHeap h = true -> nth_error h a = Some x -> dataHObj x = true.
Proof.
  intros Hh Hn. unfold dataHeap in Hh. rewrite forallb_forall in Hh.
  apply Hh. eapply nth_error_In, Hn.
Qed.

Lemma dataObj_lookup o k v : dataObj o = true -> lookup o k = Some v -> dataValue v = true.
Proof.
  intros H E. apply lookup_In in E. unfold dataObj in H. rewrite forallb_forall in H.
  apply (H _ E).
Qed.

Lemma dataValue_printed v : dataValue v = true -> printed v.
Proof. intros H n ->. exact H. Qed.

Lemma dataObj_get o k : dataObj o = true -> printed (get o k).
Proof.
  intros H n E. unfold get in E. destruct (lookup o k) eqn:El.
  - subst v. apply (dataObj_lookup o k _ H El).
  - destruct (inherited k); discriminate.
Qed.

Lemma printNumber_safe n : isSafeInteger n = true -> printNumber n = Returns (Z_to_string n).
Proof. intros H. unfold printNumber, numberToString. now rewrite H. Qed.

Lemma printableHeap_lookup h a fs :
  printableHeap h = true -> nth_error h a = Some (OObject fs) -> lookup fs "toString" = None.
Proof.
  intros Hh Hn. unfold printableHeap in Hh. rewrite forallb_forall in Hh.
  specialize (Hh _ (nth_error_In _ _ Hn)). simpl in Hh. unfold has in Hh.
  destruct (lookup fs "toString"); [discriminate|reflexivity].
Qed.

Lemma mapM_returns {A B} (f : A -> outcome B) xs :
  (forall x, In x xs -> exists y, f x = Returns y) ->
  exists ys, mapM f xs = Returns ys.
Proof.
  induction xs as [|x xs IH]; simpl; intros H; [eauto|].
  destruct (H x (or_introl eq_refl)) as [y ->].
  destruct IH as [ys ->]; [intros z Hz; apply H; now right|].
  simpl. eauto.
Qed.

(** [String(v)] returns on the data of a closed heap in which no object has
    a [toString] of its own, when the arrays cannot nest deeper than the
    host allows. *)
Lemma ToStringFuel_returns h :
  closedHeap h = true -> dataHeap h = true -> printableHeap h = true ->
  forall fuel stack v,
    closedValue h v = true ->
    printed v ->
    unseen h stack < fuel ->
    exists s, ToStringFuel h fuel stack v = Returns s.
Proof.
  intros Hh Hd Hp fuel. induction fuel as [|fuel IH]; intros stack v Hv Hs Hf; [lia|].
  destruct v; simpl; eauto.
  - destruct b; eauto.
  - rewrite (printNumber_safe n (Hs n eq_refl)). eauto.
  - destruct (closedValue_ref h a Hv) as [x Hx]. rewrite Hx.
    destruct x as [fs|items].
    { unfold objectToString. rewrite (printableHeap_lookup h a fs Hp Hx). eauto. }
    destruct (memAddr a stack) eqn:Em; [eauto|].
    assert (Hitems : forallb (closedValue h) items = true)
      by apply (closedHeap_lookup h a _ Hh Hx).
    assert (Hdata : forallb dataValue items = true)
      by apply (dataHeap_lookup h a _ Hd Hx).
    rewrite forallb_forall in Hitems, Hdata.
    destruct (mapM_returns
                (fun e => if isNullish e then Returns EmptyString
                          else ToStringFuel h fuel (a :: stack) e) items) as [parts ->].
    + intros e He. destruct (isNullish e); [eauto|].
      apply IH; [now apply Hitems|now apply dataValue_printed, Hdata|].
      assert (unseen h (a :: stack) < unseen h stack); [|lia].
      apply unseen_cons.
      * simpl in Hv. now apply Nat.ltb_lt in Hv.
      * intros Hin. apply memAddr_In in Hin. congruence.
    + simpl. eauto.
Qed.

Lemma ToString_returns h v :
  closedHeap h = true -> dataHeap h = true -> printableHeap h = true ->
  List.length h < toStringDepth ->
  closedValue h v = true -> printed v ->
  exists s, ToString h v = Returns s.
Proof.
  intros Hh Hd Hp Hn Hv Hs. apply ToStringFuel_returns; auto. now rewrite unseen_nil.
Qed.

(** The members of an object, when each value either is serialized or finds
    the stack used up. *)
Lemma serMembers_outcome h fuel stack :
  (forall st k v, closedValue h v = true -> printed v ->
     (forall a, In a stack -> In a st) ->
     (exists st' r, serPK h fuel stack st k v = Returns (st', r)
                    /\ (forall a, In a st -> In a st'))
     \/ (serPK h fuel stack st k v = stackOverflow /\ fuel <= unseen h st)) ->
  forall fs st, closedObj h fs = true -> dataObj fs = true ->
    (forall a, In a stack -> In a st) ->
    (exists st' ms, serMembers (list addr) (serPK h fuel stack) st fs = Returns (st', ms)
                    /\ (forall a, In a st -> In a st'))
    \/ (serMembers (list addr) (serPK h fuel stack) st fs = stackOverflow
        /\ fuel <= unseen h st).
Proof.
  intros Hser fs. induction fs as [|[k v] fs IH]; intros st Hc Hd Hst; simpl.
  - left. eauto.
  - simpl in Hc, Hd. apply andb_prop in Hc, Hd. destruct Hc as [Hv Hfs], Hd as [Hdv Hdfs].
    destruct (Hser st k v Hv (dataValue_printed v Hdv) Hst)
      as [[st1 [r [-> Hsub1]]]|[-> Hb]]; [|right; auto].
    simpl.
    destruct (IH st1 Hfs Hdfs (fun a Ha => Hsub1 a (Hst a Ha)))
      as [[st2 [ms [-> Hsub2]]]|[-> Hb]]; simpl.
    + left. eexists _, _. split; [reflexivity|]. auto.
    + right. split; [reflexivity|]. pose proof (unseen_mono h st st1 Hsub1). lia.
Qed.

Lemma serElements_outcome h fuel stack :
  (forall st k v, closedValue h v = true -> printed v ->
     (forall a, In a stack -> In a st) ->
     (exists st' r, serPK h fuel stack st k v = Returns (st', r)
                    /\ (forall a, In a st -> In a st'))
     \/ (serPK h fuel stack st k v = stackOverflow /\ fuel <= unseen h st)) ->
  forall items st i, forallb (closedValue h) items = true -> forallb dataValue items = true ->
    (forall a, In a stack -> In a st) ->
    (exists st' ms, serElements (list addr) (serPK h fuel stack) st i items = Returns (st', ms)
                    /\ (forall a, In a st -> In a st'))
    \/ (serElements (list addr) (serPK h fuel stack) st i items = stackOverflow
        /\ fuel <= unseen h st).
Proof.
  intros Hser items. induction items as [|v items IH]; intros st i Hc Hd Hst; simpl.
  - left. eauto.
  - simpl in Hc, Hd. apply andb_prop in Hc, Hd. destruct Hc as [Hv Hfs], Hd as [Hdv Hdfs].
    destruct (Hser st (nat_to_string i) v Hv (dataValue_printed v Hdv) Hst)
      as [[st1 [r [-> Hsub1]]]|[-> Hb]]; [|right; auto].
    simpl.
    destruct (IH st1 (S i) Hfs Hdfs (fun a Ha => Hsub1 a (Hst a Ha)))
      as [[st2 [ms [-> Hsub2]]]|[-> Hb]]; simpl.
    + left. eexists _, _. split; [reflexivity|]. auto.
    + right. split; [reflexivity|]. pose proof (unseen_mono h st st1 Hsub1). lia.
Qed.

(** The [toJSON] step leaves the objects of a heap of data as they are. *)
Lemma toJSON_ref h a :
  dataHeap h = true -> toJSON h (VRef a) = Returns (VRef a).
Proof.
  intros Hd. simpl. destruct (nth_error h a) as [[fs|items]|] eqn:E; try reflexivity.
  destruct (lookup fs "toJSON") as [v|] eqn:El; [|reflexivity].
  pose proof (dataObj_lookup fs _ v (dataHeap_lookup h a _ Hd E) El) as Hv.
  destruct v; try reflexivity. discriminate.
Qed.

(** Under this replacer the serializer does not throw by itself on the data
    of a closed heap: every object it enters was put into [seen] first.  It
    returns, unless the stack is used up, which takes as many objects not
    yet seen as the host lets calls nest. *)
Lemma serPK_outcome h :
  closedHeap h = true -> dataHeap h = true ->
  forall fuel stack seen key v,
    closedValue h v = true ->
    printed v ->
    (forall a, In a stack -> In a seen) ->
    (exists seen' r,
        serPK h fuel stack seen key v = Returns (seen', r)
        /\ (forall a, In a seen -> In a seen')
        /\ (forall a, v = VRef a -> r <> None))
    \/ (serPK h fuel stack seen key v = stackOverflow /\ fuel <= unseen h seen).
Proof.
  intros Hh Hd fuel. induction fuel as [|fuel IH]; intros stack seen key v Hv Hs Hst.
  { right. split; [reflexivity|lia]. }
  unfold serPK. cbn [SerializeJSONProperty].
  destruct v as [| |b|n|n|s|t|a|f];
    try (left; cbn; eexists _, _; split; [reflexivity|split; [auto|congruence]]).
  - left. destruct b; cbn; eexists _, _; (split; [reflexivity|split; [auto|congruence]]).
  - left. cbn. rewrite (printNumber_safe n (Hs n eq_refl)). cbn.
    eexists _, _; split; [reflexivity|split; [auto|congruence]].
  - left. destruct t; cbn; eexists _, _; (split; [reflexivity|split; [auto|congruence]]).
  - rewrite (toJSON_ref h a Hd). cbn [bind replacer].
    destruct (memAddr a seen) eqn:Eseen; cbn [bind].
    + left. eexists _, _; split; [reflexivity|split; [auto|congruence]].
    + assert (Hns : ~ In a seen) by (intros Hin; apply memAddr_In in Hin; congruence).
      assert (Hstk : memAddr a stack = false).
      { destruct (memAddr a stack) eqn:E; [|reflexivity].
        apply memAddr_In, Hst in E. contradiction. }
      rewrite Hstk. destruct (closedValue_ref h a Hv) as [x Hx]. rewrite Hx.
      assert (Hlt : unseen h (a :: seen) < unseen h seen).
      { apply unseen_cons; [|exact Hns]. simpl in Hv. now apply Nat.ltb_lt in Hv. }
      assert (Hser : forall st k v, closedValue h v = true -> printed v ->
                (forall b, In b (a :: stack) -> In b st) ->
                (exists st' r, serPK h fuel (a :: stack) st k v = Returns (st', r)
                               /\ (forall b, In b st -> In b st'))
                \/ (serPK h fuel (a :: stack) st k v = stackOverflow
                    /\ fuel <= unseen h st)).
      { intros st k v0 Hv0 Hs0 H1.
        destruct (IH (a :: stack) st k v0 Hv0 Hs0 H1) as [[st' [r [E [Hsub _]]]]|H];
          [left; eauto|right; exact H]. }
      assert (H0 : forall b, In b (a :: stack) -> In b (a :: seen)).
      { intros b [<-|Hb]; [now left|right; auto]. }
      pose proof (closedHeap_lookup h a x Hh Hx) as Hcx.
      pose proof (dataHeap_lookup h a x Hd Hx) as Hdx.
      destruct x as [fs|items]; simpl in Hcx, Hdx.
      * destruct (serMembers_outcome h fuel (a :: stack) Hser fs (a :: seen) Hcx Hdx H0)
          as [[st2 [ms [E Hsub]]]|[E Hb]]; unfold serPK in E; rewrite E; cbn [bind].
        -- left. eexists _, _; split; [reflexivity|split; [|congruence]].
           intros b Hb. apply Hsub. now right.
        -- right. split; [reflexivity|lia].
      * destruct (serElements_outcome h fuel (a :: stack) Hser items (a :: seen) 0 Hcx Hdx H0)
          as [[st2 [ms [E Hsub]]]|[E Hb]]; unfold serPK in E; rewrite E; cbn [bind].
        -- left. eexists _, _; split; [reflexivity|split; [|congruence]].
           intros b Hb. apply Hsub. now right.
        -- right. split; [reflexivity|lia].
Qed.

Lemma closedValue_grow h x v : closedValue h v = true -> closedValue (h ++ [x]) v = true.
Proof.
  destruct v; simpl; auto. rewrite length_app. simpl.
  intros H. apply Nat.ltb_lt in H. apply Nat.ltb_lt. lia.
Qed.

Lemma closedObj_grow h x o : closedObj h o = true -> closedObj (h ++ [x]) o = true.
Proof.
  unfold closedObj. rewrite !forallb_forall. intros H kv Hkv.
  apply closedValue_grow, H, Hkv.
Qed.

Lemma closedHeap_alloc h record :
  closedHeap h = true -> closedObj h record = true ->
  closedHeap (h ++ [OObject record]) = true.
Proof.
  intros Hh Hr. unfold closedHeap. rewrite forallb_app. simpl.
  rewrite (closedObj_grow _ _ _ Hr). rewrite andb_true_r.
  unfold closedHeap in Hh. rewrite forallb_forall in *. intros x Hx.
  specialize (Hh x Hx). destruct x as [fs|items]; simpl in *.
  - now apply closedObj_grow.
  - rewrite forallb_forall in *. intros v Hv. apply closedValue_grow, Hh, Hv.
Qed.

Lemma dataHeap_alloc h record :
  dataHeap h = true -> dataObj record = true -> dataHeap (h ++ [OObject record]) = true.
Proof.
  intros Hh Hr. unfold dataHeap. rewrite forallb_app. simpl.
  now rewrite Hr, andb_true_r.
Qed.

(** [safeStringifyForPK] returns on the data of a closed heap: the JSON
    text, or, when the stack is used up underway, the text of its [catch]. *)
Lemma safeStringifyForPK_outcome h record :
  closedHeap h = true -> dataHeap h = true ->
  closedObj h record = true -> dataObj record = true ->
  (exists s,
      JSON_stringify (list addr) PrimaryKey.replacer (h ++ [OObject record]) []
                     (VRef (List.length h)) = Returns (Some s)
      /\ PrimaryKey.safeStringifyForPK h record = Returns s)
  \/ (JSON_stringify (list addr) PrimaryKey.replacer (h ++ [OObject record]) []
                     (VRef (List.length h)) = stackOverflow
      /\ stringifyDepth <= List.length h + 1
      /\ PrimaryKey.safeStringifyForPK h record = Returns (fallbackKey record)).
Proof.
  intros Hh Hd Hr Hdr.
  pose proof (closedHeap_alloc h record Hh Hr) as Hh'.
  pose proof (dataHeap_alloc h record Hd Hdr) as Hd'.
  unfold PrimaryKey.safeStringifyForPK, JSON_stringify.
  destruct (serPK_outcome _ Hh' Hd' stringifyDepth [] [] EmptyString
                          (VRef (List.length h))) as [[seen' [r [E [_ Hr']]]]|[E Hb]].
  - simpl. apply Nat.ltb_lt. rewrite length_app. simpl. lia.
  - intros n [=].
  - intros a [].
  - left. unfold serPK in E. rewrite E. simpl.
    destruct r as [s|]; [eauto|]. exfalso. now apply (Hr' _ eq_refl).
  - right. unfold serPK in E. rewrite E. simpl.
    rewrite unseen_nil, length_app in Hb. simpl in Hb. auto.
Qed.

(** Within the depth the host allows, it returns the JSON text. *)
Lemma safeStringifyForPK_returns h record :
  closedHeap h = true -> dataHeap h = true ->
  closedObj h record = true -> dataObj record = true ->
  List.length h + 1 < stringifyDepth ->
  exists s,
    JSON_stringify (list addr) PrimaryKey.replacer (h ++ [OObject record]) []
                   (VRef (List.length h)) = Returns (Some s)
    /\ PrimaryKey.safeStringifyForPK h record = Returns s.
Proof.
  intros Hh Hd Hr Hdr Hn.
  destruct (safeStringifyForPK_outcome h record Hh Hd Hr Hdr) as [H|[_ [Hb _]]];
    [exact H|lia].
Qed.

Lemma safeStringifyForPK_total h record :
  closedHeap h = true -> dataHeap h = true ->
  closedObj h record = true -> dataObj record = true ->
  exists s, PrimaryKey.safeStringifyForPK h record = Returns s.
Proof.
  intros Hh Hd Hr Hdr.
  destruct (safeStringifyForPK_outcome h record Hh Hd Hr Hdr) as [[s [_ E]]|[_ [_ E]]]; eauto.
Qed.

(** The hypotheses under which a row has a key by the two-argument
    extractor: the row and what it refers to are data, no object has a
    [toString] of its own, and arrays nest no deeper than the host's [join]
    allows. *)
Lemma heuristic_returns h record tableName :
  closedHeap h = true -> dataHeap h = true -> printableHeap h = true ->
  List.length h < toStringDepth ->
  closedObj h record = true -> dataObj record = true ->
  exists id, PrimaryKeyHeuristic.extractPrimaryKey h record tableName = Returns id.
Proof.
  intros Hh Hd Hp Hn Hr Hdr. unfold PrimaryKeyHeuristic.extractPrimaryKey.
  destruct (find _ _) as [field|].
  - apply ToString_returns; auto using closedObj_get, dataObj_get.
  - destruct (find _ _) as [idField|].
    + destruct (String.eqb idField EmptyString).
      * now apply safeStringifyForPK_total.
      * apply ToString_returns; auto using closedObj_get, dataObj_get.
    + now apply safeStringifyForPK_total.
Qed.


Lemma find_first {A} (f : A -> bool) pre x post :
  f x = true -> (forall y, In y pre -> f y = false) -> find f (pre ++ x :: post) = Some x.
Proof.
  intros Hx. induction pre as [|y pre IH]; intros Hpre; simpl.
  - now rewrite Hx.
  - rewrite (Hpre y (or_introl eq_refl)). apply IH. intros z Hz. apply Hpre. now right.
Qed.

Lemma find_all_false {A} (f : A -> bool) l :
  (forall y, In y l -> f y = false) -> find f l = None.
Proof.
  induction l as [|y l IH]; intros H; simpl; [reflexivity|].
  rewrite (H y (or_introl eq_refl)). apply IH. intros z Hz. apply H. now right.
Qed.

Lemma endsWith_id_nonempty key : endsWith (toLowerCase key) "id" = true -> key <> EmptyString.
Proof. intros H ->. discriminate H. Qed.


End Traversal.

Section UpdateFacts.
Context {host : Host}.
Variable filterFields : obj -> string -> NormalizedConfig -> obj.
Variable getChangedValues : obj -> obj -> option obj.
Import Update.

Local Abbreviation extractPK := PrimaryKeyHeuristic.extractPrimaryKey.
Local Abbreviation fullRows := (Update.fullRows filterFields).
Local Abbreviation changedRows := (Update.changedRows filterFields getChangedValues).
Local Abbreviation createUpdateAuditLogs := (Update.createUpdateAuditLogs filterFields getChangedValues).

Lemma keyed_cons h t r rows :
  keyed h t (r :: rows) ->
  (forall row, r = Some row -> exists id, extractPK h row t = Returns id) /\ keyed h t rows.
Proof.
  intros H. split.
  - intros row ->. apply H. now left.
  - intros row Hin. apply H. now right.
Qed.

Lemma keyed_app h t xs ys : keyed h t (xs ++ ys) <-> keyed h t xs /\ keyed h t ys.
Proof.
  unfold keyed. split.
  - intros H. split; intros row Hin; apply H, in_or_app; auto.
  - intros [H1 H2] row Hin. apply in_app_or in Hin. destruct Hin; auto.
Qed.

Lemma fullRows_spec h t config :
  forall rows logs, keyed h t rows ->
  exists out,
    fullRows h t config rows logs = Returns (logs ++ out)
    /\ Forall2 (fullRecord filterFields h t config) (presentRows rows) out.
Proof.
  intros rows. induction rows as [|[after|] rows IH]; intros logs Hc; simpl.
  - exists []. rewrite app_nil_r. split; [reflexivity|constructor].
  - apply keyed_cons in Hc. destruct Hc as [Ha Hrows].
    destruct (Ha after eq_refl) as [id Hid].
    rewrite Hid. simpl.
    destruct (IH (logs ++ [updateLog t id (filterFields after t config)]) Hrows)
      as [out [E F]].
    rewrite E, <- app_assoc. simpl. eexists. split; [reflexivity|].
    constructor; [|exact F]. exists id. simpl. auto 6.
  - apply keyed_cons in Hc. destruct Hc as [_ Hrows]. apply IH, Hrows.
Qed.

(** *** The map [beforeById] *)

Lemma mapGet_mapSet k row m k' :
  mapGet (mapSet k row m) k' = if String.eqb k k' then Some row else mapGet m k'.
Proof.
  unfold mapGet. induction m as [|[k0 r0] m IH]; simpl.
  - reflexivity.
  - destruct (String.eqb k0 k) eqn:E0; simpl.
    + apply String.eqb_eq in E0; subst k0. destruct (String.eqb k k'); reflexivity.
    + destruct (String.eqb k0 k') eqn:E1.
      * apply String.eqb_eq in E1; subst k0. rewrite String.eqb_sym, E0. reflexivity.
      * exact IH.
Qed.

Lemma indexBefore_returns h t :
  forall rows m, keyed h t rows ->
  exists m', indexBefore h t rows m = Returns m'.
Proof.
  intros rows. induction rows as [|[b|] rows IH]; intros m Hc; simpl.
  - eauto.
  - apply keyed_cons in Hc. destruct Hc as [Hb Hrows].
    destruct (Hb b eq_refl) as [id Hid].
    rewrite Hid. simpl. apply IH, Hrows.
  - apply keyed_cons in Hc. destruct Hc as [_ Hrows]. apply IH, Hrows.
Qed.

(** A key absent from the rows indexed keeps its binding. *)
Lemma indexBefore_other h t id : forall rows m m',
  indexBefore h t rows m = Returns m' ->
  (forall b, In (Some b) rows -> extractPK h b t <> Returns id) ->
  mapGet m' id = mapGet m id.
Proof.
  induction rows as [|[b|] rows IH]; intros m m' E Hno; simpl in E.
  - now injection E as <-.
  -     destruct (extractPK h b t) as [idb| |] eqn:Eb; simpl in E; try discriminate.
    rewrite (IH _ _ E); [|intros b' Hb'; apply Hno; now right].
    rewrite mapGet_mapSet. destruct (String.eqb idb id) eqn:Eq; [|reflexivity].
    apply String.eqb_eq in Eq; subst idb. exfalso. apply (Hno b); [now left|exact Eb].
  - apply (IH _ _ E). intros b' Hb'. apply Hno. now right.
Qed.

(** The last row indexed under a key is the one the map returns. *)
Lemma indexBefore_last h t id before : forall rows1 rows2 m m',
  indexBefore h t (rows1 ++ Some before :: rows2) m = Returns m' ->
  extractPK h before t = Returns id ->
  (forall b, In (Some b) rows2 -> extractPK h b t <> Returns id) ->
  mapGet m' id = Some before.
Proof.
  induction rows1 as [|[b|] rows1 IH]; intros rows2 m m' E Hid Hno; simpl in E.
  - rewrite Hid in E. simpl in E.
    rewrite (indexBefore_other h t id _ _ _ E Hno), mapGet_mapSet, String.eqb_refl.
    reflexivity.
  -     destruct (extractPK h b t) as [idb| |]; simpl in E; try discriminate.
    apply (IH _ _ _ E Hid Hno).
  - apply (IH _ _ _ E Hid Hno).
Qed.

(** *** The matching loop, row by row *)

Lemma changedRows_cons h t config m after rows logs :
  changedRows h t config m (Some after :: rows) logs =
    (out <- changedStep filterFields getChangedValues h t config m after ;;
     changedRows h t config m rows (logs ++ out)).
Proof.
  simpl. unfold changedStep.
  destruct (extractPK h after t) as [id| |]; simpl; try reflexivity.
  destruct (mapGet m id) as [before|]; simpl; [|reflexivity].
  destruct (getChangedValues _ _) as [cv|]; simpl; [|now rewrite app_nil_r].
  destruct (0 <? List.length (keys cv))%nat; simpl; [reflexivity|now rewrite app_nil_r].
Qed.

Lemma changedStep_returns h t config m after :
  (exists id, extractPK h after t = Returns id) ->
  exists out, changedStep filterFields getChangedValues h t config m after = Returns out.
Proof.
  intros [id Hid]. unfold changedStep. rewrite Hid. simpl.
  destruct (mapGet m id); [|eauto].
  destruct (getChangedValues _ _) as [cv|]; [|eauto].
  destruct (0 <? List.length (keys cv))%nat; eauto.
Qed.

Lemma changedRows_acc h t config m :
  forall rows logs, keyed h t rows ->
  exists out,
    changedRows h t config m rows [] = Returns out
    /\ changedRows h t config m rows logs = Returns (logs ++ out).
Proof.
  intros rows. induction rows as [|[after|] rows IH]; intros logs Hc.
  - exists []. simpl. now rewrite app_nil_r.
  - apply keyed_cons in Hc. destruct Hc as [Ha Hrows].
    rewrite !changedRows_cons.
    destruct (changedStep_returns h t config m after (Ha after eq_refl)) as [out1 ->].
    simpl.
    destruct (IH out1 Hrows) as [out [E0 E1]].
    destruct (IH (logs ++ out1) Hrows) as [out' [E0' E2]].
    rewrite E0 in E0'. injection E0' as <-.
    exists (out1 ++ out). rewrite E1, E2, app_assoc. auto.
  - apply keyed_cons in Hc. destruct Hc as [_ Hrows]. simpl. apply IH, Hrows.
Qed.

(** The records of a list of rows are those of its parts, in order. *)
Lemma changedRows_split h t config m pre after post :
  keyed h t (pre ++ Some after :: post) ->
  exists logsPre emitted logsPost,
    changedRows h t config m pre [] = Returns logsPre
    /\ changedStep filterFields getChangedValues h t config m after = Returns emitted
    /\ changedRows h t config m post [] = Returns logsPost
    /\ changedRows h t config m (pre ++ Some after :: post) [] =
         Returns (logsPre ++ emitted ++ logsPost).
Proof.
  intros Hc. apply keyed_app in Hc. destruct Hc as [Hpre Hc].
  apply keyed_cons in Hc. destruct Hc as [Ha Hpost].
  revert Hpre. induction pre as [|[r|] pre IH]; intros Hpre.
  - destruct (changedStep_returns h t config m after (Ha after eq_refl)) as [out E].
    destruct (changedRows_acc h t config m post out Hpost) as [logsPost [E0 E1]].
    exists [], out, logsPost. simpl app. rewrite changedRows_cons, E. simpl.
    rewrite E0, E1. auto.
  - apply keyed_cons in Hpre. destruct Hpre as [Hr Hpre].
    destruct (IH Hpre) as [logsPre [emitted [logsPost [E1 [E2 [E3 E4]]]]]].
    destruct (changedStep_returns h t config m r (Hr r eq_refl)) as [out Eo].
    destruct (changedRows_acc h t config m pre out Hpre) as [x [Ex Ex']].
    rewrite E1 in Ex. injection Ex as <-.
    assert (Hall : keyed h t (pre ++ Some after :: post)).
    { apply keyed_app. split; [exact Hpre|].
      intros row [[= <-]|Hin]; [now apply Ha|now apply Hpost]. }
    destruct (changedRows_acc h t config m (pre ++ Some after :: post) out Hall)
      as [y [Ey Ey']].
    rewrite E4 in Ey. injection Ey as <-.
    exists (out ++ logsPre), emitted, logsPost.
    rewrite <- app_comm_cons, !changedRows_cons, Eo. simpl.
    rewrite Ex', Ey', E2, E3, <- app_assoc. auto.
  - apply keyed_cons in Hpre. destruct Hpre as [_ Hpre].
    destruct (IH Hpre) as [logsPre [emitted [logsPost [E1 [E2 [E3 E4]]]]]].
    exists logsPre, emitted, logsPost. simpl. auto.
Qed.

End UpdateFacts.

Section UpdateTheorems.
Context {host : Host}.
Variable filterFields : obj -> string -> NormalizedConfig -> obj.
Import Update.

Local Abbreviation extractPK := PrimaryKeyHeuristic.extractPrimaryKey.

Lemma createUpdateAuditLogs_changed gcv h t config before after :
  updateValuesMode config = changed -> before <> [] ->
  createUpdateAuditLogs filterFields gcv h t before after config =
    (m <- indexBefore h t before [] ;; changedRows filterFields gcv h t config m after []).
Proof.
  intros Hm Hb. unfold createUpdateAuditLogs. rewrite Hm. simpl.
  destruct before; [contradiction|reflexivity].
Qed.

Lemma createUpdateAuditLogs_full gcv h t config before after :
  updateValuesMode config = full \/ before = [] ->
  createUpdateAuditLogs filterFields gcv h t before after config =
    fullRows filterFields h t config after [].
Proof.
  intros [Hm| ->]; unfold createUpdateAuditLogs.
  - now rewrite Hm.
  - simpl. now rewrite orb_true_r.
Qed.

(** C3.  When every row has a primary key: in full mode, or when the before
    list is empty, [createUpdateAuditLogs] returns one record per after row,
    in order, each with the action UPDATE, the table, the row's primary key,
    [values = filterFields(after)] and no metadata.  In changed mode, an
    after row whose primary key no before row has contributes exactly one
    such record, between the records of the rows before it and of the rows
    after it. *)
Theorem update_full_rows :
  forall (getChangedValues : obj -> obj -> option obj)
         h tableName config before after,
    keyed h tableName after ->
    (* full mode, or no before state *)
    ((updateValuesMode config = full \/ before = []) ->
     exists logs,
       createUpdateAuditLogs filterFields getChangedValues h tableName before after config
         = Returns logs
       /\ Forall2 (fullRecord filterFields h tableName config) (presentRows after) logs)
    (* changed mode, a row without a before-row *)
    /\ (updateValuesMode config = changed ->
        before <> [] ->
        keyed h tableName before ->
        forall pre row post id,
          after = pre ++ Some row :: post ->
          extractPK h row tableName = Returns id ->
          (forall b, In (Some b) before -> extractPK h b tableName <> Returns id) ->
          exists logsPre logsPost,
            createUpdateAuditLogs filterFields getChangedValues h tableName before pre config
              = Returns logsPre
            /\ createUpdateAuditLogs filterFields getChangedValues h tableName before post config
              = Returns logsPost
            /\ createUpdateAuditLogs filterFields getChangedValues h tableName before after config
              = Returns (logsPre
                         ++ [{| action := "UPDATE";
                                tableName := tableName;
                                recordId := id;
                                values := Some (filterFields row tableName config);
                                metadata := None |}]
                         ++ logsPost)).
Proof.
  intros gcv h t config before after Ha. split.
  - intros Hmode. rewrite createUpdateAuditLogs_full by exact Hmode.
    destruct (fullRows_spec filterFields h t config after [] Ha) as [out [E F]].
    exists out. auto.
  - intros Hmode Hne Hb pre row post id -> Hid Hno.
    rewrite !createUpdateAuditLogs_changed by assumption.
    destruct (indexBefore_returns h t before [] Hb) as [m Em]. rewrite Em. simpl.
    destruct (changedRows_split filterFields gcv h t config m pre row post Ha)
      as [logsPre [emitted [logsPost [E1 [E2 [E3 E4]]]]]].
    exists logsPre, logsPost. rewrite E1, E3, E4. repeat split.
    unfold changedStep in E2. rewrite Hid in E2. simpl in E2.
    rewrite (indexBefore_other h t id _ _ _ Em Hno) in E2. simpl in E2.
    now injection E2 as <-.
Qed.

Variable sameValue : value -> value -> bool.

Lemma differs_columnDiffers before c v :
  Serializer.differs sameValue before (c, v) = true <-> Serializer.columnDiffers sameValue before c v.
Proof.
  unfold Serializer.differs, Serializer.columnDiffers. simpl. destruct (lookup before c) as [old|].
  - rewrite negb_true_iff. split.
    + now intros H ? [= <-].
    + intros H. now apply H.
  - split; [discriminate|reflexivity].
Qed.

(** C2, as amended.  In changed mode, when every row has a primary key, an
    after row paired with the last before row of the same primary key
    contributes a record if and only if some column of [filterFields(after)]
    is missing from [filterFields(before)] or differs from it there; the
    record is an UPDATE of that table and key whose [values] hold exactly
    those columns with their after values.  When no column of the filtered
    after row differs nothing is emitted for the row; a column that only the
    before row has is not looked at. *)
Theorem update_changed_rows :
  forall h tableName config before after bs1 b bs2 pre a post id,
    keyed h tableName before ->
    keyed h tableName after ->
    updateValuesMode config = changed ->
    before = bs1 ++ Some b :: bs2 ->
    extractPK h b tableName = Returns id ->
    (forall b', In (Some b') bs2 -> extractPK h b' tableName <> Returns id) ->
    after = pre ++ Some a :: post ->
    extractPK h a tableName = Returns id ->
    let create := createUpdateAuditLogs filterFields (Serializer.getChangedValues sameValue)
                                        h tableName before in
    let beforeValues := filterFields b tableName config in
    let afterValues := filterFields a tableName config in
    exists logsPre emitted logsPost,
      create pre config = Returns logsPre
      /\ create post config = Returns logsPost
      /\ create after config = Returns (logsPre ++ emitted ++ logsPost)
      /\ (emitted <> [] <->
          exists column v, In (column, v) afterValues
                           /\ Serializer.columnDiffers sameValue beforeValues column v)
      /\ (forall log, In log emitted ->
            emitted = [log]
            /\ action log = "UPDATE"
            /\ Types.tableName log = tableName
            /\ recordId log = id
            /\ exists changedValues,
                 values log = Some changedValues
                 /\ changedValues
                    = filter (Serializer.differs sameValue beforeValues) afterValues
                 /\ forall column v,
                      In (column, v) changedValues <->
                      (In (column, v) afterValues
                       /\ Serializer.columnDiffers sameValue beforeValues column v)).
Proof.
  intros h t config before after bs1 b bs2 pre a post id Hb Ha Hmode -> Hidb Hno -> Hida.
  intros create beforeValues afterValues. subst create.
  assert (Hne : bs1 ++ Some b :: bs2 <> []) by (destruct bs1; discriminate).
  rewrite !createUpdateAuditLogs_changed by assumption.
  destruct (indexBefore_returns h t _ [] Hb) as [m Em]. rewrite Em. simpl.
  destruct (changedRows_split filterFields (Serializer.getChangedValues sameValue)
              h t config m pre a post Ha)
    as [logsPre [emitted [logsPost [E1 [E2 [E3 E4]]]]]].
  exists logsPre, emitted, logsPost. rewrite E1, E3, E4.
  split; [reflexivity|]. split; [reflexivity|]. split; [reflexivity|].
  unfold changedStep in E2. rewrite Hida in E2. simpl in E2.
  rewrite (indexBefore_last h t id b _ _ _ _ Em Hidb Hno) in E2.
  unfold Serializer.getChangedValues in E2.
  fold beforeValues afterValues in E2.
  remember (filter (Serializer.differs sameValue beforeValues) afterValues) as cv eqn:Ecv.
  assert (Hcv : forall column v,
             In (column, v) cv <->
             In (column, v) afterValues /\ Serializer.columnDiffers sameValue beforeValues column v).
  { intros c v. rewrite Ecv, filter_In, differs_columnDiffers. reflexivity. }
  destruct cv as [|[c0 v0] cv']; simpl in E2; injection E2 as <-.
  - split.
    + split; [intros H; now contradiction H|].
      intros [c [v H]]. apply Hcv in H. destruct H.
    + intros log [].
  - split.
    + split; [|discriminate]. intros _. exists c0, v0. apply Hcv. now left.
    + intros log [<-|[]]. simpl. repeat split. eexists. split; [reflexivity|].
      split; [reflexivity|]. intros c v. apply Hcv.
Qed.

End UpdateTheorems.

(** C2, as stated, fails: the two rows have the same primary key, the
    filtered rows differ on the column [note], which the update removed, and
    no record is emitted. *)
Lemma dropped_column_gives_no_record :
  PrimaryKeyHeuristic.extractPrimaryKey (host := exampleHost) [] noteBefore "users"
    = Returns "1"
  /\ PrimaryKeyHeuristic.extractPrimaryKey (host := exampleHost) [] noteAfter "users"
     = Returns "1"
  /\ lookup (Serializer.filterFields noteBefore "users" (config0 changed)) "note"
     = Some (VString "x")
  /\ lookup (Serializer.filterFields noteAfter "users" (config0 changed)) "note" = None
  /\ Update.createUpdateAuditLogs (host := exampleHost) Serializer.filterFields
       (Serializer.getChangedValues Serializer.sameScalar)
       [] "users" [Some noteBefore] [Some noteAfter] (config0 changed)
     = Returns [].
Proof. repeat split. Qed.

Section SerializerFacts.
Context {host : Host}.
Import PrimaryKey.

Lemma serPK_scalar h fuel stack seen key v :
  isScalar v = true ->
  dataValue v = true ->
  serPK h (S fuel) stack seen key v = Returns (seen, scalarJSON v).
Proof.
  destruct v as [| |b|n|n|s|t|a|f]; try reflexivity; try discriminate.
  - destruct b; reflexivity.
  - intros _ Hn. unfold serPK. cbn. now rewrite (printNumber_safe n Hn).
  - destruct t; reflexivity.
Qed.

Lemma serMembers_scalars h fuel stack fs : forall seen,
  forallb (fun kv => isScalar (snd kv)) fs = true ->
  dataObj fs = true ->
  serMembers (list addr) (serPK h (S fuel) stack) seen fs = Returns (seen, scalarMembers fs).
Proof.
  induction fs as [|[k v] fs IH]; intros seen H Hd; [reflexivity|].
  simpl in H, Hd. apply andb_prop in H, Hd. destruct H as [Hv Hfs], Hd as [Hdv Hdfs].
  cbn [serMembers]. rewrite (serPK_scalar _ _ _ _ _ _ Hv Hdv). cbn [bind].
  rewrite (IH seen Hfs Hdfs). cbn [bind]. unfold scalarMembers. cbn [flat_map snd fst].
  destruct (scalarJSON v); reflexivity.
Qed.

Lemma nth_error_alloc (h : heap) x : nth_error (h ++ [x]) (List.length h) = Some x.
Proof. rewrite nth_error_app2, Nat.sub_diag by lia. reflexivity. Qed.

(** The host lets the serializer enter a row, an object in it and a value
    in that. *)
Lemma stringifyDepth_S : exists n, stringifyDepth = S (S (S n)).
Proof.
  pose proof stringifyDepth_min as H. apply Nat.leb_le in H.
  exists (stringifyDepth - 3). lia.
Qed.

(** Entering an object that was not seen before. *)
Lemma serPK_enter h fuel stack seen key a fs :
  toJSON h (VRef a) = Returns (VRef a) ->
  memAddr a seen = false ->
  memAddr a stack = false ->
  nth_error h a = Some (OObject fs) ->
  serPK h (S fuel) stack seen key (VRef a) =
    (' (st2, ms) <- serMembers (list addr) (serPK h fuel (a :: stack)) (a :: seen) fs ;;
     Returns (st2, Some ("{" +++ join "," ms +++ "}"))).
Proof.
  intros Hj Hseen Hstack Hn. unfold serPK. cbn [SerializeJSONProperty].
  rewrite Hj. cbn [bind PrimaryKey.replacer]. rewrite Hseen. cbn [bind].
  rewrite Hstack, Hn. reflexivity.
Qed.

Lemma toJSON_root h record :
  (forall f, lookup record "toJSON" <> Some (VNative f)) ->
  toJSON (h ++ [OObject record]) (VRef (List.length h)) = Returns (VRef (List.length h)).
Proof.
  intros Hj. cbn [toJSON]. rewrite nth_error_alloc.
  destruct (lookup record "toJSON") as [v|] eqn:E; [|reflexivity].
  destruct v; try reflexivity. now contradiction (Hj name).
Qed.

Lemma dataObj_toJSON record f : dataObj record = true -> lookup record "toJSON" <> Some (VNative f).
Proof. intros Hd E. now pose proof (dataObj_lookup record _ _ Hd E). Qed.

(** How [safeStringifyForPK] starts: the root, when it has no [toJSON] to
    call, passes the replacer, enters [seen], and its members are
    serialized. *)
Lemma safeStringifyForPK_unfold h record :
  (forall f, lookup record "toJSON" <> Some (VNative f)) ->
  PrimaryKey.safeStringifyForPK h record =
    match serMembers (list addr)
            (serPK (h ++ [OObject record]) (Nat.pred stringifyDepth) [List.length h])
            [List.length h] record with
    | Returns (_, ms) => Returns ("{" +++ join "," ms +++ "}")
    | Throws _ => Returns (fallbackKey record)
    | NoResult => NoResult
    end.
Proof.
  intros Hj. unfold PrimaryKey.safeStringifyForPK, JSON_stringify.
  destruct stringifyDepth_S as [n ->]. cbn [Nat.pred].
  change (SerializeJSONProperty (list addr) replacer) with serPK.
  rewrite (serPK_enter _ _ [] [] _ _ record (toJSON_root h record Hj) eq_refl eq_refl
                       (nth_error_alloc h _)).
  destruct (serMembers _ _ _ _) as [[st ms]| |]; reflexivity.
Qed.

Lemma safeStringifyForPK_scalars h record :
  forallb (fun kv => isScalar (snd kv)) record = true ->
  dataObj record = true ->
  PrimaryKey.safeStringifyForPK h record =
    Returns ("{" +++ join "," (scalarMembers record) +++ "}").
Proof.
  intros H Hd.
  rewrite safeStringifyForPK_unfold by (intros f; now apply dataObj_toJSON).
  destruct stringifyDepth_S as [n ->]. cbn [Nat.pred].
  rewrite (serMembers_scalars _ _ _ _ _ H Hd). reflexivity.
Qed.

Lemma safeStringifyForPK_nonempty h record s :
  PrimaryKey.safeStringifyForPK h record = Returns s -> s <> EmptyString.
Proof.
  unfold PrimaryKey.safeStringifyForPK, JSON_stringify.
  destruct (SerializeJSONProperty _ _ _ _ _ _ _ _) as [[st [r|]]|e|] eqn:E; cbn [bind];
    try discriminate.
  - intros [= <-]. intros ->.
    destruct stringifyDepth_S as [n Hn]. rewrite Hn in E.
    cbn [SerializeJSONProperty] in E.
    destruct (toJSON _ _) as [v0| |] eqn:Ej; cbn [bind] in E; try discriminate.
    assert (v0 = VRef (List.length h)); [|subst v0].
    { cbn [toJSON] in Ej. rewrite nth_error_alloc in Ej.
      destruct (lookup record "toJSON") as [[]|]; congruence. }
    cbn [PrimaryKey.replacer memAddr existsb bind] in E.
    rewrite nth_error_alloc in E.
    destruct (serMembers _ _ _ _) as [[st' ms]| |]; cbn [bind] in E; discriminate.
  - intros [= <-]. discriminate.
Qed.

Lemma Z_to_string_nonempty n : Z_to_string n <> EmptyString.
Proof.
  unfold Z_to_string. destruct n as [|p|p]; simpl; try discriminate.
  pose proof (Unsigned.to_uint_nonnil p) as H.
  destruct (Pos.to_uint p); [now contradiction H|..]; discriminate.
Qed.

Lemma has_keys o k : has o k = true -> In k (keys o).
Proof.
  unfold has. destruct (lookup o k) eqn:E; [|discriminate]. intros _.
  eapply lookup_Some_keys, E.
Qed.

Lemma heuristic_empty h row t :
  PrimaryKeyHeuristic.extractPrimaryKey h row t = Returns EmptyString ->
  exists field, In field (keys row) /\ ToString h (get row field) = Returns EmptyString.
Proof.
  unfold PrimaryKeyHeuristic.extractPrimaryKey. cbv zeta.
  destruct (find _ [_; _; _; _]) as [field|] eqn:E1.
  - apply find_some in E1. destruct E1 as [_ E1]. apply andb_prop in E1.
    destruct E1 as [E1 _]. eauto using has_keys.
  - destruct (find _ (keys row)) as [idField|] eqn:E2.
    + apply find_some in E2. destruct E2 as [Hin _].
      destruct (String.eqb idField EmptyString).
      * intros H. now apply safeStringifyForPK_nonempty in H.
      * eauto.
    + intros H. now apply safeStringifyForPK_nonempty in H.
Qed.

Lemma configured_empty h record t m :
  PrimaryKey.extractPrimaryKey h record t m = Returns EmptyString ->
  exists key field,
    configuredKey m t = Some key /\ keysOf key = [field]
    /\ ToString h (get record field) = Returns EmptyString.
Proof.
  rewrite extractPrimaryKey_configured.
  destruct (configuredKey m t) as [key|]; [|discriminate].
  unfold PrimaryKey.extractConfiguredPrimaryKey.
  destruct (PrimaryKey.resolveKeys record (keysOf key) []) as [[resolved|]| |] eqn:Er;
    cbn [bind]; try discriminate.
  destruct (keysOf key) as [|field [|field' rest]] eqn:Ek.
  - destruct (PrimaryKey.safeStringifyForPK h resolved) as [s| |] eqn:Es; simpl; try discriminate.
    intros [= ->]. now apply safeStringifyForPK_nonempty in Es.
  - simpl in Er. destruct (String.eqb field "__proto__"); [discriminate|].
    destruct (isNullish (get record field)); [discriminate|].
    injection Er as <-. rewrite get_singleton.
    destruct (ToString h (get record field)) as [s| |] eqn:Es; simpl; try discriminate.
    intros [= ->]. exists key, field. auto.
  - destruct (PrimaryKey.safeStringifyForPK h resolved) as [s| |] eqn:Es; simpl; try discriminate.
    intros [= ->]. now apply safeStringifyForPK_nonempty in Es.
Qed.

Section Loops.
Variable filterFields : obj -> string -> NormalizedConfig -> obj.
Variable getChangedValues : obj -> obj -> option obj.
Import Update.

Local Abbreviation extractPK := PrimaryKeyHeuristic.extractPrimaryKey.

Lemma fromRow_cons h t r rows log : fromRow h t rows log -> fromRow h t (r :: rows) log.
Proof. intros [row [H1 H2]]. exists row. split; [now right|exact H2]. Qed.

Lemma fullRows_recordId h t config log : forall rows logs out,
  fullRows filterFields h t config rows logs = Returns out ->
  In log out -> In log logs \/ fromRow h t rows log.
Proof.
  induction rows as [|[after|] rows IH]; intros logs out E Hin; simpl in E.
  - injection E as <-. now left.
  -     destruct (extractPK h after t) as [id| |] eqn:Eid; simpl in E; try discriminate.
    destruct (IH _ _ E Hin) as [H|H].
    + apply in_app_iff in H. destruct H as [H|[<-|[]]]; [now left|].
      right. exists after. split; [now left|exact Eid].
    + right. now apply fromRow_cons.
  - destruct (IH _ _ E Hin) as [H|H]; [now left|right; now apply fromRow_cons].
Qed.

Lemma changedRows_recordId h t config m log : forall rows logs out,
  changedRows filterFields getChangedValues h t config m rows logs = Returns out ->
  In log out -> In log logs \/ fromRow h t rows log.
Proof.
  induction rows as [|[after|] rows IH]; intros logs out E Hin.
  - simpl in E. injection E as <-. now left.
  - rewrite changedRows_cons in E.
    destruct (changedStep filterFields getChangedValues h t config m after) as [out1| |] eqn:Es;
      simpl in E; try discriminate.
    destruct (IH _ _ E Hin) as [H|H]; [|right; now apply fromRow_cons].
    apply in_app_iff in H. destruct H as [H|H]; [now left|].
    right. exists after. split; [now left|].
    unfold changedStep in Es.
    destruct (extractPK h after t) as [id| |]; simpl in Es; try discriminate.
    destruct (mapGet m id).
    + destruct (getChangedValues _ _) as [cv|].
      * destruct (0 <? List.length (keys cv))%nat; injection Es as <-;
          [destruct H as [<-|[]]; reflexivity|destruct H].
      * injection Es as <-. destruct H.
    + injection Es as <-. destruct H as [<-|[]]. reflexivity.
  - simpl in E. destruct (IH _ _ E Hin) as [H|H]; [now left|right; now apply fromRow_cons].
Qed.

Lemma createUpdateAuditLogs_recordId h t before after config logs log :
  createUpdateAuditLogs filterFields getChangedValues h t before after config = Returns logs ->
  In log logs -> fromRow h t after log.
Proof.
  unfold createUpdateAuditLogs. destruct (_ || _).
  - intros E Hin. destruct (fullRows_recordId _ _ _ _ _ _ _ E Hin) as [[]|H]. exact H.
  - destruct (indexBefore h t before []) as [m| |]; simpl; try discriminate.
    intros E Hin. destruct (changedRows_recordId _ _ _ _ _ _ _ _ E Hin) as [[]|H]. exact H.
Qed.

End Loops.

End SerializerFacts.

Section CompositeKey.
Context {host : Host}.
Import PrimaryKey.

Lemma closedObj_set h k v o :
  closedValue h v = true -> closedObj h o = true -> closedObj h (set k v o) = true.
Proof.
  unfold closedObj. rewrite !forallb_forall. intros Hv Ho kv Hin.
  apply In_set in Hin. destruct Hin as [->|Hin]; [exact Hv|now apply Ho].
Qed.

Lemma resolveKeys_closed h record ks : forall acc resolved,
  closedObj h record = true -> closedObj h acc = true ->
  resolveKeys record ks acc = Returns (Some resolved) -> closedObj h resolved = true.
Proof.
  induction ks as [|k ks IH]; intros acc resolved Hr Ha; simpl.
  - now intros [= <-].
  - destruct (String.eqb k "__proto__"); [discriminate|].
    destruct (isNullish (get record k)); [discriminate|].
    apply IH; [exact Hr|]. apply closedObj_set; [now apply closedObj_get|exact Ha].
Qed.

Lemma dataObj_set k v o :
  dataValue v = true -> dataObj o = true -> dataObj (set k v o) = true.
Proof.
  unfold dataObj. rewrite !forallb_forall. intros Hv Ho kv Hin.
  apply In_set in Hin. destruct Hin as [->|Hin]; [exact Hv|now apply Ho].
Qed.

Lemma resolveKeys_data record ks : forall acc resolved,
  (forall k, In k ks -> dataValue (get record k) = true) -> dataObj acc = true ->
  resolveKeys record ks acc = Returns (Some resolved) -> dataObj resolved = true.
Proof.
  induction ks as [|k ks IH]; intros acc resolved Hr Ha; simpl.
  - now intros [= <-].
  - destruct (String.eqb k "__proto__"); [discriminate|].
    destruct (isNullish (get record k)); [discriminate|].
    apply IH; [intros k' Hk'; apply Hr; now right|].
    apply dataObj_set; [apply Hr; now left|exact Ha].
Qed.

(** The loop goes through when every field has a value and none is named
    [__proto__]. *)
Lemma resolveKeys_all record ks acc :
  ~ In "__proto__" ks ->
  (forall k, In k ks -> isNullish (get record k) = false) ->
  exists resolved, resolveKeys record ks acc = Returns (Some resolved).
Proof.
  intros Hp Hnn. destruct (resolveKeys_returns record ks acc Hp) as [[resolved|] E]; [eauto|].
  apply resolveKeys_None in E. destruct E as [k [Hin Hk]].
  rewrite (Hnn k Hin) in Hk. discriminate.
Qed.

Lemma set_append k v o :
  ~ In k (keys o) -> arrayIndex k = None -> set k v o = o ++ [(k, v)].
Proof.
  intros Hn Hi. unfold set, has. apply lookup_None_keys in Hn. now rewrite Hn, Hi.
Qed.

(** With distinct names, none an array index, the resolved mapping lists the
    key fields in the configured order. *)
Lemma resolveKeys_ordered record ks : forall acc,
  NoDup ks ->
  ~ In "__proto__" ks ->
  (forall k, In k ks -> arrayIndex k = None) ->
  (forall k, In k ks -> isNullish (get record k) = false) ->
  (forall k, In k ks -> ~ In k (keys acc)) ->
  resolveKeys record ks acc = Returns (Some (acc ++ map (fun k => (k, get record k)) ks)).
Proof.
  induction ks as [|k ks IH]; intros acc Hnd Hp Hidx Hnn Hfresh; simpl.
  - now rewrite app_nil_r.
  - destruct (String.eqb_spec k "__proto__") as [->|_]; [exfalso; apply Hp; now left|].
    rewrite (Hnn k (or_introl eq_refl)).
    rewrite set_append by (auto using in_eq).
    inversion Hnd as [|? ? Hk Hnd']; subst.
    rewrite IH;
      [now rewrite <- app_assoc|exact Hnd'|intros H; apply Hp; now right
      |auto using in_cons|auto using in_cons|].
    intros k' Hk' Hin. unfold keys in Hin. rewrite map_app, in_app_iff in Hin.
    destruct Hin as [Hin|[<-|[]]]; [now apply (Hfresh k' (in_cons _ _ _ Hk'))|].
    simpl in Hk. contradiction.
Qed.

Lemma resolveKeys_lookup record ks : forall acc resolved,
  resolveKeys record ks acc = Returns (Some resolved) ->
  forall k, lookup resolved k =
              if includes ks k then Some (get record k) else lookup acc k.
Proof.
  induction ks as [|k0 ks IH]; intros acc resolved; simpl.
  - now intros [= <-].
  - destruct (String.eqb k0 "__proto__"); [discriminate|].
    destruct (isNullish (get record k0)); [discriminate|].
    intros Er k. rewrite (IH _ _ Er k), lookup_set.
    destruct (includes ks k) eqn:Ei.
    + now rewrite orb_true_r.
    + rewrite orb_false_r. destruct (String.eqb_spec k k0) as [->|Hne].
      * now rewrite String.eqb_refl.
      * apply not_eq_sym, String.eqb_neq in Hne. now rewrite Hne.
Qed.

Lemma extractPrimaryKey_composite h record t m ks :
  configuredKey m t = Some (KeyList ks) ->
  List.length ks <> 1 ->
  forall resolved,
    resolveKeys record ks [] = Returns (Some resolved) ->
    extractPrimaryKey h record t m = safeStringifyForPK h resolved.
Proof.
  intros Hc Hlen resolved Hr. rewrite extractPrimaryKey_configured, Hc.
  unfold extractConfiguredPrimaryKey. cbn [keysOf]. rewrite Hr. cbn [bind].
  destruct ks as [|k [|k' ks]]; simpl in *; try lia;
    destruct (safeStringifyForPK h resolved); reflexivity.
Qed.

(** C5.  For a configured list of key fields (not exactly one, none named
    [__proto__]) that all hold data in the row, [extractPrimaryKey] throws
    nothing and returns what [safeStringifyForPK] makes of the mapping of
    those fields: the text that [JSON.stringify] with the replacer produces
    for it, whenever the values nest less deep than the host lets the
    serializer recurse, and otherwise that text or the text of the [catch]
    of [safeStringifyForPK].  For key values that are not objects the text
    lists the fields in the configured order.  A big integer is written as
    its decimal digits in a JSON string, an object already seen as the JSON
    string "[Circular]".  The ledger row of the specification gives the text
    with "9007199254740991" and "entryId":"e1". *)
Theorem composite_key_is_safe_json :
  (* the composite key is serialized, and nothing is thrown *)
  (forall h record tableName m ks,
      configuredKey m tableName = Some (KeyList ks) ->
      List.length ks <> 1 ->
      ~ In "__proto__" ks ->
      closedHeap h = true ->
      dataHeap h = true ->
      closedObj h record = true ->
      (forall field, In field ks ->
         isNullish (get record field) = false /\ dataValue (get record field) = true) ->
      exists resolved,
        resolveKeys record ks [] = Returns (Some resolved)
        /\ (forall field,
              lookup resolved field =
                if includes ks field then Some (get record field) else None)
        /\ let text := JSON_stringify (list addr) replacer (h ++ [OObject resolved]) []
                                      (VRef (List.length h)) in
           ((exists json,
                text = Returns (Some json)
                /\ extractPrimaryKey h record tableName m = Returns json)
            \/ (text = Throws (RangeError "Maximum call stack size exceeded")
                /\ stringifyDepth <= List.length h + 1
                /\ extractPrimaryKey h record tableName m = Returns (fallbackKey resolved)))
           /\ (List.length h + 1 < stringifyDepth ->
               exists json,
                 text = Returns (Some json)
                 /\ extractPrimaryKey h record tableName m = Returns json))
  (* the text, when the key values are not objects *)
  /\ (forall h record tableName m ks,
        configuredKey m tableName = Some (KeyList ks) ->
        List.length ks <> 1 ->
        NoDup ks ->
        ~ In "__proto__" ks ->
        (forall field, In field ks -> arrayIndex field = None) ->
        (forall field, In field ks ->
           isNullish (get record field) = false
           /\ isScalar (get record field) = true
           /\ dataValue (get record field) = true) ->
        extractPrimaryKey h record tableName m =
          Returns ("{" +++ join "," (scalarMembers (map (fun k => (k, get record k)) ks))
                   +++ "}"))
  (* a big integer becomes its decimal digits, as a JSON string *)
  /\ (forall h fuel stack seen key n,
        serPK h (S fuel) stack seen key (VBigInt n) =
          Returns (seen, Some (QuoteJSONString (Z_to_string n))))
  (* an object already seen becomes the string [Circular] *)
  /\ (forall h fuel stack seen key a,
        dataHeap h = true ->
        In a seen ->
        serPK h (S fuel) stack seen key (VRef a) =
          Returns (seen, Some (QuoteJSONString "[Circular]")))
  (* the ledger row of the specification *)
  /\ extractPrimaryKey [] ledgerRow "ledger" ledgerConfig =
       Returns ("{" +++ q "orgId" +++ ":" +++ q "9007199254740991" +++ ","
                +++ q "entryId" +++ ":" +++ q "e1" +++ "}").
Proof.
  split; [|split; [|split; [|split]]].
  - intros h record t m ks Hc Hlen Hp Hh Hd Hrec Hval.
    destruct (resolveKeys_all record ks [] Hp (fun k Hk => proj1 (Hval k Hk)))
      as [resolved Er].
    assert (Hres : closedObj h resolved = true)
      by (apply (resolveKeys_closed h record ks [] resolved Hrec eq_refl Er)).
    assert (Hdr : dataObj resolved = true)
      by (apply (resolveKeys_data record ks [] resolved
                   (fun k Hk => proj2 (Hval k Hk)) eq_refl Er)).
    exists resolved. split; [exact Er|].
    split; [intros field; apply (resolveKeys_lookup record ks [] resolved Er)|].
    cbv zeta. rewrite (extractPrimaryKey_composite h record t m ks Hc Hlen resolved Er).
    split.
    + exact (safeStringifyForPK_outcome h resolved Hh Hd Hres Hdr).
    + exact (safeStringifyForPK_returns h resolved Hh Hd Hres Hdr).
  - intros h record t m ks Hc Hlen Hnd Hp Hidx Hval.
    assert (Er : resolveKeys record ks []
                 = Returns (Some (map (fun k => (k, get record k)) ks))).
    { apply (resolveKeys_ordered record ks [] Hnd Hp Hidx).
      - intros k Hk. apply Hval, Hk.
      - intros k _ []. }
    rewrite (extractPrimaryKey_composite h record t m ks Hc Hlen _ Er).
    rewrite safeStringifyForPK_scalars; [reflexivity| |];
      unfold dataObj; rewrite forallb_forall; intros kv Hkv; apply in_map_iff in Hkv;
      destruct Hkv as [k [<- Hk]]; apply Hval, Hk.
  - reflexivity.
  - intros h fuel stack seen key a Hd Hin. apply memAddr_In in Hin.
    unfold serPK. cbn [SerializeJSONProperty]. rewrite (toJSON_ref h a Hd).
    cbn [bind replacer]. rewrite Hin. reflexivity.
  - rewrite (extractPrimaryKey_composite [] ledgerRow "ledger" ledgerConfig
               ["orgId"; "entryId"] eq_refl) with (resolved := ledgerRow);
      [|simpl; lia|reflexivity].
    now rewrite safeStringifyForPK_scalars.
Qed.

End CompositeKey.

(** C10.  There is a row without any cycle in which one object occurs as the
    value of two fields: [safeStringifyForPK] writes the object out at the
    first field and writes the JSON string "[Circular]" at the second, while
    the same object met once is written out in full. *)
Theorem circular_marks_a_repeated_object :
  forall host : Host,
  exists (h : heap) (record once : obj) (a : addr),
    closedHeap h = true
    /\ closedObj h record = true
    /\ depthAtMost (h ++ [OObject record]) 2 (VRef (List.length h)) = true
    /\ lookup record "a" = Some (VRef a)
    /\ lookup record "b" = Some (VRef a)
    /\ PrimaryKey.safeStringifyForPK h record =
         Returns ("{" +++ q "a" +++ ":{" +++ q "x" +++ ":1},"
                  +++ q "b" +++ ":" +++ q "[Circular]" +++ "}")
    /\ once = [("a", VRef a)]
    /\ PrimaryKey.safeStringifyForPK h once =
         Returns ("{" +++ q "a" +++ ":{" +++ q "x" +++ ":1}}").
Proof.
  intros host. exists sharedHeap, sharedRow, sharedOnce, 0. repeat split;
    unfold PrimaryKey.safeStringifyForPK, JSON_stringify;
    destruct (stringifyDepth_S (host := host)) as [n ->]; reflexivity.
Qed.

Section RecordIdFacts.
Context {host : Host}.
Import PrimaryKey.

Lemma ToString_empty_cases h v :
  ToString h v = Returns EmptyString ->
  v = VString EmptyString
  \/ (exists t, v = VDate t /\ dateToString t = EmptyString)
  \/ (exists a items, v = VRef a /\ nth_error h a = Some (OArray items)).
Proof.
  unfold ToString. generalize toStringDepth as fuel. intros fuel.
  destruct v as [| |b|n|n|s|t|a|f].
  - destruct fuel; discriminate.
  - destruct fuel; discriminate.
  - destruct fuel, b; discriminate.
  - assert (E : ToStringFuel h fuel [] (VNumber n) = printNumber n)
      by (destruct fuel; reflexivity).
    rewrite E. unfold printNumber, numberToString.
    destruct (isSafeInteger n); [|discriminate].
    intros [= H]. now apply Z_to_string_nonempty in H.
  - assert (E : ToStringFuel h fuel [] (VBigInt n) = Returns (Z_to_string n))
      by (destruct fuel; reflexivity).
    rewrite E. intros [= H]. now apply Z_to_string_nonempty in H.
  - assert (E : ToStringFuel h fuel [] (VString s) = Returns s)
      by (destruct fuel; reflexivity).
    rewrite E. intros [= ->]. now left.
  - assert (E : ToStringFuel h fuel [] (VDate t) = Returns (dateToString t))
      by (destruct fuel; reflexivity).
    rewrite E. intros [= H]. right. left. eauto.
  - destruct (nth_error h a) as [[fs|items]|] eqn:E.
    + assert (E' : ToStringFuel h fuel [] (VRef a) = objectToString fs)
        by (destruct fuel; simpl; now rewrite E).
      rewrite E'. unfold objectToString.
      destruct (lookup fs "toString") as [[]|]; try discriminate;
        destruct (lookup fs "valueOf") as [[]|]; discriminate.
    + intros _. right. right. eauto.
    + assert (E' : ToStringFuel h fuel [] (VRef a) = NoResult)
        by (destruct fuel; simpl; now rewrite E).
      rewrite E'. discriminate.
  - destruct fuel; discriminate.
Qed.

(** C4, as amended.  A record identifier is the string form of the key that
    was selected, so it is empty only when a single key field holds a value
    whose string form is empty: the configured extractor returns the empty
    string only for a one-field key with such a value; every record of
    [createUpdateAuditLogs] carries the primary key of one of the after
    rows, and an empty one comes from a field of that row with such a value;
    and the string form of a value is empty only for the empty string, for a
    date the host prints as empty, or for an array.  Composite keys,
    numbers, big integers, booleans and non-empty strings never give an
    empty identifier. *)
Theorem recordId_empty_only_for_empty_key_text :
  (forall h record tableName m,
      PrimaryKey.extractPrimaryKey h record tableName m = Returns EmptyString ->
      exists key field,
        configuredKey m tableName = Some key
        /\ keysOf key = [field]
        /\ ToString h (get record field) = Returns EmptyString)
  /\ (forall (filterFields : obj -> string -> NormalizedConfig -> obj)
             (getChangedValues : obj -> obj -> option obj)
             h tableName before after config logs log,
        Update.createUpdateAuditLogs filterFields getChangedValues
                                     h tableName before after config = Returns logs ->
        In log logs ->
        exists row,
          In (Some row) after
          /\ PrimaryKeyHeuristic.extractPrimaryKey h row tableName = Returns (recordId log)
          /\ (recordId log = EmptyString ->
              exists field, In field (keys row)
                            /\ ToString h (get row field) = Returns EmptyString))
  /\ (forall h v,
        ToString h v = Returns EmptyString ->
        v = VString EmptyString
        \/ (exists t, v = VDate t /\ dateToString t = EmptyString)
        \/ (exists a items, v = VRef a /\ nth_error h a = Some (OArray items))).
Proof.
  split; [|split].
  - intros h record t m. exact (configured_empty h record t m).
  - intros ff gcv h t before after config logs log E Hin.
    destruct (createUpdateAuditLogs_recordId ff gcv h t before after config logs log E Hin)
      as [row [Hrow Hid]].
    exists row. split; [exact Hrow|]. split; [exact Hid|].
    intros He. rewrite He in Hid. exact (heuristic_empty h row t Hid).
  - apply ToString_empty_cases.
Qed.

End RecordIdFacts.

(** C4, as stated, fails: a row whose [id] is the empty string gets the empty
    record identifier, from the extractor and in the emitted UPDATE record. *)
Lemma recordId_can_be_empty :
  PrimaryKey.extractPrimaryKey (host := exampleHost) [] emptyIdRow "users" usersConfig
    = Returns EmptyString
  /\ Update.createUpdateAuditLogs (host := exampleHost)
       (fun row _ _ => row) (fun _ _ => None)
       [] "users" [] [Some emptyIdRow] (config0 full)
     = Returns [{| action := "UPDATE"; tableName := "users"; recordId := EmptyString;
                   values := Some emptyIdRow; metadata := None |}].
Proof. split; reflexivity. Qed.

(* ================================================================= *)
(** * Further properties of the code *)

Import JsonText KeyNotions Unshared UpdateNotions MetadataNotions.

(** ** JSON text can be read back *)

Section JsonTextFacts.

Lemma unquoteChar_quoteChar c x : unquoteChar (quoteChar c +++ x) = Some (c, x).
Proof.
  destruct c as [[] [] [] [] [] [] [] []]; reflexivity.
Qed.

Lemma append_assoc' (a b c : string) : (a +++ b) +++ c = a +++ (b +++ c).
Proof. induction a; simpl; congruence. Qed.

Lemma append_inv_head (a x y : string) : a +++ x = a +++ y -> x = y.
Proof. induction a; simpl; [auto|]. intros [= H]. auto. Qed.

Lemma quoteChar_inj c1 c2 x1 x2 :
  quoteChar c1 +++ x1 = quoteChar c2 +++ x2 -> c1 = c2 /\ x1 = x2.
Proof.
  intros H. pose proof (unquoteChar_quoteChar c1 x1) as H1.
  rewrite H, unquoteChar_quoteChar in H1. now injection H1 as <- <-.
Qed.

Lemma quoteChar_not_quote c x y : quoteChar c +++ x <> dquote +++ y.
Proof.
  intros H. pose proof (unquoteChar_quoteChar c x) as H1.
  rewrite H in H1. discriminate.
Qed.

Lemma quoteChars_inj s1 : forall s2 r1 r2,
  quoteChars s1 +++ dquote +++ r1 = quoteChars s2 +++ dquote +++ r2 ->
  s1 = s2 /\ r1 = r2.
Proof.
  induction s1 as [|c1 s1 IH]; intros [|c2 s2] r1 r2; cbn [quoteChars].
  - intros H. apply (append_inv_head dquote) in H. auto.
  - rewrite append_assoc'. intros H. symmetry in H. now apply quoteChar_not_quote in H.
  - rewrite append_assoc'. intros H. now apply quoteChar_not_quote in H.
  - rewrite !append_assoc'. intros H. apply quoteChar_inj in H. destruct H as [<- H].
    apply IH in H. destruct H as [<- <-]. auto.
Qed.

Lemma QuoteJSONString_inj s1 s2 r1 r2 :
  QuoteJSONString s1 +++ r1 = QuoteJSONString s2 +++ r2 -> s1 = s2 /\ r1 = r2.
Proof.
  unfold QuoteJSONString. rewrite !append_assoc'. intros H.
  apply append_inv_head in H. now apply quoteChars_inj.
Qed.

Lemma string_of_uint_inj d1 : forall d2 r1 r2,
  afterValue r1 = true -> afterValue r2 = true ->
  NilEmpty.string_of_uint d1 +++ r1 = NilEmpty.string_of_uint d2 +++ r2 ->
  d1 = d2 /\ r1 = r2.
Proof.
  induction d1 as [|d1 IH|d1 IH|d1 IH|d1 IH|d1 IH|d1 IH|d1 IH|d1 IH|d1 IH|d1 IH];
    intros [|d2|d2|d2|d2|d2|d2|d2|d2|d2|d2] r1 r2 H1 H2; simpl; intros H;
    try (subst; discriminate);
    try (injection H as H; destruct (IH _ _ _ H1 H2 H) as [<- <-]; auto);
    auto.
Qed.

Lemma Z_to_string_inj n1 n2 r1 r2 :
  afterValue r1 = true -> afterValue r2 = true ->
  Z_to_string n1 +++ r1 = Z_to_string n2 +++ r2 -> n1 = n2 /\ r1 = r2.
Proof.
  intros H1 H2 H. unfold Z_to_string in H.
  assert (Hi : Z.to_int n1 = Z.to_int n2 /\ r1 = r2).
  { destruct (Z.to_int n1) as [d1|d1] eqn:E1, (Z.to_int n2) as [d2|d2] eqn:E2; simpl in H.
    - destruct (string_of_uint_inj _ _ _ _ H1 H2 H) as [<- <-]. auto.
    - exfalso. destruct d1; simpl in H; try discriminate. subst r1. discriminate.
    - exfalso. destruct d2; simpl in H; try discriminate. subst r2. discriminate.
    - injection H as H. destruct (string_of_uint_inj _ _ _ _ H1 H2 H) as [<- <-]. auto. }
  destruct Hi as [Hi <-]. split; [|reflexivity].
  rewrite <- (DecimalZ.of_to n1), <- (DecimalZ.of_to n2). now rewrite Hi.
Qed.

End JsonTextFacts.

(** Replaces the code of a literal character by its number. *)
Ltac char_codes :=
  repeat match goal with
         | |- context [nat_of_ascii ?c] =>
             let v := eval vm_compute in (nat_of_ascii c) in
             change (nat_of_ascii c) with v
         | H : context [nat_of_ascii ?c] |- _ =>
             let v := eval vm_compute in (nat_of_ascii c) in
             change (nat_of_ascii c) with v in H
         end.

Lemma Z_to_string_head n r :
  exists c w, Z_to_string n +++ r = String c w
              /\ (nat_of_ascii c = 45 \/ 48 <= nat_of_ascii c <= 57).
Proof.
  unfold Z_to_string. destruct n as [|p|p]; simpl.
  - eexists _, _. split; [reflexivity|]. right. char_codes. lia.
  - pose proof (Unsigned.to_uint_nonnil p) as H.
    destruct (Pos.to_uint p); [now contradiction H|..]; simpl;
      eexists _, _; (split; [reflexivity|]); right; char_codes; lia.
  - eexists _, _. split; [reflexivity|]. left. reflexivity.
Qed.

(** Closes a goal with [H : Z_to_string n +++ r = text] where the text
    starts like no number. *)
Ltac number_head n r H :=
  let c := fresh "c" in
  let w := fresh "w" in
  let E := fresh "E" in
  let Hc := fresh "Hc" in
  exfalso; destruct (Z_to_string_head n r) as [c [w [E Hc]]];
  unfold QuoteJSONString, dquote in H; simpl in H; rewrite E in H;
  injection H as H _; subst c; char_codes; lia.

Section Tokens.
Context {host : Host}.
Import PrimaryKey.

Lemma scalarJSON_token v s : scalarJSON v = Some s -> token s.
Proof.
  destruct v as [| |[]| | | |[]| |]; simpl; intros [= <-]; constructor.
Qed.

(** In an object text a value ends where the next member or the closing
    brace starts: two texts that agree up to there hold the same value. *)
Lemma token_inj s1 s2 r1 r2 :
  token s1 -> token s2 ->
  afterValue r1 = true -> afterValue r2 = true ->
  s1 +++ r1 = s2 +++ r2 -> s1 = s2 /\ r1 = r2.
Proof.
  intros T1 T2 A1 A2 H.
  destruct T1 as [| | |n1|x1], T2 as [| | |n2|x2];
    try (injection H as <-; auto; fail);
    try (discriminate H);
    try (number_head n1 r1 H);
    try (number_head n2 r2 H).
  - destruct (Z_to_string_inj _ _ _ _ A1 A2 H) as [<- <-]. auto.
  - destruct (QuoteJSONString_inj _ _ _ _ H) as [<- <-]. auto.
Qed.

Lemma afterValue_membersTail ps : afterValue (membersTail ps) = true.
Proof. destruct ps; reflexivity. Qed.

Lemma join_cons sep x y rest :
  join sep (x :: y :: rest) = x +++ sep +++ join sep (y :: rest).
Proof. reflexivity. Qed.

Lemma members_cons p ps :
  join "," (map memberText (p :: ps)) +++ "}"
  = QuoteJSONString (fst p) +++ ":" +++ snd p +++ membersTail ps.
Proof.
  destruct ps as [|p' ps]; cbn [map membersTail].
  - cbn [join]. unfold memberText. now rewrite !append_assoc'.
  - rewrite join_cons. unfold memberText at 1. now rewrite !append_assoc'.
Qed.

(** An object text determines its members. *)
Lemma members_inj ps1 : forall ps2,
  Forall (fun p => token (snd p)) ps1 ->
  Forall (fun p => token (snd p)) ps2 ->
  join "," (map memberText ps1) +++ "}" = join "," (map memberText ps2) +++ "}" ->
  ps1 = ps2.
Proof.
  induction ps1 as [|[k1 s1] ps1 IH]; intros [|[k2 s2] ps2] F1 F2 H.
  - reflexivity.
  - rewrite members_cons in H. discriminate H.
  - rewrite members_cons in H. discriminate H.
  - rewrite !members_cons in H. cbn [fst snd] in H.
    apply QuoteJSONString_inj in H. destruct H as [<- H].
    apply (append_inv_head ":") in H.
    inversion F1 as [|? ? T1 F1']; inversion F2 as [|? ? T2 F2']; subst.
    cbn [snd] in T1, T2.
    destruct (token_inj _ _ _ _ T1 T2 (afterValue_membersTail _) (afterValue_membersTail _) H)
      as [<- Ht].
    f_equal. apply IH; [assumption..|].
    destruct ps1 as [|p1 ps1], ps2 as [|p2 ps2]; try reflexivity; try discriminate Ht.
    cbn [membersTail] in Ht. now apply (append_inv_head ",") in Ht.
Qed.

Lemma scalarMembers_textsOf o : scalarMembers o = map memberText (textsOf o).
Proof.
  induction o as [|[k v] o IH]; [reflexivity|].
  unfold scalarMembers, textsOf in *. cbn [flat_map fst snd]. rewrite IH, map_app.
  destruct (scalarJSON v); reflexivity.
Qed.

Lemma textsOf_tokens o : Forall (fun p => token (snd p)) (textsOf o).
Proof.
  unfold textsOf. induction o as [|[k v] o IH]; simpl; [constructor|].
  destruct (scalarJSON v) as [s|] eqn:E; simpl; [|exact IH].
  constructor; [|exact IH]. simpl. eapply scalarJSON_token, E.
Qed.

(** For objects whose values are not objects, [safeStringifyForPK] gives the
    same text exactly when the fields it writes and their texts are the
    same. *)
Lemma safeStringifyForPK_inj h1 h2 o1 o2 :
  forallb (fun kv => isScalar (snd kv)) o1 = true ->
  forallb (fun kv => isScalar (snd kv)) o2 = true ->
  dataObj o1 = true -> dataObj o2 = true ->
  (safeStringifyForPK h1 o1 = safeStringifyForPK h2 o2 <-> textsOf o1 = textsOf o2).
Proof.
  intros S1 S2 D1 D2. rewrite !safeStringifyForPK_scalars by assumption.
  rewrite !scalarMembers_textsOf. split.
  - intros [= H]. apply members_inj; auto using textsOf_tokens.
  - now intros ->.
Qed.

(** On strings, numbers and booleans the text determines the value. *)
Lemma scalarJSON_plain_inj v1 v2 :
  isPlain v1 = true -> isPlain v2 = true -> scalarJSON v1 = scalarJSON v2 -> v1 = v2.
Proof.
  intros P1 P2 H.
  destruct v1 as [| |b1|n1|n1|x1|t1|a1|f1]; try discriminate;
    destruct v2 as [| |b2|n2|n2|x2|t2|a2|f2]; try discriminate; simpl in H.
  - destruct b1, b2; try reflexivity; discriminate.
  - exfalso. destruct b1; injection H as H; apply (f_equal (fun s => s +++ "}")) in H;
      symmetry in H; number_head n2 "}" H.
  - destruct b1; discriminate.
  - exfalso. destruct b2; injection H as H; apply (f_equal (fun s => s +++ "}")) in H;
      number_head n1 "}" H.
  - injection H as H. apply (f_equal (fun s => s +++ "}")) in H.
    now destruct (Z_to_string_inj n1 n2 "}" "}" eq_refl eq_refl H) as [<- _].
  - exfalso. injection H as H. apply (f_equal (fun s => s +++ "}")) in H.
    symmetry in H. number_head n1 "}" H.
  - destruct b2; discriminate.
  - exfalso. injection H as H. apply (f_equal (fun s => s +++ "}")) in H.
    number_head n2 "}" H.
  - assert (H' : QuoteJSONString x1 +++ "}" = QuoteJSONString x2 +++ "}") by congruence.
    now destruct (QuoteJSONString_inj _ _ _ _ H') as [<- _].
Qed.

End Tokens.

(** ** Composite keys of distinct rows are distinct *)

Section KeyOrder.
Context {host : Host}.
Import PrimaryKey.

Lemma has_keys_eq (o1 o2 : obj) k : keys o1 = keys o2 -> has o1 k = has o2 k.
Proof.
  intros H. unfold has.
  destruct (lookup o1 k) eqn:E1, (lookup o2 k) eqn:E2; try reflexivity; exfalso.
  - apply lookup_Some_keys in E1. apply lookup_None_keys in E2. congruence.
  - apply lookup_Some_keys in E2. apply lookup_None_keys in E1. congruence.
Qed.

Lemma keys_insertIndex_eq n k v1 v2 : forall o1 o2,
  keys o1 = keys o2 -> keys (insertIndex n k v1 o1) = keys (insertIndex n k v2 o2).
Proof.
  induction o1 as [|[k1 w1] o1 IH]; intros [|[k2 w2] o2]; simpl; try discriminate.
  - reflexivity.
  - intros [= <- H]. destruct (arrayIndex k1) as [m|]; simpl; [|now rewrite H].
    destruct (m <? n)%N; simpl; [|now rewrite H]. f_equal. now apply IH.
Qed.

Lemma keys_set_eq k v1 v2 o1 o2 :
  keys o1 = keys o2 -> keys (set k v1 o1) = keys (set k v2 o2).
Proof.
  intros H. unfold set. rewrite (has_keys_eq o1 o2 k H).
  destruct (has o2 k).
  - now rewrite !keys_replaceValue.
  - destruct (arrayIndex k); [now apply keys_insertIndex_eq|].
    unfold keys in *. rewrite !map_app, H. reflexivity.
Qed.

(** The order of the resolved fields does not depend on the row. *)
Lemma resolveKeys_keys r1 r2 ks : forall acc1 acc2 res1 res2,
  keys acc1 = keys acc2 ->
  resolveKeys r1 ks acc1 = Returns (Some res1) ->
  resolveKeys r2 ks acc2 = Returns (Some res2) ->
  keys res1 = keys res2.
Proof.
  induction ks as [|k ks IH]; intros acc1 acc2 res1 res2 Hk; simpl.
  - now intros [= <-] [= <-].
  - destruct (String.eqb k "__proto__"); [discriminate|].
    destruct (isNullish (get r1 k)); [discriminate|].
    destruct (isNullish (get r2 k)); [discriminate|].
    apply IH. now apply keys_set_eq.
Qed.

Lemma resolveKeys_NoDup r ks : forall acc res,
  NoDup (keys acc) -> resolveKeys r ks acc = Returns (Some res) -> NoDup (keys res).
Proof.
  induction ks as [|k ks IH]; intros acc res Hn; simpl.
  - now intros [= <-].
  - destruct (String.eqb k "__proto__"); [discriminate|].
    destruct (isNullish (get r k)); [discriminate|].
    apply IH. now apply NoDup_keys_set.
Qed.

Lemma obj_by_keys (f : string -> value) (o : obj) :
  (forall k v, In (k, v) o -> v = f k) -> o = map (fun k => (k, f k)) (keys o).
Proof.
  induction o as [|[k v] o IH]; intros H; simpl; [reflexivity|].
  rewrite <- (H k v (or_introl eq_refl)). f_equal. apply IH.
  intros k' v' Hin. apply H. now right.
Qed.

(** The resolved mapping holds the row's values of the key fields, in an
    order fixed by the field names. *)
Lemma resolveKeys_shape r ks res :
  resolveKeys r ks [] = Returns (Some res) ->
  res = map (fun k => (k, get r k)) (keys res)
  /\ (forall k, In k (keys res) <-> In k ks).
Proof.
  intros E. pose proof (resolveKeys_lookup r ks [] res E) as L.
  pose proof (resolveKeys_NoDup r ks [] res (NoDup_nil _) E) as N.
  split.
  - apply obj_by_keys. intros k v Hin.
    pose proof (In_lookup_NoDup res k v N Hin) as Hl. rewrite L in Hl.
    destruct (includes ks k); [now injection Hl as <-|discriminate].
  - intros k. specialize (L k). split; intros H.
    + destruct (lookup res k) eqn:El.
      * destruct (includes ks k) eqn:Ei; [|discriminate]. now apply includes_In.
      * apply lookup_None_keys in El. contradiction.
    + apply includes_In in H. rewrite H in L. eapply lookup_Some_keys, L.
Qed.

End KeyOrder.


Section NoCollision.
Context {host : Host}.
Import PrimaryKey.

Lemma isPlain_isScalar v : isPlain v = true -> isScalar v = true.
Proof. destruct v; try discriminate; reflexivity. Qed.

Lemma isPlain_dataValue v : isPlain v = true -> dataValue v = true.
Proof. destruct v; try discriminate; auto. Qed.

Lemma isPlain_not_nullish v : isPlain v = true -> isNullish v = false.
Proof. destruct v; try discriminate; reflexivity. Qed.

Lemma scalarJSON_Some v :
  isScalar v = true -> isNullish v = false -> dataValue v = true ->
  exists s, scalarJSON v = Some s.
Proof. destruct v as [| |[]| | | |[]| |]; try discriminate; simpl; eauto. Qed.

Lemma textsOf_fields (f1 f2 : string -> value) : forall K,
  (forall k, In k K -> (exists s, scalarJSON (f1 k) = Some s)
                       /\ (exists s, scalarJSON (f2 k) = Some s)) ->
  (textsOf (map (fun k => (k, f1 k)) K) = textsOf (map (fun k => (k, f2 k)) K)
   <-> forall k, In k K -> scalarJSON (f1 k) = scalarJSON (f2 k)).
Proof.
  induction K as [|k K IH]; intros HS; [split; [intros _ k []|reflexivity]|].
  destruct (HS k (or_introl eq_refl)) as [[s1 E1] [s2 E2]].
  assert (HS' : forall k, In k K -> (exists s, scalarJSON (f1 k) = Some s)
                                    /\ (exists s, scalarJSON (f2 k) = Some s))
    by (intros; apply HS; now right).
  specialize (IH HS'). unfold textsOf in *. cbn [map flat_map fst snd].
  rewrite E1, E2. cbn [app]. split.
  - intros [= <- H] k0 [<-|Hin]; [congruence|]. now apply IH.
  - intros H. pose proof (H k (or_introl eq_refl)) as Hk. rewrite E1, E2 in Hk.
    injection Hk as <-. f_equal. apply IH. intros k0 Hk0. apply H. now right.
Qed.

(** A key value that is data, neither an object nor null. *)
Local Abbreviation keyValue := (fun v : value =>
  isScalar v = true /\ isNullish v = false /\ dataValue v = true).

(** The identifier of a composite key is the text of the mapping of the key
    fields, in an order fixed by their names. *)
Lemma composite_resolved h r t m ks :
  configuredKey m t = Some (KeyList ks) ->
  List.length ks <> 1 ->
  ~ In "__proto__" ks ->
  (forall f, In f ks -> keyValue (get r f)) ->
  exists res,
    resolveKeys r ks [] = Returns (Some res)
    /\ res = map (fun k => (k, get r k)) (keys res)
    /\ (forall k, In k (keys res) <-> In k ks)
    /\ forallb (fun kv => isScalar (snd kv)) res = true
    /\ dataObj res = true
    /\ extractPrimaryKey h r t m = safeStringifyForPK h res.
Proof.
  intros Hc Hl Hp HS.
  destruct (resolveKeys_all r ks [] Hp (fun k Hk => proj1 (proj2 (HS k Hk)))) as [res Er].
  exists res. split; [exact Er|].
  destruct (resolveKeys_shape r ks res Er) as [Hres Hk].
  split; [exact Hres|]. split; [exact Hk|]. split; [|split].
  - rewrite Hres, forallb_forall. intros kv Hin. apply in_map_iff in Hin.
    destruct Hin as [k [<- Hin]]. simpl. apply HS, Hk, Hin.
  - rewrite Hres. unfold dataObj. rewrite forallb_forall. intros kv Hin.
    apply in_map_iff in Hin. destruct Hin as [k [<- Hin]]. simpl. apply HS, Hk, Hin.
  - exact (extractPrimaryKey_composite h r t m ks Hc Hl res Er).
Qed.

Lemma composite_same_texts h1 h2 r1 r2 t m ks :
  configuredKey m t = Some (KeyList ks) ->
  List.length ks <> 1 ->
  ~ In "__proto__" ks ->
  (forall f, In f ks -> keyValue (get r1 f)) ->
  (forall f, In f ks -> keyValue (get r2 f)) ->
  (extractPrimaryKey h1 r1 t m = extractPrimaryKey h2 r2 t m
   <-> forall f, In f ks -> scalarJSON (get r1 f) = scalarJSON (get r2 f)).
Proof.
  intros Hc Hl Hp HS1 HS2.
  destruct (composite_resolved h1 r1 t m ks Hc Hl Hp HS1)
    as [res1 [Er1 [R1 [K1 [S1 [D1 E1]]]]]].
  destruct (composite_resolved h2 r2 t m ks Hc Hl Hp HS2)
    as [res2 [Er2 [R2 [K2 [S2 [D2 E2]]]]]].
  pose proof (resolveKeys_keys r1 r2 ks [] [] res1 res2 eq_refl Er1 Er2) as HK.
  rewrite E1, E2, (safeStringifyForPK_inj h1 h2 res1 res2 S1 S2 D1 D2).
  rewrite R1, R2, <- HK, textsOf_fields.
  - split; intros H f Hf; apply H; now apply K1.
  - intros k Hk. apply K1 in Hk.
    split; apply scalarJSON_Some; try apply HS1; try apply HS2; assumption.
Qed.

(** Composite keys do not collide.  For a configured list of key fields (not
    exactly one, none named [__proto__]) whose values in two rows are data,
    neither objects nor null, the rows get the same identifier if and only
    if every key field has the same JSON text in both; for strings, numbers
    and booleans that is: if and only if the rows agree on every key field.
    (A big integer has the text of the string of its digits, a date that of
    its ISO string.) *)
Theorem composite_keys_do_not_collide :
  forall h1 h2 r1 r2 tableName m ks,
    configuredKey m tableName = Some (KeyList ks) ->
    List.length ks <> 1 ->
    ~ In "__proto__" ks ->
    ((forall field, In field ks ->
        (isScalar (get r1 field) = true /\ isNullish (get r1 field) = false
         /\ dataValue (get r1 field) = true)
        /\ (isScalar (get r2 field) = true /\ isNullish (get r2 field) = false
            /\ dataValue (get r2 field) = true)) ->
     (extractPrimaryKey h1 r1 tableName m = extractPrimaryKey h2 r2 tableName m
      <-> forall field, In field ks ->
            scalarJSON (get r1 field) = scalarJSON (get r2 field)))
    /\ ((forall field, In field ks ->
           isPlain (get r1 field) = true /\ isPlain (get r2 field) = true) ->
        (extractPrimaryKey h1 r1 tableName m = extractPrimaryKey h2 r2 tableName m
         <-> forall field, In field ks -> get r1 field = get r2 field)).
Proof.
  intros h1 h2 r1 r2 t m ks Hc Hl Hp. split.
  - intros HS. apply composite_same_texts; auto; intros f Hf; apply HS, Hf.
  - intros HP.
    rewrite (composite_same_texts h1 h2 r1 r2 t m ks Hc Hl Hp).
    + split; intros H f Hf.
      * apply scalarJSON_plain_inj; [apply HP, Hf..|apply H, Hf].
      * now rewrite (H f Hf).
    + intros f Hf. destruct (HP f Hf) as [P _].
      auto using isPlain_isScalar, isPlain_not_nullish, isPlain_dataValue.
    + intros f Hf. destruct (HP f Hf) as [_ P].
      auto using isPlain_isScalar, isPlain_not_nullish, isPlain_dataValue.
Qed.

End NoCollision.

(** ** The marker for repeated objects is written for nothing else *)

Section UnsharedFacts.
Context {host : Host}.
Import PrimaryKey.

Local Abbreviation serPlain := (SerializeJSONProperty unit plainReplacer).

Lemma serPlain_scalar h fuel stack key v :
  isScalar v = true ->
  dataValue v = true ->
  serPlain h (S fuel) stack tt key v = Returns (tt, scalarJSON v).
Proof.
  destruct v as [| |b|n|n|s|t|a|f]; try reflexivity; try discriminate.
  - destruct b; reflexivity.
  - intros _ Hn. cbn. now rewrite (printNumber_safe n Hn).
  - destruct t; reflexivity.
Qed.

Lemma visitAll_ext (f g : list addr -> value -> option (list addr)) :
  (forall seen v seen', f seen v = Some seen' -> g seen v = Some seen') ->
  forall vs seen seen', visitAll f seen vs = Some seen' -> visitAll g seen vs = Some seen'.
Proof.
  intros H vs. induction vs as [|v vs IH]; intros seen seen'; simpl; [auto|].
  destruct (f seen v) as [s1|] eqn:E; [|discriminate].
  rewrite (H _ _ _ E). apply IH.
Qed.

(** A larger budget changes nothing for a record that was gone through. *)
Lemma visit_fuel h : forall fuel fuel' seen v seen',
  fuel <= fuel' -> visit h fuel seen v = Some seen' -> visit h fuel' seen v = Some seen'.
Proof.
  induction fuel as [|fuel IH]; intros fuel' seen v seen' Hle;
    destruct v as [| |b|n|n|s|t|a0|f]; destruct fuel'; simpl; try (now auto); try lia;
    destruct (memAddr a0 seen); try discriminate.
  destruct (nth_error h a0) as [[fs|items]|]; try discriminate;
    apply visitAll_ext; intros; eapply IH; try eassumption; lia.
Qed.

Lemma visitAll_mono (visit1 : list addr -> value -> option (list addr)) :
  (forall seen v seen', visit1 seen v = Some seen' -> forall a, In a seen -> In a seen') ->
  forall vs seen seen',
    visitAll visit1 seen vs = Some seen' -> forall a, In a seen -> In a seen'.
Proof.
  intros H vs. induction vs as [|v vs IH]; intros seen seen'; simpl.
  - now intros [= <-].
  - destruct (visit1 seen v) as [s1|] eqn:E; [|discriminate].
    intros E' a Ha. eapply IH; [exact E'|]. eapply H; eassumption.
Qed.

Lemma visit_mono h fuel : forall seen v seen',
  visit h fuel seen v = Some seen' -> forall a, In a seen -> In a seen'.
Proof.
  induction fuel as [|fuel IH]; intros seen v seen'; destruct v as [| |b|n|n|s|t|a0|f];
    simpl; try (now intros [= <-]);
    destruct (memAddr a0 seen); try discriminate.
  destruct (nth_error h a0) as [[fs|items]|]; try discriminate;
    intros E a Ha; (eapply (visitAll_mono _ IH); [exact E|now right]).
Qed.

(** One step of the serializer at an object that the replacer lets through. *)
Lemma SerializeJSONProperty_ref (St : Type)
    (replacer : St -> string -> value -> outcome (value * St))
    h fuel stack st key a st1 :
  toJSON h (VRef a) = Returns (VRef a) ->
  replacer st key (VRef a) = Returns (VRef a, st1) ->
  memAddr a stack = false ->
  SerializeJSONProperty St replacer h (S fuel) stack st key (VRef a) =
    match nth_error h a with
    | None => NoResult
    | Some (OObject fs) =>
        ' (st2, ms) <- serMembers St (SerializeJSONProperty St replacer h fuel (a :: stack))
                         st1 fs ;;
        Returns (st2, Some ("{" +++ join "," ms +++ "}"))
    | Some (OArray items) =>
        ' (st2, ms) <- serElements St (SerializeJSONProperty St replacer h fuel (a :: stack))
                         st1 0 items ;;
        Returns (st2, Some ("[" +++ join "," ms +++ "]"))
    end.
Proof.
  intros Hj Hr Hm. cbn [SerializeJSONProperty]. rewrite Hj. cbn [bind].
  rewrite Hr. cbn [bind]. rewrite Hm. reflexivity.
Qed.

Section Members.
Variables (h : heap) (fuel : nat).
Hypothesis IH : forall stack seen key v seen',
  dataValue v = true ->
  visit h fuel seen v = Some seen' ->
  (forall a, In a stack -> In a seen) ->
  exists r,
    serPK h (S fuel) stack seen key v = Returns (seen', r)
    /\ serPlain h (S fuel) stack tt key v = Returns (tt, r).

Lemma serMembers_unshared stack : forall fs seen seen',
  dataObj fs = true ->
  visitAll (visit h fuel) seen (map snd fs) = Some seen' ->
  (forall a, In a stack -> In a seen) ->
  exists ms,
    serMembers (list addr) (serPK h (S fuel) stack) seen fs = Returns (seen', ms)
    /\ serMembers unit (serPlain h (S fuel) stack) tt fs = Returns (tt, ms).
Proof.
  induction fs as [|[k v] fs IHfs]; intros seen seen' Hd E Hst; simpl in E.
  - injection E as <-. exists []. auto.
  - simpl in Hd. apply andb_prop in Hd. destruct Hd as [Hdv Hd].
    destruct (visit h fuel seen v) as [s1|] eqn:Ev; [|discriminate].
    destruct (IH stack seen k v s1 Hdv Ev Hst) as [r [E1 E2]].
    destruct (IHfs s1 seen' Hd E) as [ms [E3 E4]].
    { intros a Ha. eapply visit_mono; [exact Ev|auto]. }
    cbn [serMembers]. rewrite E1, E2. cbn [bind]. rewrite E3, E4. cbn [bind].
    eexists. split; reflexivity.
Qed.

Lemma serElements_unshared stack : forall items index seen seen',
  forallb dataValue items = true ->
  visitAll (visit h fuel) seen items = Some seen' ->
  (forall a, In a stack -> In a seen) ->
  exists ms,
    serElements (list addr) (serPK h (S fuel) stack) seen index items = Returns (seen', ms)
    /\ serElements unit (serPlain h (S fuel) stack) tt index items = Returns (tt, ms).
Proof.
  induction items as [|v items IHi]; intros index seen seen' Hd E Hst; simpl in E.
  - injection E as <-. exists []. auto.
  - simpl in Hd. apply andb_prop in Hd. destruct Hd as [Hdv Hd].
    destruct (visit h fuel seen v) as [s1|] eqn:Ev; [|discriminate].
    destruct (IH stack seen (nat_to_string index) v s1 Hdv Ev Hst) as [r [E1 E2]].
    destruct (IHi (S index) s1 seen' Hd E) as [ms [E3 E4]].
    { intros a Ha. eapply visit_mono; [exact Ev|auto]. }
    cbn [serElements]. rewrite E1, E2. cbn [bind]. rewrite E3, E4. cbn [bind].
    eexists. split; reflexivity.
Qed.

End Members.

(** Where no object is met twice the [WeakSet] of the replacer plays no
    part: the serializer gives the text it gives without it, and the set
    ends up holding the objects met. *)
Lemma serPK_unshared h : dataHeap h = true ->
  forall fuel stack seen key v seen',
  dataValue v = true ->
  visit h fuel seen v = Some seen' ->
  (forall a, In a stack -> In a seen) ->
  exists r,
    serPK h (S fuel) stack seen key v = Returns (seen', r)
    /\ serPlain h (S fuel) stack tt key v = Returns (tt, r).
Proof.
  intros Hd.
  induction fuel as [|fuel IH]; intros stack seen key v seen' Hv E Hst.
  - destruct v as [| |b|n|n|s|t|a|f];
      try (simpl in E; injection E as <-; eexists;
           rewrite serPK_scalar, serPlain_scalar by auto; split; reflexivity).
    simpl in E. destruct (memAddr a seen); discriminate.
  - destruct v as [| |b|n|n|s|t|a|f];
      try (simpl in E; injection E as <-; eexists;
           rewrite serPK_scalar, serPlain_scalar by auto; split; reflexivity).
    simpl in E. destruct (memAddr a seen) eqn:Eseen; [discriminate|].
    assert (Hstk : memAddr a stack = false).
    { destruct (memAddr a stack) eqn:Es; [|reflexivity].
      apply memAddr_In, Hst, memAddr_In in Es. congruence. }
    assert (Hst' : forall b, In b (a :: stack) -> In b (a :: seen)).
    { intros b [<-|Hb]; [now left|right; auto]. }
    unfold serPK.
    rewrite (SerializeJSONProperty_ref (list addr) replacer h (S fuel) stack seen key a
               (a :: seen) (toJSON_ref h a Hd))
      by (try exact Hstk; simpl; now rewrite Eseen).
    rewrite (SerializeJSONProperty_ref unit plainReplacer h (S fuel) stack tt key a tt
               (toJSON_ref h a Hd))
      by (try exact Hstk; reflexivity).
    destruct (nth_error h a) as [[fs|items]|] eqn:En; try discriminate.
    + destruct (serMembers_unshared h fuel IH (a :: stack) fs (a :: seen) seen'
                  (dataHeap_lookup h a _ Hd En) E Hst')
        as [ms [E1 E2]].
      unfold serPK in E1. rewrite E1, E2. cbn [bind]. eexists. split; reflexivity.
    + destruct (serElements_unshared h fuel IH (a :: stack) items 0 (a :: seen) seen'
                  (dataHeap_lookup h a _ Hd En) E Hst')
        as [ms [E1 E2]].
      unfold serPK in E1. rewrite E1, E2. cbn [bind]. eexists. split; reflexivity.
Qed.


End UnsharedFacts.

(** ** Lists of records, and keys of no or one field *)

Section ManyKeys.
Context {host : Host}.

Lemma mapM_Forall2 {A B} (f : A -> outcome B) xs : forall ys,
  mapM f xs = Returns ys <-> Forall2 (fun x y => f x = Returns y) xs ys.
Proof.
  induction xs as [|x xs IH]; intros ys; simpl.
  - split.
    + intros [= <-]. constructor.
    + intros H. inversion H. reflexivity.
  - split.
    + destruct (f x) as [y| |] eqn:E; simpl; try discriminate.
      destruct (mapM f xs) as [ys'| |] eqn:E'; simpl; try discriminate.
      intros [= <-]. constructor; [exact E|]. now apply IH.
    + intros H. inversion H as [|? y ? ys' Hy Hys]; subst.
      rewrite Hy. simpl. apply IH in Hys. rewrite Hys. reflexivity.
Qed.

Lemma mapM_first_failure {A B} (f : A -> outcome B) pre x post e :
  Forall (fun a => exists b, f a = Returns b) pre ->
  f x = Throws e ->
  mapM f (pre ++ x :: post) = Throws e.
Proof.
  induction pre as [|a pre IH]; intros Hpre Hx; simpl.
  - now rewrite Hx.
  - inversion Hpre as [|? ? [b Hb] Hrest]; subst. rewrite Hb. simpl.
    now rewrite (IH Hrest Hx).
Qed.

(** [extractPrimaryKeys] returns the identifiers of the records, one for one
    and in order, when every record has one; otherwise it throws what the
    first record without one throws, whatever the records after it are.  An
    empty list needs no configured key. *)
Theorem extractPrimaryKeys_all_or_first_error :
  (forall h records tableName m ids,
      PrimaryKey.extractPrimaryKeys h records tableName m = Returns ids <->
      Forall2 (fun record id =>
                 PrimaryKey.extractPrimaryKey h record tableName m = Returns id)
              records ids)
  /\ (forall h pre record post tableName m e,
        Forall (fun r => exists id,
                  PrimaryKey.extractPrimaryKey h r tableName m = Returns id) pre ->
        PrimaryKey.extractPrimaryKey h record tableName m = Throws e ->
        PrimaryKey.extractPrimaryKeys h (pre ++ record :: post) tableName m = Throws e)
  /\ (forall h tableName m, PrimaryKey.extractPrimaryKeys h [] tableName m = Returns []).
Proof.
  split; [|split].
  - intros. apply mapM_Forall2.
  - intros h pre record post t m e Hpre He.
    now apply (mapM_first_failure (fun r => PrimaryKey.extractPrimaryKey h r t m)).
  - reflexivity.
Qed.


End ManyKeys.

Section DegenerateKeys.
Context {host : Host}.
Import PrimaryKey.

(** A list of key fields is accepted whatever its length.  With the empty
    list no field is looked up, and every row of the table, whatever it
    holds, gets the text of the empty object.  A list of one field is read
    like that field alone: the identifier is the string form of what the row
    has under that name, not a JSON text, and a row without a value there is
    refused.  (The field name [__proto__] is left aside.) *)
Theorem degenerate_key_lists :
  (forall h record tableName m entry,
      assoc m tableName = Some entry ->
      primaryKey entry = Some (KeyList []) ->
      extractPrimaryKey h record tableName m = Returns "{}")
  /\ (forall h record tableName m entry field,
        assoc m tableName = Some entry ->
        primaryKey entry = Some (KeyList [field]) ->
        field <> "__proto__" ->
        (isNullish (get record field) = false ->
         extractPrimaryKey h record tableName m = ToString h (get record field))
        /\ (isNullish (get record field) = true ->
            extractPrimaryKey h record tableName m =
              Throws (Error ("record missing configured primaryKey field(s) for table: "
                             +++ tableName)))).
Proof.
  split.
  - intros h record t m entry Ha Hk.
    assert (Hc : configuredKey m t = Some (KeyList []))
      by (unfold configuredKey; now rewrite Ha, Hk).
    rewrite extractPrimaryKey_configured, Hc.
    unfold extractConfiguredPrimaryKey. cbn [keysOf resolveKeys bind].
    rewrite safeStringifyForPK_scalars by reflexivity. reflexivity.
  - intros h record t m entry field Ha Hk Hp.
    assert (Hc : configuredKey m t = Some (KeyList [field]))
      by (unfold configuredKey; now rewrite Ha, Hk).
    split; intros Hn.
    + exact (extractPrimaryKey_one_field h record t m _ field Hc eq_refl Hp Hn).
    + apply (extractPrimaryKey_nullish h record t m _ field Hc); simpl; intuition.
Qed.

End DegenerateKeys.

Section Outcomes.
Context {host : Host}.
Import PrimaryKey.

Lemma columnName_get record field :
  columnName field = true -> dataObj record = true -> dataValue (get record field) = true.
Proof.
  intros Hc Hd. unfold columnName in Hc. apply andb_prop in Hc. destruct Hc as [_ Hc].
  unfold get. destruct (lookup record field) as [v|] eqn:E.
  - exact (dataObj_lookup record field v Hd E).
  - destruct (inherited field); [discriminate|reflexivity].
Qed.

Lemma columnName_not_proto ks :
  (forall field, In field ks -> columnName field = true) -> ~ In "__proto__" ks.
Proof. intros H Hin. specialize (H _ Hin). discriminate. Qed.

Lemma extractConfiguredPrimaryKey_returns h record key :
  closedHeap h = true -> dataHeap h = true -> printableHeap h = true ->
  List.length h < toStringDepth ->
  closedObj h record = true -> dataObj record = true ->
  (forall field, In field (keysOf key) -> columnName field = true) ->
  (forall field, In field (keysOf key) -> isNullish (get record field) = false) ->
  exists id, extractConfiguredPrimaryKey h record key = Returns (Some id).
Proof.
  intros Hh Hd Hp Hn Hr Hdr Hcol Hnn. unfold extractConfiguredPrimaryKey.
  destruct (resolveKeys_all record (keysOf key) [] (columnName_not_proto _ Hcol) Hnn)
    as [resolved Er].
  rewrite Er. cbn [bind].
  pose proof (resolveKeys_closed h record (keysOf key) [] resolved Hr eq_refl Er) as Hc.
  assert (Hdres : dataObj resolved = true).
  { apply (resolveKeys_data record (keysOf key) [] resolved); [|reflexivity|exact Er].
    intros k Hk. apply columnName_get; auto. }
  destruct (keysOf key) as [|k [|k' ks]].
  - destruct (safeStringifyForPK_total h resolved Hh Hd Hc Hdres) as [s ->]. simpl. eauto.
  - destruct (ToString_returns h (get resolved k) Hh Hd Hp Hn (closedObj_get h resolved k Hc)
                               (dataObj_get resolved k Hdres))
      as [s ->]. simpl. eauto.
  - destruct (safeStringifyForPK_total h resolved Hh Hd Hc Hdres) as [s ->]. simpl. eauto.
Qed.


End Outcomes.

(** ** Where the two-argument extractor takes the key from *)

Section Heuristic.
Context {host : Host}.

Lemma toLowerCase_app a b : toLowerCase (a +++ b) = toLowerCase a +++ toLowerCase b.
Proof. induction a; simpl; congruence. Qed.

Lemma length_append a b : String.length (a +++ b) = String.length a + String.length b.
Proof. induction a; simpl; congruence. Qed.

Lemma substring_append_tail a b :
  substring (String.length a) (String.length b) (a +++ b) = b.
Proof.
  induction a as [|c a IH]; simpl; [|exact IH].
  induction b as [|c b IHb]; simpl; [reflexivity|]. now rewrite IHb.
Qed.

Lemma endsWith_append a b : endsWith (a +++ b) b = true.
Proof.
  unfold endsWith. rewrite length_append.
  replace (String.length a + String.length b - String.length b) with (String.length a) by lia.
  rewrite substring_append_tail, String.eqb_refl.
  destruct (Nat.leb_spec (String.length b) (String.length a + String.length b)); [reflexivity|lia].
Qed.

Lemma table_id_idLike t : idLike (t +++ "_id") = true.
Proof.
  unfold idLike. rewrite toLowerCase_app.
  change (toLowerCase "_id") with ("_" +++ "id").
  rewrite <- append_assoc', endsWith_append. apply orb_true_r.
Qed.

Lemma In_keys_has (o : obj) k : In k (keys o) -> has o k = true.
Proof.
  intros H. unfold has. destruct (lookup o k) eqn:E; [reflexivity|].
  apply lookup_None_keys in E. contradiction.
Qed.

Lemma common_idLike t field :
  In field ["id"; t +++ "_id"; "uuid"; "pk"] -> idLike field = true.
Proof.
  intros [<-|[<-|[<-|[<-|[]]]]]; try reflexivity. apply table_id_idLike.
Qed.

Lemma heuristic_fallback h record t :
  (forall key, In key (keys record) -> idLike key = true ->
               isNullish (get record key) = true) ->
  PrimaryKeyHeuristic.extractPrimaryKey h record t = PrimaryKey.safeStringifyForPK h record.
Proof.
  intros Hno. unfold PrimaryKeyHeuristic.extractPrimaryKey. cbv zeta.
  rewrite find_all_false.
  - rewrite find_all_false; [reflexivity|].
    intros key Hin. destruct (endsWith (toLowerCase key) "id") eqn:He; [|reflexivity].
    rewrite (Hno key Hin); [reflexivity|]. unfold idLike. rewrite He. apply orb_true_r.
  - intros field Hc. destruct (has record field) eqn:Hh; [|reflexivity].
    rewrite (Hno field); [reflexivity|now apply has_keys|now apply (common_idLike t)].
Qed.

(** The two-argument [extractPrimaryKey] takes the identifier from one
    field whenever the row has a field with a value whose name is [pk] or
    ends in [id]; only a row without any such field gets the JSON text of
    the whole row. *)
Theorem heuristic_key_source :
  forall h record tableName,
    ((exists key, In key (keys record) /\ idLike key = true
                  /\ isNullish (get record key) = false) ->
     exists key, In key (keys record) /\ idLike key = true
                 /\ isNullish (get record key) = false
                 /\ PrimaryKeyHeuristic.extractPrimaryKey h record tableName
                    = ToString h (get record key))
    /\ ((forall key, In key (keys record) -> idLike key = true ->
                     isNullish (get record key) = true) ->
        PrimaryKeyHeuristic.extractPrimaryKey h record tableName
        = PrimaryKey.safeStringifyForPK h record).
Proof.
  intros h record t. split; [|apply heuristic_fallback].
  unfold PrimaryKeyHeuristic.extractPrimaryKey. cbv zeta.
  intros [key [Hin [Hid Hnn]]].
  destruct (find _ [_; _; _; _]) as [field|] eqn:E1.
  - apply find_some in E1. destruct E1 as [Hc E1]. apply andb_prop in E1.
    destruct E1 as [Hh Hv]. apply negb_true_iff in Hv.
    exists field. repeat split; [now apply has_keys|now apply (common_idLike t)|exact Hv].
  - pose proof (find_none _ _ E1) as Hnone.
    destruct (find _ (keys record)) as [idField|] eqn:E2.
    + apply find_some in E2. destruct E2 as [Hk E2]. apply andb_prop in E2.
      destruct E2 as [He Hv]. apply negb_true_iff in Hv.
      destruct (String.eqb_spec idField EmptyString) as [->|_]; [discriminate|].
      exists idField. repeat split; auto. unfold idLike. rewrite He. apply orb_true_r.
    + exfalso. pose proof (find_none _ _ E2 key Hin) as Hf. cbv beta in Hf.
      rewrite Hnn in Hf. simpl in Hf. rewrite andb_true_r in Hf.
      unfold idLike in Hid. rewrite Hf, orb_false_r in Hid.
      apply String.eqb_eq in Hid. subst key.
      specialize (Hnone "pk" (or_intror (or_intror (or_intror (or_introl eq_refl))))).
      cbv beta in Hnone. rewrite (In_keys_has _ _ Hin), Hnn in Hnone. discriminate.
Qed.

(** A table keyed by [id]: on every row whose [id] has a value, both
    revisions of [extractPrimaryKey] return the string form of that value; on
    a row without one the revision that reads the configuration throws,
    while the other one goes on to its next candidates. *)
Theorem revisions_agree_on_id :
  forall h record tableName m key,
    PrimaryKey.configuredKey m tableName = Some key ->
    PrimaryKey.keysOf key = ["id"] ->
    (isNullish (get record "id") = false ->
     PrimaryKey.extractPrimaryKey h record tableName m = ToString h (get record "id")
     /\ PrimaryKeyHeuristic.extractPrimaryKey h record tableName
        = ToString h (get record "id"))
    /\ (isNullish (get record "id") = true ->
        PrimaryKey.extractPrimaryKey h record tableName m =
          Throws (Error ("record missing configured primaryKey field(s) for table: "
                         +++ tableName))).
Proof.
  intros h record t m key Hc Hk. rewrite extractPrimaryKey_configured, Hc.
  unfold PrimaryKey.extractConfiguredPrimaryKey. rewrite Hk.
  cbn [PrimaryKey.resolveKeys]. change (String.eqb "id" "__proto__") with false.
  cbv iota. split; intros Hn; rewrite Hn; cbn [bind].
  - rewrite get_singleton. split.
    + destruct (ToString h (get record "id")); reflexivity.
    + unfold PrimaryKeyHeuristic.extractPrimaryKey. cbv zeta. cbn [find].
      assert (Hh : has record "id" = true).
      { unfold has, get in *. destruct (lookup record "id"); [reflexivity|discriminate]. }
      rewrite Hh, Hn. reflexivity.
  - reflexivity.
Qed.

End Heuristic.

Section KeylessRows.
Context {host : Host}.
Import PrimaryKey.

Lemma scalarJSON_column_inj v1 v2 :
  isPlainOrNull v1 = true -> isPlainOrNull v2 = true ->
  scalarJSON v1 = scalarJSON v2 -> v1 = v2.
Proof.
  intros P1 P2 H.
  destruct v1 as [| |b1|n1|n1|x1|t1|a1|f1]; try discriminate;
    destruct v2 as [| |b2|n2|n2|x2|t2|a2|f2]; try discriminate;
    try (apply scalarJSON_plain_inj; assumption); try reflexivity; simpl in H; exfalso.
  - destruct b2; discriminate.
  - injection H as H. apply (f_equal (fun s => s +++ "}")) in H. symmetry in H.
    number_head n2 "}" H.
  - destruct b1; discriminate.
  - injection H as H. apply (f_equal (fun s => s +++ "}")) in H. number_head n1 "}" H.
Qed.

Lemma plainRow_scalars row :
  plainRow row = true -> forallb (fun kv => isScalar (snd kv)) row = true.
Proof.
  unfold plainRow. rewrite !forallb_forall. intros H kv Hin. specialize (H kv Hin).
  destruct (snd kv); try discriminate; reflexivity.
Qed.

Lemma plainRow_data row : plainRow row = true -> dataObj row = true.
Proof.
  unfold plainRow, dataObj. rewrite !forallb_forall. intros H kv Hin. specialize (H kv Hin).
  destruct (snd kv); try discriminate; auto.
Qed.

(** A row of such values is determined by the texts of its fields. *)
Lemma plainRow_textsOf_inj r1 : forall r2,
  plainRow r1 = true -> plainRow r2 = true -> textsOf r1 = textsOf r2 -> r1 = r2.
Proof.
  assert (S : forall v, isPlainOrNull v = true -> exists s, scalarJSON v = Some s).
  { intros v. destruct v as [| |[]| | | |[]| |]; try discriminate; simpl; eauto. }
  unfold plainRow, textsOf.
  induction r1 as [|[k1 v1] r1 IH]; intros [|[k2 v2] r2] P1 P2; simpl in *.
  - reflexivity.
  - apply andb_prop in P2. destruct P2 as [P2 _]. destruct (S v2 P2) as [s ->]. discriminate.
  - apply andb_prop in P1. destruct P1 as [P1 _]. destruct (S v1 P1) as [s ->]. discriminate.
  - apply andb_prop in P1. destruct P1 as [P1 P1']. apply andb_prop in P2.
    destruct P2 as [P2 P2'].
    destruct (S v1 P1) as [s1 E1]. destruct (S v2 P2) as [s2 E2]. rewrite E1, E2. simpl.
    intros [= <- <- H]. rewrite <- E2 in E1.
    rewrite (scalarJSON_column_inj v1 v2 P1 P2 E1). f_equal. now apply IH.
Qed.

Lemma keyless_fallback h row t :
  keyless row = true ->
  PrimaryKeyHeuristic.extractPrimaryKey h row t = safeStringifyForPK h row.
Proof.
  unfold keyless. rewrite forallb_forall. intros H. apply heuristic_fallback.
  intros key Hin Hid. specialize (H key Hin). rewrite Hid in H. exact H.
Qed.

(** Rows without an id-like field are identified by their whole text: two of
    them get the same identifier only when they are the same row. *)
Lemma keyless_identifier h row t :
  keyless row = true -> plainRow row = true ->
  PrimaryKeyHeuristic.extractPrimaryKey h row t
  = Returns ("{" +++ join "," (scalarMembers row) +++ "}").
Proof.
  intros K P. rewrite keyless_fallback by exact K.
  apply safeStringifyForPK_scalars; [apply plainRow_scalars|apply plainRow_data]; exact P.
Qed.

Lemma keyless_same_row h1 h2 r1 r2 t :
  keyless r1 = true -> plainRow r1 = true ->
  keyless r2 = true -> plainRow r2 = true ->
  PrimaryKeyHeuristic.extractPrimaryKey h1 r1 t
  = PrimaryKeyHeuristic.extractPrimaryKey h2 r2 t ->
  r1 = r2.
Proof.
  intros K1 P1 K2 P2. rewrite !keyless_fallback by assumption.
  rewrite safeStringifyForPK_inj by auto using plainRow_scalars, plainRow_data.
  now apply plainRow_textsOf_inj.
Qed.

End KeylessRows.

(** ** [createUpdateAuditLogs]: batches, absent rows, the shape of the records *)

Section UpdateLoops.
Context {host : Host}.
Variable filterFields : obj -> string -> NormalizedConfig -> obj.
Variable getChangedValues : obj -> obj -> option obj.
Import Update.

Local Abbreviation extractPK := PrimaryKeyHeuristic.extractPrimaryKey.
Local Abbreviation fullRows := (Update.fullRows filterFields).
Local Abbreviation changedRows := (Update.changedRows filterFields getChangedValues).
Local Abbreviation changedStep := (Update.changedStep filterFields getChangedValues).
Local Abbreviation createUpdateAuditLogs :=
  (Update.createUpdateAuditLogs filterFields getChangedValues).

Lemma bind_assoc {A B C} (m : outcome A) (f : A -> outcome B) (g : B -> outcome C) :
  (y <- (x <- m ;; f x) ;; g y) = (x <- m ;; y <- f x ;; g y).
Proof. destruct m; reflexivity. Qed.

Lemma bind_ext {A B} (m : outcome A) (f g : A -> outcome B) :
  (forall a, f a = g a) -> bind m f = bind m g.
Proof. intros H. destruct m; simpl; auto. Qed.

(** *** The loops continue from the records they were given *)

Lemma fullRows_app h t config rows1 rows2 : forall logs,
  fullRows h t config (rows1 ++ rows2) logs =
    (logs1 <- fullRows h t config rows1 logs ;; fullRows h t config rows2 logs1).
Proof.
  induction rows1 as [|[after|] rows1 IH]; intros logs; simpl.
  - reflexivity.
  - rewrite bind_assoc. apply bind_ext. intros id. apply IH.
  - apply IH.
Qed.

Lemma fullRows_from h t config rows : forall logs,
  fullRows h t config rows logs =
    (out <- fullRows h t config rows [] ;; Returns (logs ++ out)).
Proof.
  induction rows as [|[after|] rows IH]; intros logs; simpl.
  - now rewrite app_nil_r.
  - rewrite bind_assoc. apply bind_ext. intros id.
    rewrite (IH (logs ++ _)), (IH [_]), bind_assoc. apply bind_ext. intros out.
    simpl. now rewrite <- app_assoc.
  - apply IH.
Qed.

Lemma changedRows_app h t config m rows1 rows2 : forall logs,
  changedRows h t config m (rows1 ++ rows2) logs =
    (logs1 <- changedRows h t config m rows1 logs ;; changedRows h t config m rows2 logs1).
Proof.
  induction rows1 as [|[after|] rows1 IH]; intros logs.
  - reflexivity.
  - rewrite <- app_comm_cons, !changedRows_cons, bind_assoc. apply bind_ext. intros out.
    apply IH.
  - simpl. apply IH.
Qed.

Lemma changedRows_from h t config m rows : forall logs,
  changedRows h t config m rows logs =
    (out <- changedRows h t config m rows [] ;; Returns (logs ++ out)).
Proof.
  induction rows as [|[after|] rows IH]; intros logs.
  - simpl. now rewrite app_nil_r.
  - rewrite !changedRows_cons, bind_assoc. apply bind_ext. intros out1.
    rewrite (IH (logs ++ out1)), (IH ([] ++ out1)), bind_assoc. apply bind_ext. intros out.
    simpl. now rewrite <- app_assoc.
  - simpl. apply IH.
Qed.

End UpdateLoops.

Section UpdateBatches.
Context {host : Host}.
Import Update.

(** The after rows can be handed over in batches: with the same before rows
    and configuration, the records for a list of after rows are the records
    for its first part followed by the records for the rest, and the call
    fails where the first failing part does. *)
Theorem createUpdateAuditLogs_splits_batches :
  forall (filterFields : obj -> string -> NormalizedConfig -> obj)
         (getChangedValues : obj -> obj -> option obj)
         h tableName before after1 after2 config,
    let create := createUpdateAuditLogs filterFields getChangedValues h tableName before in
    create (after1 ++ after2) config =
      (logs1 <- create after1 config ;;
       logs2 <- create after2 config ;;
       Returns (logs1 ++ logs2)).
Proof.
  intros ff gcv h t before a1 a2 config. cbv zeta. unfold createUpdateAuditLogs.
  destruct (_ || _).
  - rewrite fullRows_app. apply bind_ext. intros logs1. apply fullRows_from.
  - destruct (indexBefore h t before []) as [m| |]; simpl; try reflexivity.
    rewrite changedRows_app. apply bind_ext. intros logs1. apply changedRows_from.
Qed.

End UpdateBatches.

Section UpdateNulls.
Context {host : Host}.
Variable filterFields : obj -> string -> NormalizedConfig -> obj.
Variable getChangedValues : obj -> obj -> option obj.
Import Update.

Local Abbreviation fullRows := (Update.fullRows filterFields).
Local Abbreviation changedRows := (Update.changedRows filterFields getChangedValues).

Lemma fullRows_present h t config rows : forall logs,
  fullRows h t config (map Some (presentRows rows)) logs = fullRows h t config rows logs.
Proof.
  induction rows as [|[after|] rows IH]; intros logs; simpl; [reflexivity| |apply IH].
  apply bind_ext. intros id. apply IH.
Qed.

Lemma indexBefore_present h t rows : forall m,
  indexBefore h t (map Some (presentRows rows)) m = indexBefore h t rows m.
Proof.
  induction rows as [|[before|] rows IH]; intros m; simpl; [reflexivity| |apply IH].
  apply bind_ext. intros id. apply IH.
Qed.

Lemma changedRows_present h t config m rows : forall logs,
  changedRows h t config m (map Some (presentRows rows)) logs
  = changedRows h t config m rows logs.
Proof.
  induction rows as [|[after|] rows IH]; intros logs; [reflexivity| |apply IH].
  cbn [presentRows flat_map app map]. rewrite !changedRows_cons.
  apply bind_ext. intros out. apply IH.
Qed.

(** Without any before row the matching loop does what the first loop does. *)
Lemma changedRows_unindexed h t config rows : forall logs,
  changedRows h t config [] rows logs = fullRows h t config rows logs.
Proof.
  induction rows as [|[after|] rows IH]; intros logs; simpl; [reflexivity| |apply IH].
  destruct (PrimaryKeyHeuristic.extractPrimaryKey h after t); simpl; try reflexivity.
  apply IH.
Qed.

Lemma indexBefore_absent h t rows : forall m,
  presentRows rows = [] -> indexBefore h t rows m = Returns m.
Proof.
  induction rows as [|[before|] rows IH]; intros m; simpl; [reflexivity|discriminate|apply IH].
Qed.

End UpdateNulls.

Section UpdateNullsTheorem.
Context {host : Host}.
Import Update.

(** Entries of the before and after lists that are [null] or [undefined]
    change nothing: the result is that of the lists without them.  This
    includes a before list of such entries only, which is not empty and yet
    gives the records of the fallback for a missing before state. *)
Theorem createUpdateAuditLogs_skips_null_rows :
  forall (filterFields : obj -> string -> NormalizedConfig -> obj)
         (getChangedValues : obj -> obj -> option obj)
         h tableName before after config,
    createUpdateAuditLogs filterFields getChangedValues h tableName before after config
    = createUpdateAuditLogs filterFields getChangedValues h tableName
        (map Some (presentRows before)) (map Some (presentRows after)) config.
Proof.
  intros ff gcv h t before after config. unfold createUpdateAuditLogs.
  destruct (isFull (updateValuesMode config)); simpl.
  - now rewrite fullRows_present.
  - rewrite length_map.
    destruct (presentRows before) as [|b bs] eqn:Eb.
    + simpl. rewrite fullRows_present.
      destruct before as [|r before]; [reflexivity|]. cbn [List.length Nat.eqb].
      rewrite indexBefore_absent by exact Eb. simpl. apply changedRows_unindexed.
    + destruct before as [|r before]; [discriminate|]. cbn [List.length Nat.eqb].
      rewrite <- Eb, indexBefore_present. apply bind_ext. intros m.
      now rewrite changedRows_present.
Qed.

End UpdateNullsTheorem.

Section UpdateShape.
Context {host : Host}.
Variable filterFields : obj -> string -> NormalizedConfig -> obj.
Variable getChangedValues : obj -> obj -> option obj.
Import Update.

Local Abbreviation fullRows := (Update.fullRows filterFields).
Local Abbreviation changedRows := (Update.changedRows filterFields getChangedValues).
Local Abbreviation changedStep := (Update.changedStep filterFields getChangedValues).

Lemma updateLog_isUpdateOf t id v : isUpdateOf t (updateLog t id v).
Proof. repeat split. discriminate. Qed.

Lemma changedStep_shape h t config m after :
  (exists id, PrimaryKeyHeuristic.extractPrimaryKey h after t = Returns id) ->
  exists out,
    changedStep h t config m after = Returns out
    /\ List.length out <= 1
    /\ Forall (isUpdateOf t) out.
Proof.
  intros [id Hid]. unfold Update.changedStep. rewrite Hid. simpl.
  destruct (mapGet m id).
  - destruct (getChangedValues _ _) as [cv|].
    + destruct (0 <? List.length (keys cv))%nat; eexists; (split; [reflexivity|]);
        simpl; auto using updateLog_isUpdateOf.
    + eexists; (split; [reflexivity|]); simpl; auto.
  - eexists; (split; [reflexivity|]); simpl; auto using updateLog_isUpdateOf.
Qed.

Lemma changedRows_shape h t config m :
  forall rows, keyed h t rows ->
  exists out,
    changedRows h t config m rows [] = Returns out
    /\ List.length out <= List.length (presentRows rows)
    /\ Forall (isUpdateOf t) out.
Proof.
  intros rows. induction rows as [|[after|] rows IH]; intros Hc.
  - exists []. simpl. auto.
  - apply keyed_cons in Hc. destruct Hc as [Ha Hrows].
    destruct (changedStep_shape h t config m after (Ha after eq_refl)) as [out1 [E1 [L1 F1]]].
    destruct (IH Hrows) as [out [E [L F]]].
    exists (out1 ++ out). rewrite changedRows_cons, E1. simpl.
    rewrite changedRows_from, E. simpl. split; [reflexivity|]. split.
    + rewrite length_app. lia.
    + apply Forall_app. auto.
  - apply keyed_cons in Hc. destruct Hc as [_ Hrows]. simpl. apply IH, Hrows.
Qed.

Lemma fullRows_shape h t config :
  forall rows, keyed h t rows ->
  exists out,
    fullRows h t config rows [] = Returns out
    /\ List.length out = List.length (presentRows rows)
    /\ Forall (isUpdateOf t) out.
Proof.
  intros rows Hc.
  destruct (fullRows_spec filterFields h t config rows [] Hc) as [out [E F]].
  exists out. split; [exact E|]. split.
  - symmetry. eapply Forall2_length, F.
  - clear E. induction F as [|row log rows' out' [id [_ [A [T [_ [V M]]]]]] F IH];
      constructor; auto.
    repeat split; auto. rewrite V. discriminate.
Qed.

End UpdateShape.

Section UpdateShapeTheorem.
Context {host : Host}.
Import Update.

Lemma createUpdateAuditLogs_returns
    (filterFields : obj -> string -> NormalizedConfig -> obj)
    (getChangedValues : obj -> obj -> option obj) h t before after config :
  keyed h t before ->
  keyed h t after ->
  exists logs,
    createUpdateAuditLogs filterFields getChangedValues h t before after config = Returns logs
    /\ List.length logs <= List.length (presentRows after)
    /\ Forall (isUpdateOf t) logs.
Proof.
  intros Hb Ha. unfold createUpdateAuditLogs. destruct (_ || _).
  - destruct (fullRows_shape filterFields h t config after Ha) as [out [E [L F]]].
    exists out. rewrite E, L. auto.
  - destruct (indexBefore_returns h t before [] Hb) as [m ->]. simpl.
    apply changedRows_shape; assumption.
Qed.

(** Rows of data have primary keys. *)
Lemma keyed_data h t rows :
  closedHeap h = true -> dataHeap h = true -> printableHeap h = true ->
  List.length h < toStringDepth ->
  (forall row, In (Some row) rows -> closedObj h row = true /\ dataObj row = true) ->
  keyed h t rows.
Proof.
  intros Hh Hd Hp Hn Hrows row Hin. destruct (Hrows row Hin) as [Hc Hdr].
  now apply heuristic_returns.
Qed.


End UpdateShapeTheorem.

Section UpdateUnchanged.
Context {host : Host}.
Variable filterFields : obj -> string -> NormalizedConfig -> obj.
Variable getChangedValues : obj -> obj -> option obj.
Import Update.

Local Abbreviation extractPK := PrimaryKeyHeuristic.extractPrimaryKey.
Local Abbreviation changedRows := (Update.changedRows filterFields getChangedValues).
Local Abbreviation changedStep := (Update.changedStep filterFields getChangedValues).

(** Every binding of [beforeById] was there at the start or is a row that
    was indexed under its primary key. *)
Lemma indexBefore_binding h t id b : forall rows m m',
  indexBefore h t rows m = Returns m' ->
  mapGet m' id = Some b ->
  mapGet m id = Some b \/ (In (Some b) rows /\ extractPK h b t = Returns id).
Proof.
  induction rows as [|[r|] rows IH]; intros m m' E G; simpl in E.
  - injection E as <-. now left.
  - destruct (extractPK h r t) as [idr| |] eqn:Er; simpl in E; try discriminate.
    destruct (IH _ _ E G) as [H|[H1 H2]].
    + rewrite mapGet_mapSet in H. destruct (String.eqb_spec idr id) as [->|_].
      * injection H as <-. right. split; [now left|exact Er].
      * now left.
    + right. split; [now right|exact H2].
  - destruct (IH _ _ E G) as [H|[H1 H2]]; [now left|]. right. split; [now right|exact H2].
Qed.

(** A row that was indexed has its primary key bound. *)
Lemma indexBefore_bound h t id row : forall rows m m',
  indexBefore h t rows m = Returns m' ->
  (mapGet m id <> None \/ (In (Some row) rows /\ extractPK h row t = Returns id)) ->
  mapGet m' id <> None.
Proof.
  induction rows as [|[r|] rows IH]; intros m m' E H; simpl in E.
  - injection E as <-. destruct H as [H|[[] _]]. exact H.
  - destruct (extractPK h r t) as [idr| |] eqn:Er; simpl in E; try discriminate.
    apply (IH _ _ E). rewrite mapGet_mapSet.
    destruct (String.eqb_spec idr id) as [->|Hne]; [left; discriminate|].
    destruct H as [H|[[H|H] Hid]]; [now left| |right; auto].
    injection H as ->. congruence.
  - apply (IH _ _ E). destruct H as [H|[[H|H] Hid]]; [now left|discriminate|right; auto].
Qed.

End UpdateUnchanged.

Section UpdateUnchangedTheorem.
Context {host : Host}.
Import Update.

Local Abbreviation extractPK := PrimaryKeyHeuristic.extractPrimaryKey.

(** In changed mode, rows handed over as both the before and the after state
    give no record at all, provided each has a primary key, no two of them
    share one, and [getChangedValues] finds no change between a filtered row
    and itself. *)
Theorem unchanged_rows_give_no_record :
  forall (filterFields : obj -> string -> NormalizedConfig -> obj)
         (getChangedValues : obj -> obj -> option obj)
         h tableName rows config,
    keyed h tableName rows ->
    updateValuesMode config = changed ->
    (forall row1 row2 id,
        In (Some row1) rows -> In (Some row2) rows ->
        extractPK h row1 tableName = Returns id ->
        extractPK h row2 tableName = Returns id ->
        row1 = row2) ->
    (forall row changedValues,
        In (Some row) rows ->
        getChangedValues (filterFields row tableName config)
                         (filterFields row tableName config) = Some changedValues ->
        keys changedValues = []) ->
    createUpdateAuditLogs filterFields getChangedValues h tableName rows rows config
      = Returns [].
Proof.
  intros ff gcv h t rows config Hc Hm Huniq Hsame.
  destruct rows as [|r0 rows0] eqn:Erows; [now rewrite createUpdateAuditLogs_full by auto|].
  rewrite <- Erows in *. rewrite createUpdateAuditLogs_changed by (subst; auto; discriminate).
  destruct (indexBefore_returns h t rows [] Hc) as [m Em]. rewrite Em. simpl.
  assert (Hall : forall after, incl after rows ->
                   changedRows ff gcv h t config m after [] = Returns []).
  { induction after as [|[a|] after IH]; intros Hincl.
    - reflexivity.
    - rewrite changedRows_cons. unfold changedStep.
      assert (Hin : In (Some a) rows) by (apply Hincl; now left).
      destruct (Hc a Hin) as [id Hid]. rewrite Hid. simpl.
      destruct (mapGet m id) as [b|] eqn:G.
      + destruct (indexBefore_binding h t id b rows [] m Em G) as [H|[Hb Hbid]];
          [discriminate|].
        rewrite (Huniq b a id Hb Hin Hbid Hid).
        destruct (gcv _ _) as [cv|] eqn:Eg.
        * rewrite (Hsame a cv Hin Eg). simpl. apply IH. intros x Hx. apply Hincl. now right.
        * simpl. apply IH. intros x Hx. apply Hincl. now right.
      + exfalso. apply (indexBefore_bound h t id a rows [] m Em); [|exact G].
        right. auto.
    - simpl. apply IH. intros x Hx. apply Hincl. now right. }
  apply Hall, incl_refl.
Qed.

End UpdateUnchangedTheorem.

Section UpdateFiltered.
Context {host : Host}.
Variable filterFields : obj -> string -> NormalizedConfig -> obj.
Variable getChangedValues : obj -> obj -> option obj.
Hypothesis changed_among_after :
  forall before after changedValues,
    getChangedValues before after = Some changedValues -> incl changedValues after.
Import Update.

Local Abbreviation extractPK := PrimaryKeyHeuristic.extractPrimaryKey.
Local Abbreviation fullRows := (Update.fullRows filterFields).
Local Abbreviation changedRows := (Update.changedRows filterFields getChangedValues).
Local Abbreviation changedStep := (Update.changedStep filterFields getChangedValues).

Lemma fullRows_madeFrom h t config log : forall rows logs out,
  fullRows h t config rows logs = Returns out ->
  In log out ->
  In log logs \/ exists row, In (Some row) rows /\ madeFrom filterFields h t config row log.
Proof.
  induction rows as [|[after|] rows IH]; intros logs out E Hin; simpl in E.
  - injection E as <-. now left.
  - destruct (extractPK h after t) as [id| |] eqn:Eid; simpl in E; try discriminate.
    destruct (IH _ _ E Hin) as [H|[row [Hr Hm]]].
    + apply in_app_iff in H. destruct H as [H|[<-|[]]]; [now left|].
      right. exists after. split; [now left|]. split; [exact Eid|].
      eexists. split; [reflexivity|apply incl_refl].
    + right. exists row. split; [now right|exact Hm].
  - destruct (IH _ _ E Hin) as [H|[row [Hr Hm]]]; [now left|].
    right. exists row. split; [now right|exact Hm].
Qed.

Lemma changedStep_madeFrom h t config m after out log :
  changedStep h t config m after = Returns out ->
  In log out -> madeFrom filterFields h t config after log.
Proof.
  unfold Update.changedStep.
  destruct (extractPK h after t) as [id| |] eqn:Eid; simpl; try discriminate.
  destruct (mapGet m id).
  - destruct (getChangedValues _ _) as [cv|] eqn:Eg.
    + destruct (0 <? List.length (keys cv))%nat; intros [= <-]; [|intros []].
      intros [<-|[]]. split; [exact Eid|]. exists cv. split; [reflexivity|].
      eapply changed_among_after, Eg.
    + intros [= <-] [].
  - intros [= <-] [<-|[]]. split; [exact Eid|]. eexists. split; [reflexivity|apply incl_refl].
Qed.

Lemma changedRows_madeFrom h t config m log : forall rows logs out,
  changedRows h t config m rows logs = Returns out ->
  In log out ->
  In log logs \/ exists row, In (Some row) rows /\ madeFrom filterFields h t config row log.
Proof.
  induction rows as [|[after|] rows IH]; intros logs out E Hin.
  - simpl in E. injection E as <-. now left.
  - rewrite changedRows_cons in E.
    destruct (changedStep h t config m after) as [out1| |] eqn:Es; simpl in E; try discriminate.
    destruct (IH _ _ E Hin) as [H|[row [Hr Hm]]].
    + apply in_app_iff in H. destruct H as [H|H]; [now left|].
      right. exists after. split; [now left|]. eapply changedStep_madeFrom; eassumption.
    + right. exists row. split; [now right|exact Hm].
  - simpl in E. destruct (IH _ _ E Hin) as [H|[row [Hr Hm]]]; [now left|].
    right. exists row. split; [now right|exact Hm].
Qed.

End UpdateFiltered.

Section UpdateFilteredTheorem.
Context {host : Host}.
Import Update.

(** Nothing reaches a record but through [filterFields]: when
    [getChangedValues] only returns entries of its second argument, every
    record of [createUpdateAuditLogs] is made from one after row, carrying
    that row's primary key and, as values, columns of the filtered row with
    the values they have there.  A column the filter removes from the after
    row is in no record. *)
Theorem update_records_hold_filtered_values :
  forall (filterFields : obj -> string -> NormalizedConfig -> obj)
         (getChangedValues : obj -> obj -> option obj)
         h tableName before after config logs log,
    (forall x y changedValues,
        getChangedValues x y = Some changedValues -> incl changedValues y) ->
    createUpdateAuditLogs filterFields getChangedValues h tableName before after config
      = Returns logs ->
    In log logs ->
    exists row,
      In (Some row) after /\ madeFrom filterFields h tableName config row log.
Proof.
  intros ff gcv h t before after config logs log Hg. unfold createUpdateAuditLogs.
  destruct (_ || _).
  - intros E Hin. destruct (fullRows_madeFrom ff h t config log _ _ _ E Hin) as [[]|H]. exact H.
  - destruct (indexBefore h t before []) as [m| |]; simpl; try discriminate.
    intros E Hin.
    destruct (changedRows_madeFrom ff gcv Hg h t config m log _ _ _ E Hin) as [[]|H]. exact H.
Qed.

End UpdateFilteredTheorem.

Section KeylessUpdate.
Context {host : Host}.
Import Update.

Local Abbreviation extractPK := PrimaryKeyHeuristic.extractPrimaryKey.

(** A table without id-like columns, in changed mode: an after row is
    matched only with a before row that is the very same row, so a row that
    was changed in any column is recorded in full, like a new row, and a row
    that is among the before rows gives no record when [getChangedValues]
    finds no change between its filtered form and itself. *)
Theorem keyless_rows_are_recorded_in_full :
  forall (filterFields : obj -> string -> NormalizedConfig -> obj)
         (getChangedValues : obj -> obj -> option obj)
         h tableName before after config,
    updateValuesMode config = changed ->
    (forall b, In (Some b) before -> keyless b = true /\ plainRow b = true) ->
    keyless after = true ->
    plainRow after = true ->
    (forall changedValues,
        getChangedValues (filterFields after tableName config)
                         (filterFields after tableName config) = Some changedValues ->
        keys changedValues = []) ->
    (In (Some after) before ->
     createUpdateAuditLogs filterFields getChangedValues h tableName before [Some after] config
       = Returns [])
    /\ (~ In (Some after) before ->
        exists id,
          extractPK h after tableName = Returns id
          /\ createUpdateAuditLogs filterFields getChangedValues h tableName
               before [Some after] config
             = Returns [{| action := "UPDATE";
                           tableName := tableName;
                           recordId := id;
                           values := Some (filterFields after tableName config);
                           metadata := None |}]).
Proof.
  intros ff gcv h t before a config Hm Hb Ka Pa Hg.
  pose proof (keyless_identifier h a t Ka Pa) as Ea.
  destruct before as [|b0 before0] eqn:Eb.
  { split; [intros []|]. intros _. eexists. split; [exact Ea|].
    rewrite createUpdateAuditLogs_full by auto. simpl. rewrite Ea. reflexivity. }
  rewrite <- Eb in *.
  assert (Hne : before <> []) by (subst; discriminate).
  rewrite createUpdateAuditLogs_changed by assumption.
  destruct (indexBefore_returns h t before []) as [m Em].
  { intros b Hin. destruct (Hb b Hin) as [K P]. eexists. apply keyless_identifier; assumption. }
  rewrite Em. cbn [bind]. rewrite changedRows_cons. unfold changedStep.
  rewrite Ea. cbn [bind].
  assert (Hsame : forall b, mapGet m ("{" +++ join "," (PrimaryKey.scalarMembers a) +++ "}")
                             = Some b -> b = a /\ In (Some a) before).
  { intros b G.
    destruct (indexBefore_binding h t _ b before [] m Em G) as [H|[Hin Hid]]; [discriminate|].
    destruct (Hb b Hin) as [K P].
    assert (b = a); [|subst; auto].
    apply (keyless_same_row h h b a t K P Ka Pa). now rewrite Hid, Ea. }
  split.
  - intros Hin.
    destruct (mapGet m _) as [b|] eqn:G.
    + destruct (Hsame b eq_refl) as [-> _].
      destruct (gcv _ _) as [cv|]; [|reflexivity].
      rewrite (Hg cv eq_refl). reflexivity.
    + exfalso.
      apply (indexBefore_bound h t ("{" +++ join "," (PrimaryKey.scalarMembers a) +++ "}")
               a before [] m Em); [|exact G].
      right. auto.
  - intros Hnin. eexists. split; [reflexivity|].
    destruct (mapGet m _) as [b|] eqn:G; [|reflexivity].
    destruct (Hsame b eq_refl) as [_ Hin]. contradiction.
Qed.

End KeylessUpdate.

(** ** [mergeMetadata] as a mapping, and what its guard does *)

Section MergeFacts.
Import Metadata.

Lemma In_keys_lookup (o : obj) k : In k (keys o) <-> exists v, lookup o k = Some v.
Proof.
  split.
  - intros H. destruct (lookup o k) eqn:E; [eauto|].
    apply lookup_None_keys in E. contradiction.
  - intros [v H]. eapply lookup_Some_keys, H.
Qed.

(** The object [mergeMetadata] returns is a mapping: no key occurs twice, a
    key holds the last value assigned to it, and the keys are those for
    which some source has an entry that is neither forbidden nor
    [undefined]. *)
Theorem mergeMetadata_holds_last_values :
  forall sources merged,
    mergeMetadata sources = Some merged ->
    NoDup (keys merged)
    /\ (forall key, lookup merged key = lastAssigned sources key)
    /\ (forall key,
          In key (keys merged) <->
          exists source v,
            In (Some source) sources /\ In (key, v) source
            /\ isForbidden key = false /\ v <> VUndefined).
Proof.
  intros sources merged H. rewrite mergeMetadata_finish in H.
  apply finish_Some in H. destruct H as [-> _].
  assert (L : forall key,
             lookup (assignAll [] (flat_map effectiveEntries sources)) key
             = lastAssigned sources key).
  { intros key. rewrite lookup_assignAll. unfold lastAssigned.
    destruct (lookup _ key); reflexivity. }
  split; [apply NoDup_keys_assignAll; constructor|]. split; [exact L|].
  intros key. rewrite In_keys_lookup. split.
  - intros [v Hv]. rewrite L in Hv. unfold lastAssigned in Hv.
    apply lookup_In, in_rev, in_flat_map in Hv. destruct Hv as [[source|] [Hs Hv]];
      simpl in Hv; [|destruct Hv].
    apply filter_In in Hv. destruct Hv as [Hin He]. unfold isEffective in He.
    apply andb_prop in He. simpl in He. destruct He as [Hf Hu].
    exists source, v. repeat split; auto.
    + now apply negb_true_iff in Hf.
    + intros ->. discriminate.
  - intros [source [v [Hs [Hin [Hf Hu]]]]].
    assert (He : In (key, v) (flat_map effectiveEntries sources)).
    { apply in_flat_map. exists (Some source). split; [exact Hs|]. simpl.
      apply filter_In. split; [exact Hin|]. unfold isEffective. simpl. rewrite Hf.
      destruct v; try reflexivity. contradiction. }
    destruct (lookup (assignAll [] (flat_map effectiveEntries sources)) key) eqn:E.
    + eauto.
    + exfalso. rewrite L in E. unfold lastAssigned in E. apply lookup_None_keys in E.
      apply E. unfold keys. apply in_map_iff. exists (key, v). split; [reflexivity|].
      now apply in_rev in He.
Qed.

Lemma guarded_mergeEntries es : forall t,
  MetadataUnguarded.mergeEntries t (filter (fun kv => negb (isForbidden (fst kv))) es)
  = {| MetadataUnguarded.protoIsNull := MetadataUnguarded.protoIsNull t;
       MetadataUnguarded.own := Metadata.mergeEntries (MetadataUnguarded.own t) es |}.
Proof.
  induction es as [|[k v] es IH]; intros t; simpl; [now destruct t|].
  destruct (isForbidden k) eqn:Ef; simpl; [apply IH|].
  destruct (isUndefined v); [apply IH|].
  rewrite IH. unfold MetadataUnguarded.assign. unfold isForbidden in Ef.
  apply orb_false_elim in Ef. destruct Ef as [Ef _]. apply orb_false_elim in Ef.
  destruct Ef as [-> _]. reflexivity.
Qed.

Lemma guarded_mergeSources sources : forall t,
  MetadataUnguarded.mergeSources t (map dropForbidden sources)
  = {| MetadataUnguarded.protoIsNull := MetadataUnguarded.protoIsNull t;
       MetadataUnguarded.own := Metadata.mergeSources (MetadataUnguarded.own t) sources |}.
Proof.
  induction sources as [|[s|] sources IH]; intros t; simpl; [now destruct t| |apply IH].
  rewrite guarded_mergeEntries, IH. reflexivity.
Qed.

Lemma dropForbidden_clean source :
  (forall o key, source = Some o -> In key (keys o) -> isForbidden key = false) ->
  dropForbidden source = source.
Proof.
  destruct source as [o|]; [|reflexivity]. intros H. simpl. f_equal.
  apply filter_id. intros [k v] Hin. simpl. rewrite (H o k eq_refl); [reflexivity|].
  unfold keys. apply in_map_iff. exists (k, v). auto.
Qed.


(** *** The revision without the guard *)

Local Abbreviation defined := (fun kv : string * value => negb (isUndefined (snd kv))).
Local Abbreviation definedEntries := (fun source : option obj =>
  match source with
  | Some o => filter defined o
  | None => []
  end).

Lemma unguarded_mergeEntries_named es : forall t,
  (forall key, In key (keys es) -> key <> "__proto__") ->
  MetadataUnguarded.mergeEntries t es
  = {| MetadataUnguarded.protoIsNull := MetadataUnguarded.protoIsNull t;
       MetadataUnguarded.own := assignAll (MetadataUnguarded.own t) (filter defined es) |}.
Proof.
  induction es as [|[k v] es IH]; intros t H; simpl; [now destruct t|].
  assert (H' : forall key, In key (keys es) -> key <> "__proto__")
    by (intros key Hk; apply H; now right).
  destruct (isUndefined v); simpl; [now apply IH|].
  rewrite (IH _ H'). unfold MetadataUnguarded.assign.
  assert (Hk : String.eqb k "__proto__" = false)
    by (apply String.eqb_neq, H; now left).
  rewrite Hk. reflexivity.
Qed.

Lemma unguarded_mergeSources_named sources : forall t,
  (forall source key, In (Some source) sources -> In key (keys source) ->
                      key <> "__proto__") ->
  MetadataUnguarded.mergeSources t sources
  = {| MetadataUnguarded.protoIsNull := MetadataUnguarded.protoIsNull t;
       MetadataUnguarded.own :=
         assignAll (MetadataUnguarded.own t) (flat_map definedEntries sources) |}.
Proof.
  induction sources as [|[s|] sources IH]; intros t H; simpl; [now destruct t| |].
  - rewrite unguarded_mergeEntries_named by (intros key Hk; apply (H s); simpl; auto).
    rewrite IH by (intros source key Hs; apply H; now right).
    simpl. now rewrite assignAll_app.
  - apply IH. intros source key Hs. apply H. now right.
Qed.

(** While [merged] has its first prototype, an entry [__proto__] with a
    value that is neither an object nor [null] changes nothing. *)
Lemma unguarded_mergeEntries_proto es : forall t,
  MetadataUnguarded.protoIsNull t = false ->
  (forall v, In ("__proto__", v) es -> isPrimitive v = true) ->
  MetadataUnguarded.mergeEntries t es
  = MetadataUnguarded.mergeEntries
      t (filter (fun kv => negb (String.eqb (fst kv) "__proto__")) es)
  /\ MetadataUnguarded.protoIsNull (MetadataUnguarded.mergeEntries t es) = false.
Proof.
  induction es as [|[k v] es IH]; intros t Ht H; simpl; [auto|].
  assert (H' : forall v, In ("__proto__", v) es -> isPrimitive v = true)
    by (intros v' Hv'; apply H; now right).
  destruct (String.eqb_spec k "__proto__") as [->|Hk]; simpl.
  - destruct (isUndefined v) eqn:Eu; [now apply IH|].
    assert (Ea : MetadataUnguarded.assign "__proto__" v t = t).
    { unfold MetadataUnguarded.assign. rewrite Ht. simpl.
      pose proof (H v (or_introl eq_refl)) as Hp.
      destruct t as [p o]; simpl in *. subst p.
      destruct v; try discriminate; reflexivity. }
    rewrite Ea. now apply IH.
  - destruct (isUndefined v); [now apply IH|].
    apply IH; [|exact H'].
    unfold MetadataUnguarded.assign. apply String.eqb_neq in Hk. now rewrite Hk.
Qed.

Lemma unguarded_mergeSources_proto sources : forall t,
  MetadataUnguarded.protoIsNull t = false ->
  (forall source v, In (Some source) sources -> In ("__proto__", v) source ->
                    isPrimitive v = true) ->
  MetadataUnguarded.mergeSources t sources
  = MetadataUnguarded.mergeSources t (map dropProto sources).
Proof.
  induction sources as [|[s|] sources IH]; intros t Ht H; simpl; [reflexivity| |].
  - destruct (unguarded_mergeEntries_proto s t Ht (fun v => H s v (or_introl eq_refl)))
      as [E Hf].
    rewrite <- E. apply IH; [exact Hf|]. intros source v Hs. apply H. now right.
  - apply IH; [exact Ht|]. intros source v Hs. apply H. now right.
Qed.


End MergeFacts.

Section MergeOrder.
Import Metadata.

Lemma has_includes (o : obj) k : has o k = includes (keys o) k.
Proof.
  destruct (has o k) eqn:Eh, (includes (keys o) k) eqn:Ei; try reflexivity; exfalso.
  - apply has_keys, includes_In in Eh. congruence.
  - apply includes_In, In_keys_has in Ei. congruence.
Qed.

Lemma keys_set_named k v o :
  arrayIndex k = None ->
  keys (set k v o) = if includes (keys o) k then keys o else keys o ++ [k].
Proof.
  intros Hi. unfold set. rewrite has_includes, Hi.
  destruct (includes (keys o) k); [apply keys_replaceValue|].
  unfold keys. now rewrite map_app.
Qed.

Lemma keys_assignAll_named l : forall acc,
  (forall k, In k (keys l) -> arrayIndex k = None) ->
  keys (assignAll acc l)
  = fold_left (fun ks name => if includes ks name then ks else ks ++ [name])
              (keys l) (keys acc).
Proof.
  induction l as [|[k v] l IH]; intros acc H; [reflexivity|].
  simpl. change (fold_left _ l ?a) with (assignAll a l).
  rewrite IH by (intros k' Hk'; apply H; now right).
  rewrite keys_set_named by (apply H; now left). reflexivity.
Qed.

(** The keys of the merged object come in the order in which the sources
    first assign them, as long as none of them is an array index (a
    canonical number, which an object lists first). *)
Theorem mergeMetadata_key_order :
  forall sources merged,
    mergeMetadata sources = Some merged ->
    (forall source key,
        In (Some source) sources -> In key (keys source) -> arrayIndex key = None) ->
    keys merged = firstOccurrences (keys (flat_map effectiveEntries sources)).
Proof.
  intros sources merged H Hidx. rewrite mergeMetadata_finish in H.
  apply finish_Some in H. destruct H as [-> _].
  apply keys_assignAll_named. intros k Hk.
  unfold keys in Hk. apply in_map_iff in Hk. destruct Hk as [[k' v] [<- Hin]].
  apply in_flat_map in Hin. destruct Hin as [[source|] [Hs Hin]]; simpl in Hin; [|destruct Hin].
  apply filter_In in Hin. destruct Hin as [Hin _].
  apply (Hidx source k' Hs). unfold keys. apply in_map_iff. exists (k', v). auto.
Qed.

End MergeOrder.

(** ** The logger: [logUpdate] and the constructor *)

Section LoggerUpdate.
Context {host : Host}.
Import Logger.

(** [logUpdate] on an audited table, with rows that have primary keys: the
    transform does not fail, the writer is called once with the records and
    the current context, also when there is no record to write, and the call
    fails only if the writer does.  The logger that results has the same
    configuration and context manager. *)
Theorem logUpdate_hands_records_to_writer :
  forall (AuditWriter AuditContextManager AuditContext : Type)
         (writeAuditLogs : AuditWriter -> list AuditLog -> option AuditContext -> outcome AuditWriter)
         (getContext : AuditContextManager -> option AuditContext)
         (filterFields : obj -> string -> NormalizedConfig -> obj)
         (getChangedValues : obj -> obj -> option obj)
         (this : AuditLogger AuditWriter AuditContextManager)
         h tableName beforeRecords afterRecords,
    shouldAudit this tableName = true ->
    Update.keyed h tableName (toArray beforeRecords) ->
    Update.keyed h tableName (toArray afterRecords) ->
    exists logs,
      Update.createUpdateAuditLogs filterFields getChangedValues h tableName
        (toArray beforeRecords) (toArray afterRecords) (config this) = Returns logs
      /\ (afterRecords = RecordArray [] -> logs = [])
      /\ logUpdate writeAuditLogs getContext filterFields getChangedValues
                   this h tableName beforeRecords afterRecords
         = (w <- writeAuditLogs (writer this) logs (getContext (contextManager this)) ;;
            Returns (withWriter _ _ this w))
      /\ (forall this',
            logUpdate writeAuditLogs getContext filterFields getChangedValues
                      this h tableName beforeRecords afterRecords = Returns this' ->
            config this' = config this
            /\ contextManager this' = contextManager this
            /\ writeAuditLogs (writer this) logs (getContext (contextManager this))
               = Returns (writer this')).
Proof.
  intros AW ACM AC write getContext ff gcv this h t before after Hs Hb Ha.
  destruct (createUpdateAuditLogs_returns
              ff gcv h t (toArray before) (toArray after) (config this) Hb Ha)
    as [logs [E [L _]]].
  exists logs. split; [exact E|]. split; [|split].
  - intros ->. simpl in L. destruct logs; [reflexivity|simpl in L; lia].
  - unfold logUpdate. rewrite Hs, E. reflexivity.
  - unfold logUpdate. rewrite Hs, E. simpl.
    destruct (write _ _ _) as [w| |]; simpl; try discriminate.
    intros this' [= <-]. auto.
Qed.

End LoggerUpdate.

Section SetupFacts.
Import Setup.

Lemma auditTable_not_empty config : auditTable (normalizeConfig config) <> EmptyString.
Proof.
  unfold normalizeConfig. simpl. destruct (Given.auditTable config) as [name|]; [|discriminate].
  destruct (String.eqb_spec name EmptyString); [discriminate|assumption].
Qed.

(** The audit table of a logger is never the empty string: a missing or
    empty [auditTable] becomes [audit_logs], any other name is kept.  So a
    logger never audits its own table, and under the wildcard it audits
    every other table.  An [excludeFields] that is given is kept even when
    it is empty; only a missing one gets the four default names.
    Normalizing a configuration again changes nothing. *)
Theorem normalizeConfig_defaults :
  (forall config,
      auditTable (normalizeConfig config) <> EmptyString
      /\ (forall name, Given.auditTable config = Some name -> name <> EmptyString ->
                       auditTable (normalizeConfig config) = name)
      /\ (Given.auditTable config = None \/ Given.auditTable config = Some EmptyString ->
          auditTable (normalizeConfig config) = "audit_logs")
      /\ (forall names, Given.excludeFields config = Some names ->
                        excludeFields (normalizeConfig config) = names)
      /\ (Given.excludeFields config = None ->
          excludeFields (normalizeConfig config) = ["password"; "token"; "secret"; "apiKey"]))
  /\ (forall config, normalizeConfig (stated (normalizeConfig config)) = normalizeConfig config)
  /\ (forall (Database AuditWriter AuditContextManager : Type)
             (newAuditWriter : Database -> NormalizedConfig -> AuditWriter)
             (newAuditContextManager : AuditContextManager)
             mode db config tableName,
        let this := newAuditLogger Database AuditWriter AuditContextManager
                      newAuditWriter newAuditContextManager mode db config in
        Logger.shouldAudit this (auditTable (normalizeConfig config)) = false
        /\ (Given.auditTable config = None \/ Given.auditTable config = Some EmptyString ->
            Logger.shouldAudit this "audit_logs" = false)
        /\ (Given.tables config = AllTables ->
            (Logger.shouldAudit this tableName = true
             <-> tableName <> auditTable (normalizeConfig config)))).
Proof.
  split; [|split].
  - intros config. split; [apply auditTable_not_empty|].
    unfold normalizeConfig; simpl. repeat split.
    + intros name -> Hn. apply String.eqb_neq in Hn. now rewrite Hn.
    + intros [->| ->]; reflexivity.
    + now intros names ->.
    + now intros ->.
  - intros config. unfold normalizeConfig, stated. simpl.
    f_equal. destruct (Given.auditTable config) as [name|]; [|reflexivity].
    destruct (String.eqb name EmptyString) eqn:E; [reflexivity|now rewrite E].
  - intros Database AuditWriter ACM newW newCM mode db config t this.
    unfold Logger.shouldAudit. subst this.
    cbn [newAuditLogger Logger.config asRead Types.auditTable Types.tables].
    split; [now rewrite String.eqb_refl|]. split.
    + intros H. replace (auditTable (normalizeConfig config)) with "audit_logs";
        [reflexivity|].
      unfold normalizeConfig. simpl. destruct H as [->| ->]; reflexivity.
    + intros Ht. cbn [normalizeConfig tables]. rewrite Ht.
      destruct (String.eqb_spec t (auditTable (normalizeConfig config))) as [->|Hn].
      * split; [discriminate|congruence].
      * split; auto.
Qed.

End SetupFacts.

(* ================================================================= *)
(** * The unit tests and scenarios, evaluated *)

(** [tests/unit]: "returns null when all inputs are empty or undefined". *)
Example test_merge_empty :
  Metadata.mergeMetadata [] = None
  /\ Metadata.mergeMetadata [None; None; Some []] = None
  /\ Metadata.mergeMetadata [Some []; Some []] = None.
Proof. repeat split. Qed.

(** "merges values and drops undefined" *)
Example test_merge_drops_undefined :
  Metadata.mergeMetadata
    [Some [("requestId", VString "r1"); ("skip", VUndefined)]; None;
     Some [("traceId", VString "t1")]]
  = Some [("requestId", VString "r1"); ("traceId", VString "t1")].
Proof. reflexivity. Qed.

(** "prefers later values when keys overlap" *)
Example test_merge_prefers_later :
  Metadata.mergeMetadata [Some [("a", VNumber 1); ("b", VNumber 1)]; Some [("b", VNumber 2)]]
  = Some [("a", VNumber 1); ("b", VNumber 2)].
Proof. reflexivity. Qed.

(** "serializes circular composite key structures": the object refers to
    itself through [self]. *)
Example test_circular_composite_key :
  PrimaryKey.extractPrimaryKey (host := exampleHost)
    [OObject [("id", VNumber 1); ("self", VRef 0)]]
    [("tenant", VString "acme"); ("composite", VRef 0)] "records"
    [("records",
      {| PrimaryKey.primaryKey := Some (PrimaryKey.KeyList ["tenant"; "composite"]) |})]
  = Returns ("{" +++ q "tenant" +++ ":" +++ q "acme" +++ "," +++ q "composite" +++ ":{"
             +++ q "id" +++ ":1," +++ q "self" +++ ":" +++ q "[Circular]" +++ "}}").
Proof. reflexivity. Qed.

(** "returns name/message/code for Error with code", and without. *)
Example test_sanitize_error :
  Logging.sanitizeError (Logging.ErrorInstance "Error" "boom" (VString "E_TEST"))
    = inl [("name", VString "Error"); ("message", VString "boom"); ("code", VString "E_TEST")]
  /\ Logging.sanitizeError (Logging.ErrorInstance "Error" "no-code" VUndefined)
    = inl [("name", VString "Error"); ("message", VString "no-code"); ("code", VUndefined)]
  /\ Logging.sanitizeError (Logging.Other (VString "fail")) = inr "fail".
Proof. repeat split. Qed.

(** Scenario 3 of the specification: in changed mode only [name] is
    recorded. *)
Example scenario_update_changed :
  Update.createUpdateAuditLogs (host := exampleHost) Serializer.filterFields
    (Serializer.getChangedValues Serializer.sameScalar)
    [] "users" [Some userBefore] [Some userAfter] (config0 changed)
  = Returns [{| action := "UPDATE"; tableName := "users"; recordId := "1";
                values := Some [("name", VString "Updated")]; metadata := None |}].
Proof. reflexivity. Qed.

(** Scenario 4: in full mode the permitted columns are all recorded. *)
Example scenario_update_full :
  Update.createUpdateAuditLogs (host := exampleHost) Serializer.filterFields
    (Serializer.getChangedValues Serializer.sameScalar)
    [] "users" [Some userBefore] [Some userAfter] (config0 full)
  = Returns [{| action := "UPDATE"; tableName := "users"; recordId := "1";
                values := Some [("id", VNumber 1); ("email", VString "o@x");
                                ("name", VString "Updated")];
                metadata := None |}].
Proof. reflexivity. Qed.

(** The revision of [mergeMetadata] without the guard: [constructor] and
    [prototype] are kept, a number under [__proto__] is ignored; after
    [__proto__: null] the name is a property like any other. *)
Example unguarded_merge_and_proto :
  MetadataUnguarded.mergeMetadata
    [Some [("constructor", VString "x"); ("__proto__", VNumber 2); ("prototype", VNumber 1)]]
  = Some [("constructor", VString "x"); ("prototype", VNumber 1)]
  /\ MetadataUnguarded.mergeMetadata
       [Some [("__proto__", VNull)]; Some [("__proto__", VNumber 5)]]
     = Some [("__proto__", VNumber 5)]
  /\ MetadataUnguarded.mergeMetadata [Some [("__proto__", VNull)]] = None.
Proof. repeat split. Qed.

(** An [id] that is an object with a [toString] of its own that is no
    function: [String] throws, and so do the extractor and the transform. *)
Example own_toString_throws :
  PrimaryKeyHeuristic.extractPrimaryKey (host := exampleHost)
    [OObject [("toString", VNumber 1)]] [("id", VRef 0)] "users"
  = Throws (TypeError "Cannot convert object to primitive value")
  /\ Update.createUpdateAuditLogs (host := exampleHost) Serializer.filterFields
       (Serializer.getChangedValues Serializer.sameScalar)
       [OObject [("toString", VNumber 1)]] "users" [] [Some [("id", VRef 0)]] (config0 full)
     = Throws (TypeError "Cannot convert object to primitive value").
Proof. split; reflexivity. Qed.

(** A value nested deeper than the host lets the serializer recurse: the
    [catch] of [safeStringifyForPK] gives the key made of the field names. *)
Example deep_value_falls_back :
  JSON_stringify (host := shallowHost) (list addr) (PrimaryKey.replacer (host := shallowHost))
    (nestedHeap ++ [OObject nestedRow]) [] (VRef 2)
  = Throws (RangeError "Maximum call stack size exceeded")
  /\ PrimaryKey.safeStringifyForPK (host := shallowHost) nestedHeap nestedRow
     = Returns "composite_key_a_b_2"
  /\ PrimaryKey.safeStringifyForPK (host := exampleHost) nestedHeap nestedRow
     = Returns ("{" +++ q "a" +++ ":{" +++ q "x" +++ ":{" +++ q "y" +++ ":1}},"
                +++ q "b" +++ ":2}").
Proof. repeat split. Qed.

(** A number beyond the safe integers has no string form in the model. *)
Example unsafe_number_is_not_printed :
  ToString (host := exampleHost) [] (VNumber 1000000000000000000000) = NoResult
  /\ ToString (host := exampleHost) [] (VNumber 9007199254740991) = Returns "9007199254740991"
  /\ ToString (host := exampleHost) [] (VBigInt 1000000000000000000000)
     = Returns "1000000000000000000000".
Proof. repeat split. Qed.

(* ================================================================= *)
(** * Worked instances of the theorems *)

(** C6, on a source that supplies [constructor]. *)
Lemma mergeMetadata_drops_forbidden_keys_witness :
  Metadata.mergeMetadata [Some [("constructor", VNumber 1); ("requestId", VString "r1")]]
    = Some [("requestId", VString "r1")]
  /\ ~ In "__proto__" (keys [("requestId", VString "r1")])
  /\ ~ In "constructor" (keys [("requestId", VString "r1")])
  /\ ~ In "prototype" (keys [("requestId", VString "r1")]).
Proof.
  split; [reflexivity|].
  apply (mergeMetadata_drops_forbidden_keys
           [Some [("constructor", VNumber 1); ("requestId", VString "r1")]]
           [("requestId", VString "r1")]).
  reflexivity.
Defined.

(** C7, right bias on the overlapping key of the unit test. *)
Lemma mergeMetadata_laws_witness :
  exists merged,
    Metadata.mergeMetadata ([Some [("a", VNumber 1); ("b", VNumber 1)]]
                            ++ Some [("b", VNumber 2)] :: [Some [("b", VUndefined)]])
      = Some merged
    /\ lookup merged "b" = Some (VNumber 2).
Proof.
  apply (proj1 (proj2 (proj2 mergeMetadata_laws))
           [Some [("a", VNumber 1); ("b", VNumber 1)]]
           [("b", VNumber 2)] [Some [("b", VUndefined)]] "b" (VNumber 2)).
  - repeat constructor. intros [].
  - now left.
  - reflexivity.
  - discriminate.
  - intros later v' [H|[]]. injection H as <-. intros [H'|[]]. now injection H' as <-.
Defined.


(** C9, on a value that is neither an [Error] nor a string. *)
Lemma sanitizeError_shape_witness :
  Logging.sanitizeError (Logging.Other (VNumber 42)) = inr "Unknown error".
Proof.
  apply (proj2 (proj2 (proj2 sanitizeError_shape)) (VNumber 42)).
  intros s. discriminate.
Defined.

(** C8, on the audit table itself; the collaborators all fail when called. *)
Lemma shouldAudit_gates_manual_logging_witness :
  Logger.shouldAudit exampleLogger "audit_logs" = false
  /\ Logger.logInsert (AuditContext := unit)
       (fun _ _ _ => Throws (Error "writer called")) (fun _ => None)
       (fun _ _ _ _ => Throws (Error "transform called"))
       exampleLogger [] "audit_logs" (Logger.OneRecord userNew)
     = Returns exampleLogger.
Proof.
  split; [reflexivity|].
  apply (proj2 (proj2 (proj2
           (shouldAudit_gates_manual_logging (host := exampleHost) unit unit unit
              (fun _ _ _ => Throws (Error "writer called")) (fun _ => None)
              (fun _ _ _ _ => Throws (Error "transform called"))
              (fun _ _ _ _ => Throws (Error "transform called"))
              Serializer.filterFields (Serializer.getChangedValues Serializer.sameScalar)
              exampleLogger "audit_logs")))
           eq_refl [] (Logger.OneRecord userNew)
           (Logger.OneRecord userNew) (Logger.OneRecord userNew)).
Defined.

(** C3, on a new row next to an updated one, in changed mode. *)
Lemma update_full_rows_witness :
  exists logsPre logsPost,
    Update.createUpdateAuditLogs (host := exampleHost) Serializer.filterFields
        (Serializer.getChangedValues Serializer.sameScalar)
        [] "users" [Some userBefore] [Some userAfter] (config0 changed) = Returns logsPre
    /\ Update.createUpdateAuditLogs (host := exampleHost) Serializer.filterFields
        (Serializer.getChangedValues Serializer.sameScalar)
        [] "users" [Some userBefore] [] (config0 changed) = Returns logsPost
    /\ Update.createUpdateAuditLogs (host := exampleHost) Serializer.filterFields
        (Serializer.getChangedValues Serializer.sameScalar)
        [] "users" [Some userBefore] [Some userAfter; Some userNew] (config0 changed)
       = Returns (logsPre
                  ++ [{| action := "UPDATE";
                         tableName := "users";
                         recordId := "2";
                         values := Some (Serializer.filterFields userNew "users"
                                           (config0 changed));
                         metadata := None |}]
                  ++ logsPost).
Proof.
  refine (proj2 (update_full_rows (host := exampleHost) Serializer.filterFields
                   (Serializer.getChangedValues Serializer.sameScalar)
                   [] "users" (config0 changed) [Some userBefore]
                   [Some userAfter; Some userNew] _)
            eq_refl _ _ [Some userAfter] userNew [] "2" eq_refl eq_refl _).
  - keyed_rows.
  - discriminate.
  - keyed_rows.
  - intros b [[= <-]|[]]. discriminate.
Defined.

(** C2 as amended, on scenario 3 of the specification: only [name]
    changes. *)
Lemma update_changed_rows_witness :
  exists logsPre emitted logsPost,
    Update.createUpdateAuditLogs (host := exampleHost) Serializer.filterFields
        (Serializer.getChangedValues Serializer.sameScalar)
        [] "users" [Some userBefore] [] (config0 changed) = Returns logsPre
    /\ Update.createUpdateAuditLogs (host := exampleHost) Serializer.filterFields
        (Serializer.getChangedValues Serializer.sameScalar)
        [] "users" [Some userBefore] [] (config0 changed) = Returns logsPost
    /\ Update.createUpdateAuditLogs (host := exampleHost) Serializer.filterFields
        (Serializer.getChangedValues Serializer.sameScalar)
        [] "users" [Some userBefore] [Some userAfter] (config0 changed)
       = Returns (logsPre ++ emitted ++ logsPost)
    /\ (emitted <> [] <->
        exists column v,
          In (column, v) (Serializer.filterFields userAfter "users" (config0 changed))
          /\ Serializer.columnDiffers Serializer.sameScalar
               (Serializer.filterFields userBefore "users" (config0 changed)) column v)
    /\ (forall log, In log emitted ->
          emitted = [log]
          /\ action log = "UPDATE"
          /\ tableName log = "users"
          /\ recordId log = "1"
          /\ exists changedValues,
               values log = Some changedValues
               /\ changedValues
                  = filter (Serializer.differs Serializer.sameScalar
                              (Serializer.filterFields userBefore "users" (config0 changed)))
                           (Serializer.filterFields userAfter "users" (config0 changed))
               /\ forall column v,
                    In (column, v) changedValues <->
                    (In (column, v) (Serializer.filterFields userAfter "users" (config0 changed))
                     /\ Serializer.columnDiffers Serializer.sameScalar
                          (Serializer.filterFields userBefore "users" (config0 changed))
                          column v)).
Proof.
  refine (update_changed_rows (host := exampleHost) Serializer.filterFields
            Serializer.sameScalar
            [] "users" (config0 changed) [Some userBefore] [Some userAfter]
            [] userBefore [] [] userAfter [] "1"
            _ _ eq_refl eq_refl eq_refl _ eq_refl eq_refl).
  - keyed_rows.
  - keyed_rows.
  - intros b' [].
Defined.

(** C4 as amended, on the row whose [id] is the empty string. *)
Lemma recordId_empty_only_for_empty_key_text_witness :
  PrimaryKey.extractPrimaryKey (host := exampleHost) [] emptyIdRow "users" usersConfig
    = Returns EmptyString
  /\ exists key field,
       PrimaryKey.configuredKey usersConfig "users" = Some key
       /\ PrimaryKey.keysOf key = [field]
       /\ ToString (host := exampleHost) [] (get emptyIdRow field) = Returns EmptyString.
Proof.
  split; [reflexivity|].
  apply (proj1 (recordId_empty_only_for_empty_key_text (host := exampleHost))
           [] emptyIdRow "users" usersConfig).
  reflexivity.
Defined.

(** C5, on the ledger row. *)
Lemma composite_key_is_safe_json_witness :
  exists resolved json,
    PrimaryKey.resolveKeys ledgerRow ["orgId"; "entryId"] [] = Returns (Some resolved)
    /\ (forall field,
          lookup resolved field =
            if includes ["orgId"; "entryId"] field then Some (get ledgerRow field) else None)
    /\ JSON_stringify (host := exampleHost) (list addr) (PrimaryKey.replacer (host := exampleHost))
         ([] ++ [OObject resolved]) [] (VRef 0) = Returns (Some json)
    /\ PrimaryKey.extractPrimaryKey (host := exampleHost) [] ledgerRow "ledger" ledgerConfig
       = Returns json.
Proof.
  destruct (proj1 (composite_key_is_safe_json (host := exampleHost))
              [] ledgerRow "ledger" ledgerConfig ["orgId"; "entryId"])
    as [resolved [Er [Hl [_ Hjson]]]].
  - reflexivity.
  - discriminate.
  - intros [H|[H|[]]]; discriminate H.
  - reflexivity.
  - reflexivity.
  - reflexivity.
  - intros field [<-|[<-|[]]]; split; reflexivity.
  - destruct Hjson as [json [Ej Ee]]; [simpl; lia|].
    exists resolved, json. auto.
Defined.



(* ================================================================= *)
(** * Worked instances of the further properties *)

Import Cases.

(** A list whose second row lacks the configured field. *)
Lemma extractPrimaryKeys_all_or_first_error_witness :
  PrimaryKey.extractPrimaryKeys (host := exampleHost) []
    ([userNew] ++ [("email", VString "a@x")] :: [userBefore]) "users" usersConfig
  = Throws (Error ("record missing configured primaryKey field(s) for table: " +++ "users")).
Proof.
  apply (proj1 (proj2 (extractPrimaryKeys_all_or_first_error (host := exampleHost)))
           [] [userNew] [("email", VString "a@x")] [userBefore] "users" usersConfig).
  - constructor; [|constructor]. exists "2". reflexivity.
  - reflexivity.
Defined.


(** Two rows that agree on the key fields and differ elsewhere. *)
Lemma composite_keys_do_not_collide_witness :
  PrimaryKey.extractPrimaryKey (host := exampleHost) [] order "orders" ordersConfig
  = PrimaryKey.extractPrimaryKey (host := exampleHost) [] orderAgain "orders" ordersConfig
  <-> forall field, In field ["tenant"; "number"] -> get order field = get orderAgain field.
Proof.
  refine (proj2 (composite_keys_do_not_collide (host := exampleHost)
                   [] [] order orderAgain "orders" ordersConfig ["tenant"; "number"]
                   eq_refl _ _) _).
  - simpl. lia.
  - intros [H|[H|[]]]; discriminate H.
  - intros field [<-|[<-|[]]]; split; reflexivity.
Defined.



(** A table keyed by the empty list, and one keyed by a list of one field,
    with a row that has the field and a row that lacks it. *)
Lemma degenerate_key_lists_witness :
  PrimaryKey.extractPrimaryKey (host := exampleHost) [] item "tags" tagsConfig = Returns "{}"
  /\ PrimaryKey.extractPrimaryKey (host := exampleHost) [] item "items" itemsConfig
     = ToString (host := exampleHost) [] (get item "sku")
  /\ PrimaryKey.extractPrimaryKey (host := exampleHost) [] invoice "items" itemsConfig
     = Throws (Error ("record missing configured primaryKey field(s) for table: "
                      +++ "items")).
Proof.
  pose proof (degenerate_key_lists (host := exampleHost)) as [Hnone Hone].
  split; [|split].
  - exact (Hnone [] item "tags" tagsConfig _ eq_refl eq_refl).
  - refine (proj1 (Hone [] item "items" itemsConfig _ "sku" eq_refl eq_refl _) eq_refl).
    discriminate.
  - refine (proj2 (Hone [] invoice "items" itemsConfig _ "sku" eq_refl eq_refl _) eq_refl).
    discriminate.
Defined.

(** The field [paid] ends in [id]. *)
Lemma heuristic_key_source_witness :
  exists key,
    In key (keys invoice) /\ idLike key = true
    /\ isNullish (get invoice key) = false
    /\ PrimaryKeyHeuristic.extractPrimaryKey (host := exampleHost) [] invoice "invoices"
       = ToString (host := exampleHost) [] (get invoice key).
Proof.
  apply (proj1 (heuristic_key_source (host := exampleHost) [] invoice "invoices")).
  exists "paid". split; [simpl; auto|]. split; reflexivity.
Defined.

Lemma revisions_agree_on_id_witness :
  PrimaryKey.extractPrimaryKey (host := exampleHost) [] userNew "users" usersConfig
  = ToString (host := exampleHost) [] (get userNew "id")
  /\ PrimaryKeyHeuristic.extractPrimaryKey (host := exampleHost) [] userNew "users"
     = ToString (host := exampleHost) [] (get userNew "id").
Proof.
  apply (proj1 (revisions_agree_on_id (host := exampleHost)
                  [] userNew "users" usersConfig (PrimaryKey.OneKey "id")
                  eq_refl eq_refl)).
  reflexivity.
Defined.


(** The two users of the scenarios, saved again as they are. *)
Lemma unchanged_rows_give_no_record_witness :
  Update.createUpdateAuditLogs (host := exampleHost) Serializer.filterFields
    (Serializer.getChangedValues Serializer.sameScalar)
    [] "users" [Some userBefore; Some userNew] [Some userBefore; Some userNew]
    (config0 changed)
  = Returns [].
Proof.
  apply (unchanged_rows_give_no_record (host := exampleHost)
           Serializer.filterFields (Serializer.getChangedValues Serializer.sameScalar)
           [] "users" [Some userBefore; Some userNew] (config0 changed)).
  - keyed_rows.
  - reflexivity.
  - intros row1 row2 id [H1|[H1|[]]] [H2|[H2|[]]];
      injection H1 as <-; injection H2 as <-; intros E1 E2;
      vm_compute in E1, E2; congruence.
  - intros row changedValues [H|[H|[]]]; injection H as <-; intros E;
      vm_compute in E; injection E as <-; reflexivity.
Defined.

Lemma update_records_hold_filtered_values_witness :
  exists row,
    In (Some row) [Some userAfter]
    /\ madeFrom (host := exampleHost) Serializer.filterFields [] "users" (config0 changed)
         row nameUpdated.
Proof.
  apply (update_records_hold_filtered_values (host := exampleHost)
           Serializer.filterFields (Serializer.getChangedValues Serializer.sameScalar)
           [] "users" [Some userBefore] [Some userAfter] (config0 changed)
           [nameUpdated] nameUpdated).
  - intros x y changedValues E. injection E as <-. apply incl_filter.
  - reflexivity.
  - simpl. auto.
Defined.

(** A table without id-like columns: the quantity of a row was changed. *)
Lemma keyless_rows_are_recorded_in_full_witness :
  exists id,
    PrimaryKeyHeuristic.extractPrimaryKey (host := exampleHost) [] stockAfter "stock"
    = Returns id
    /\ Update.createUpdateAuditLogs (host := exampleHost) Serializer.filterFields
         (Serializer.getChangedValues Serializer.sameScalar)
         [] "stock" [Some stockBefore] [Some stockAfter] (config0 changed)
       = Returns [{| action := "UPDATE";
                     tableName := "stock";
                     recordId := id;
                     values := Some (Serializer.filterFields stockAfter "stock"
                                       (config0 changed));
                     metadata := None |}].
Proof.
  refine (proj2 (keyless_rows_are_recorded_in_full (host := exampleHost)
                   Serializer.filterFields (Serializer.getChangedValues Serializer.sameScalar)
                   [] "stock" [Some stockBefore] stockAfter (config0 changed)
                   eq_refl _ eq_refl eq_refl _) _).
  - intros b [H|[]]. injection H as <-. split; reflexivity.
  - intros changedValues E. vm_compute in E. injection E as <-. reflexivity.
  - intros [H|[]]. discriminate H.
Defined.

(** The merge of the unit test with overlapping keys. *)
Lemma mergeMetadata_holds_last_values_witness :
  NoDup (keys [("a", VNumber 1); ("b", VNumber 2)])
  /\ (forall key,
        lookup [("a", VNumber 1); ("b", VNumber 2)] key
        = lastAssigned [Some [("a", VNumber 1); ("b", VNumber 1)]; Some [("b", VNumber 2)]] key)
  /\ (forall key,
        In key (keys [("a", VNumber 1); ("b", VNumber 2)]) <->
        exists source v,
          In (Some source) [Some [("a", VNumber 1); ("b", VNumber 1)]; Some [("b", VNumber 2)]]
          /\ In (key, v) source
          /\ Metadata.isForbidden key = false /\ v <> VUndefined).
Proof.
  apply (mergeMetadata_holds_last_values
           [Some [("a", VNumber 1); ("b", VNumber 1)]; Some [("b", VNumber 2)]]
           [("a", VNumber 1); ("b", VNumber 2)]).
  reflexivity.
Defined.

Lemma mergeMetadata_key_order_witness :
  keys [("a", VNumber 1); ("b", VNumber 2)]
  = firstOccurrences
      (keys (flat_map Metadata.effectiveEntries
               [Some [("a", VNumber 1); ("b", VNumber 1)]; Some [("b", VNumber 2)]])).
Proof.
  apply (mergeMetadata_key_order
           [Some [("a", VNumber 1); ("b", VNumber 1)]; Some [("b", VNumber 2)]]
           [("a", VNumber 1); ("b", VNumber 2)]).
  - reflexivity.
  - intros source key [H|[H|[]]]; injection H as <-.
    + intros [<-|[<-|[]]]; reflexivity.
    + intros [<-|[]]. reflexivity.
Defined.



(** An update of the audited table [users], with a writer that accepts
    every list of records. *)
Lemma logUpdate_hands_records_to_writer_witness :
  exists logs,
    Update.createUpdateAuditLogs (host := exampleHost) Serializer.filterFields
      (Serializer.getChangedValues Serializer.sameScalar) [] "users"
      (Logger.toArray (Logger.OneRecord userBefore))
      (Logger.toArray (Logger.OneRecord userAfter)) (Logger.config exampleLogger)
    = Returns logs
    /\ (Logger.OneRecord userAfter = Logger.RecordArray [] -> logs = [])
    /\ Logger.logUpdate (host := exampleHost) (AuditContext := unit)
         (fun w _ _ => Returns w) (fun _ => None)
         Serializer.filterFields (Serializer.getChangedValues Serializer.sameScalar)
         exampleLogger [] "users" (Logger.OneRecord userBefore) (Logger.OneRecord userAfter)
       = (w <- Returns (Logger.writer exampleLogger) ;;
          Returns (Logger.withWriter _ _ exampleLogger w))
    /\ (forall this',
          Logger.logUpdate (host := exampleHost) (AuditContext := unit)
            (fun w _ _ => Returns w) (fun _ => None)
            Serializer.filterFields (Serializer.getChangedValues Serializer.sameScalar)
            exampleLogger [] "users" (Logger.OneRecord userBefore)
            (Logger.OneRecord userAfter) = Returns this' ->
          Logger.config this' = Logger.config exampleLogger
          /\ Logger.contextManager this' = Logger.contextManager exampleLogger
          /\ Returns (Logger.writer exampleLogger) = Returns (Logger.writer this')).
Proof.
  apply (logUpdate_hands_records_to_writer (host := exampleHost) unit unit unit
           (fun w _ _ => Returns w) (fun _ => None)
           Serializer.filterFields (Serializer.getChangedValues Serializer.sameScalar)
           exampleLogger [] "users" (Logger.OneRecord userBefore) (Logger.OneRecord userAfter));
    [reflexivity|keyed_rows|keyed_rows].
Defined.

(** A configuration that names its audit table. *)
Lemma normalizeConfig_defaults_witness :
  Setup.auditTable (Setup.normalizeConfig givenConfig) = "audit_trail".
Proof.
  apply (proj1 (proj2 (proj1 normalizeConfig_defaults givenConfig)) "audit_trail").
  - reflexivity.
  - discriminate.
Defined.
